(** * TailorLoom: column-mapping inference and identity stitching

    A shallow embedding of the algorithmic core of the repository:

    - [src/lib/types/csv.ts]             (module [Csv])
    - [src/lib/csv/heuristic-mapper.ts]  (module [Mapper])
    - [src/lib/csv/detect-source.ts]     (module [Detect])
    - [src/lib/csv/validators.ts]        (module [Validators])
    - [lib/csv/normalizers.ts]           (modules [Normalizers],
                                          [ObjectLookup])
    - [src/lib/stitching/matcher.ts]     (modules [Stitching], [PostImport])
    - [src/lib/actions/mappings.ts]      (module [Mappings])
    - [src/lib/csv/parser.ts]            (module [Parser])
    - [lib/actions/import.ts]            (module [Preview])
    - [upload/components/upload-mapper.tsx] (module [UploadMapper])

    The definitions come first, module by module; the lemmas and the
    theorems follow.

    Conventions of the embedding.

    - A JavaScript string is a [string] of 8-bit characters (the Latin-1
      range of UTF-16 code units).
    - A JavaScript [number] that holds a score is an exact rational [Q];
      counts and lengths are [nat].  Rounding of IEEE doubles is not
      modelled, nor is [NaN] as a score: the coverage of a schema without
      fields, [0 / 0] in JavaScript, is 0 here.
    - A JavaScript [Map] is an association list in insertion order
      (module [JsMap]): iteration order is observable in the mapper.
    - An object used as a record of cells or as a table is the
      association list of its own properties in insertion order.  That
      [Object.entries] lists integer-like keys first is not modelled; the
      members that a plain object inherits are modelled for the status
      tables, whose keys are free text (module [ObjectLookup]).
    - [parseFloat] gives exact rational values: the overflow of a double
      to [Infinity] is not modelled.
    - The database is a record of tables (lists of rows); the unique
      indexes of the SQL schema are the well-formedness predicate of a
      store. *)

From Stdlib Require Import List String Ascii Bool Arith ZArith QArith Qminmax
  Lia Lqa Permutation Sorted.
Import ListNotations.

Local Open Scope string_scope.
Local Open Scope list_scope.

(** ** JavaScript string primitives *)

Module JsString.

Definition code (c : ascii) : nat := nat_of_ascii c.

Definition in_range (lo hi : nat) (c : ascii) : bool :=
  (lo <=? code c)%nat && (code c <=? hi)%nat.

Definition is_upper (c : ascii) : bool := in_range 65 90 c.
Definition is_lower (c : ascii) : bool := in_range 97 122 c.
Definition is_digit (c : ascii) : bool := in_range 48 57 c.

(** Latin-1 capital letters other than A-Z: U+00C0..U+00DE except the
    multiplication sign U+00D7. *)
Definition is_upper_latin1 (c : ascii) : bool :=
  in_range 192 222 c && negb (code c =? 215)%nat.

(** [\s] of a regular expression and the white space of [trim], within
    Latin-1: TAB, LF, VT, FF, CR, SPACE and NBSP. *)
Definition is_space (c : ascii) : bool :=
  in_range 9 13 c || (code c =? 32)%nat || (code c =? 160)%nat.

Definition lower_char (c : ascii) : ascii :=
  if is_upper c || is_upper_latin1 c then ascii_of_nat (code c + 32) else c.

Fixpoint map_chars (f : ascii -> ascii) (s : string) : string :=
  match s with
  | EmptyString => EmptyString
  | String c s' => String (f c) (map_chars f s')
  end.

Fixpoint filter_chars (p : ascii -> bool) (s : string) : string :=
  match s with
  | EmptyString => EmptyString
  | String c s' =>
      if p c then String c (filter_chars p s') else filter_chars p s'
  end.

(** [s.toLowerCase()] *)
Definition toLowerCase (s : string) : string := map_chars lower_char s.

(** [s.trimStart()] *)
Fixpoint trimStart (s : string) : string :=
  match s with
  | EmptyString => EmptyString
  | String c s' => if is_space c then trimStart s' else s
  end.

(** [s.trimEnd()] *)
Fixpoint trimEnd (s : string) : string :=
  match s with
  | EmptyString => EmptyString
  | String c s' =>
      let r := trimEnd s' in
      if is_space c && (r =? "") then "" else String c r
  end.

(** [s.trim()] *)
Definition trim (s : string) : string := trimEnd (trimStart s).

(** [s.replace(/\s+/g, " ")]: every maximal run of white space becomes one
    space.  [in_run] records that the previous character was white space. *)
Fixpoint collapse_spaces (in_run : bool) (s : string) : string :=
  match s with
  | EmptyString => EmptyString
  | String c s' =>
      if is_space c
      then if in_run then collapse_spaces true s'
           else String " " (collapse_spaces true s')
      else String c (collapse_spaces false s')
  end.

(** Truthiness of a string: [""] is falsy. *)
Definition truthy (s : string) : bool := negb (s =? "").

(** Truthiness of a [string | null | undefined]. *)
Definition truthy_opt (o : option string) : bool :=
  match o with
  | Some s => truthy s
  | None => false
  end.

End JsString.

(** ** JavaScript [Map] with string keys, in insertion order *)

Module JsMap.

Definition t (V : Type) : Type := list (string * V).

Section Ops.
Context {V : Type}.

(** [m.get(k)] *)
Fixpoint get (k : string) (m : t V) : option V :=
  match m with
  | [] => None
  | (k', v) :: m' => if k' =? k then Some v else get k m'
  end.

(** [m.set(k, v)]: an existing key keeps its position. *)
Fixpoint set (k : string) (v : V) (m : t V) : t V :=
  match m with
  | [] => [(k, v)]
  | (k', v') :: m' =>
      if k' =? k then (k', v) :: m' else (k', v') :: set k v m'
  end.

(** [m.delete(k)] *)
Fixpoint delete (k : string) (m : t V) : t V :=
  match m with
  | [] => []
  | (k', v') :: m' =>
      if k' =? k then delete k m' else (k', v') :: delete k m'
  end.

Definition keys (m : t V) : list string := map fst m.

End Ops.

End JsMap.

(** ** Stable sorting, as [Array.prototype.sort] with a comparator

    [le a b] is [cmp(a, b) <= 0]: [a] may stay before [b].  The sort is
    stable (ECMAScript 2019), so for a consistent comparator the result is
    determined: elements that compare equal keep their relative order. *)

Module JsSort.

Section Sort.
Context {A : Type} (le : A -> A -> bool).

Fixpoint insert (x : A) (l : list A) : list A :=
  match l with
  | [] => [x]
  | y :: l' => if le x y then x :: l else y :: insert x l'
  end.

Definition sort (l : list A) : list A := fold_right insert [] l.

End Sort.

End JsSort.

(** ** Types of [src/lib/types/database.ts] used by the core *)

Module Db.

Inductive SourceType : Type := Stripe | Calendly | Passline | Manual.

Definition source_name (s : SourceType) : string :=
  match s with
  | Stripe => "stripe"
  | Calendly => "calendly"
  | Passline => "passline"
  | Manual => "manual"
  end.

Definition source_eqb (a b : SourceType) : bool :=
  match a, b with
  | Stripe, Stripe | Calendly, Calendly
  | Passline, Passline | Manual, Manual => true
  | _, _ => false
  end.

Inductive ConflictStatus : Type := Pending | Merged | Dismissed | Split.

End Db.

(** ** Types of [src/lib/types/csv.ts] *)

Module Csv.

Inductive FieldType : Type :=
  | TText | TEmail | TNumber | TCurrency | TDate | TTimestamp | TEnum.

(** A [RegExp] is used only through [pattern.test(value)]; it is embedded
    as its acceptance predicate (a pattern without the [g] or [y] flag,
    for which [test] keeps no state). *)
Record SchemaField : Type := {
  key : string;
  label : string;
  type : FieldType;
  required : bool;
  aliases : list string;
  samplePattern : option (string -> bool);
  description : string;
  enumValues : option (list string)
}.

Record SourceSchema : Type := {
  source : Db.SourceType;
  schemaLabel : string;
  fields : list SchemaField;
  idField : string;
  emailField : string;
  nameField : string
}.

Inductive MatchType : Type :=
  | MExact | MAlias | MSimilarity | MPattern | MNone.

Record MappingSuggestion : Type := {
  csvHeader : string;
  schemaField : option string;
  confidence : Q;
  matchType : MatchType
}.

(** A parsed CSV row, [Record<string, string>]: the cell under each header
    (the record's own properties). *)
Definition Row : Type := JsMap.t string.

End Csv.

Import Csv.

(** Comparison of two scores, [x < y] on JavaScript numbers. *)
Definition Qltb (x y : Q) : bool := negb (Qle_bool y x).

(** ** [src/lib/csv/heuristic-mapper.ts] *)

Module Mapper.

Import JsString.

(** [normalizeHeader]: lowercase, strip what is not [a-z0-9\s], collapse
    white space, trim. *)
Definition keep_char (c : ascii) : bool :=
  is_lower c || is_digit c || is_space c.

Definition normalizeHeader (header : string) : string :=
  trim (collapse_spaces false (filter_chars keep_char (toLowerCase header))).

(** The bigrams [a.slice(i, i + 2)] for [i = 0 .. a.length - 2]. *)
Definition bigrams (a : string) : list string :=
  map (fun i => substring i 2 a) (seq 0 (String.length a - 1)).

(** First loop of [diceCoefficient]: the multiset of bigrams of [a]. *)
Definition count_bigram (m : JsMap.t nat) (bigram : string) : JsMap.t nat :=
  JsMap.set bigram
    (match JsMap.get bigram m with Some n => n | None => 0 end + 1)%nat m.

Definition bigramsMap (a : string) : JsMap.t nat :=
  fold_left count_bigram (bigrams a) [].

(** Second loop: each bigram of [b] consumes one instance from the map. *)
Definition consume_bigram (st : JsMap.t nat * nat) (bigram : string)
  : JsMap.t nat * nat :=
  let (m, intersection) := st in
  match JsMap.get bigram m with
  | Some count =>
      if (0 <? count)%nat
      then (JsMap.set bigram (count - 1)%nat m, S intersection)
      else st
  | None => st
  end.

Definition intersection (a b : string) : nat :=
  snd (fold_left consume_bigram (bigrams b) (bigramsMap a, 0%nat)).

Definition Qnat (n : nat) : Q := inject_Z (Z.of_nat n).

Definition diceCoefficient (a b : string) : Q :=
  if a =? b then 1
  else if (String.length a <? 2)%nat || (String.length b <? 2)%nat then 0
  else Qnat (2 * intersection a b)
       / Qnat (String.length a - 1 + (String.length b - 1)).

(** [checkSamplePattern] *)
Definition sample_step (pattern : string -> bool) (csvHeader : string)
    (st : nat * nat) (row : Row) : nat * nat :=
  let (matches, total) := st in
  match option_map trim (JsMap.get csvHeader row) with
  | Some val =>
      if truthy val
      then (if pattern val then S matches else matches, S total)
      else st
  | None => st
  end.

Definition checkSamplePattern (sampleRows : list Row) (csvHeader : string)
    (pattern : string -> bool) : Q :=
  match sampleRows with
  | [] => 0
  | _ =>
      let (matches, total) :=
        fold_left (sample_step pattern csvHeader) sampleRows (0, 0)%nat in
      if (total =? 0)%nat then 0
      else (Qnat matches / Qnat total) * (85 # 100)
  end.

(** The best match found so far for one header. *)
Record Match : Type := {
  field : string;
  mconfidence : Q;
  mmatchType : MatchType
}.

(** [!bestMatch || bestMatch.confidence < conf] *)
Definition improves (bestMatch : option Match) (conf : Q) : bool :=
  match bestMatch with
  | None => true
  | Some b => Qltb (mconfidence b) conf
  end.

Definition offer (bestMatch : option Match) (k : string) (conf : Q)
    (mt : MatchType) : option Match :=
  if improves bestMatch conf
  then Some {| field := k; mconfidence := conf; mmatchType := mt |}
  else bestMatch.

(** [Math.max(simKey, simLabel, ...simAliases)] *)
Definition maxSim (normalized : string) (f : SchemaField) : Q :=
  fold_left Qmax
    (map (fun a => diceCoefficient normalized (normalizeHeader a))
         (aliases f))
    (Qmax (diceCoefficient normalized (normalizeHeader (key f)))
          (diceCoefficient normalized (normalizeHeader (label f)))).

(** Body of the inner loop: one schema field against one header. *)
Definition score_field (sampleRows : list Row) (csvHeader : string)
    (bestMatch : option Match) (f : SchemaField) : option Match :=
  let normalized := normalizeHeader csvHeader in
  let fieldNormalized := normalizeHeader (key f) in
  let labelNormalized := normalizeHeader (label f) in
  if (normalized =? fieldNormalized) || (normalized =? labelNormalized)
  then offer bestMatch (key f) 1 MExact
  else if existsb (fun alias => normalizeHeader alias =? normalized)
                  (aliases f)
  then offer bestMatch (key f) (95 # 100) MAlias
  else
    let m := maxSim normalized f in
    let best1 :=
      if Qltb (6 # 10) m
      then offer bestMatch (key f) (Qmin m (9 # 10)) MSimilarity
      else bestMatch in
    match samplePattern f with
    | Some pattern =>
        let patternConf := checkSamplePattern sampleRows csvHeader pattern in
        if Qltb (3 # 10) patternConf
        then offer best1 (key f) patternConf MPattern
        else best1
    | None => best1
    end.

(** [[...schema.fields].sort((a, b) =>
       (b.required ? 1 : 0) - (a.required ? 1 : 0))] *)
Definition required_cmp (a b : SchemaField) : Z :=
  ((if required b then 1 else 0) - (if required a then 1 else 0))%Z.

Definition sortFields (fs : list SchemaField) : list SchemaField :=
  JsSort.sort (fun a b => (required_cmp a b <=? 0)%Z) fs.

(** First pass for one header over a given evaluation order of fields. *)
Definition bestMatchFor (fs : list SchemaField) (sampleRows : list Row)
    (csvHeader : string) : option Match :=
  fold_left (score_field sampleRows csvHeader) fs None.

Definition firstPass (fs : list SchemaField) (sampleRows : list Row)
    (csvHeaders : list string) : JsMap.t Match :=
  fold_left
    (fun headerScores csvHeader =>
       match bestMatchFor fs sampleRows csvHeader with
       | Some bestMatch => JsMap.set csvHeader bestMatch headerScores
       | None => headerScores
       end)
    csvHeaders [].

(** An entry of [fieldToHeaders]. *)
Record Claimant : Type := {
  cheader : string;
  cconfidence : Q;
  cmatchType : MatchType
}.

Definition group_step (fieldToHeaders : JsMap.t (list Claimant))
    (e : string * Match) : JsMap.t (list Claimant) :=
  let (h, m) := e in
  let existing :=
    match JsMap.get (field m) fieldToHeaders with
    | Some l => l
    | None => []
    end in
  JsMap.set (field m)
    (existing ++ [{| cheader := h; cconfidence := mconfidence m;
                     cmatchType := mmatchType m |}])
    fieldToHeaders.

Definition groupByField (headerScores : JsMap.t Match)
  : JsMap.t (list Claimant) :=
  fold_left group_step headerScores [].

(** [matches.sort((a, b) => b.confidence - a.confidence)] *)
Definition sortMatches (matches : list Claimant) : list Claimant :=
  JsSort.sort
    (fun a b => Qle_bool (cconfidence b - cconfidence a) 0) matches.

(** Body of the second loop.  [matches[0]] of an empty array would be
    [undefined]; the groups built by [groupByField] are never empty. *)
Definition resolve_step (headerScores : JsMap.t Match)
    (e : string * list Claimant) : JsMap.t Match :=
  let (f, matches) := e in
  let sorted :=
    if (1 <? List.length matches)%nat then sortMatches matches
    else matches in
  let headerScores1 :=
    if (1 <? List.length matches)%nat
    then fold_left (fun hs c => JsMap.delete (cheader c) hs)
                   (tl sorted) headerScores
    else headerScores in
  match sorted with
  | winner :: _ =>
      JsMap.set (cheader winner)
        {| field := f; mconfidence := cconfidence winner;
           mmatchType := cmatchType winner |}
        headerScores1
  | [] => headerScores1
  end.

Definition suggestionFor (headerScores : JsMap.t Match) (h : string)
  : MappingSuggestion :=
  match JsMap.get h headerScores with
  | Some m =>
      {| csvHeader := h; schemaField := Some (field m);
         confidence := mconfidence m; matchType := mmatchType m |}
  | None =>
      {| csvHeader := h; schemaField := None;
         confidence := 0; matchType := MNone |}
  end.

(** The three passes over a given evaluation order of the fields. *)
Definition suggestWith (fs : list SchemaField) (csvHeaders : list string)
    (sampleRows : list Row) : list MappingSuggestion :=
  let headerScores := firstPass fs sampleRows csvHeaders in
  let fieldToHeaders := groupByField headerScores in
  let resolved := fold_left resolve_step fieldToHeaders headerScores in
  map (suggestionFor resolved) csvHeaders.

Definition generateMappingSuggestions (csvHeaders : list string)
    (schema : SourceSchema) (sampleRows : list Row)
  : list MappingSuggestion :=
  suggestWith (sortFields (fields schema)) csvHeaders sampleRows.

(** The same engine over the fields in their declared order, for the
    comparison with the required-first order. *)
Definition generateMappingSuggestions_declared (csvHeaders : list string)
    (schema : SourceSchema) (sampleRows : list Row)
  : list MappingSuggestion :=
  suggestWith (fields schema) csvHeaders sampleRows.

(** [suggestionsToMapping] *)
Definition suggestionsToMapping (suggestions : list MappingSuggestion)
  : JsMap.t string :=
  fold_left
    (fun mapping s =>
       match schemaField s with
       | Some f => if truthy f then JsMap.set (csvHeader s) f mapping
                   else mapping
       | None => mapping
       end)
    suggestions [].

End Mapper.

(** ** [src/lib/csv/detect-source.ts] *)

Module Detect.

Record DetectionResult : Type := {
  source : Db.SourceType;
  confidence : Q;
  mappedCount : nat;
  requiredMapped : nat;
  requiredTotal : nat
}.

Definition is_mapped (s : MappingSuggestion) : bool :=
  match schemaField s with Some _ => true | None => false end.

Definition field_is (s : MappingSuggestion) (k : string) : bool :=
  match schemaField s with Some f => f =? k | None => false end.

(** Body of the loop of [detectSource] for one registered schema.  For a
    schema without fields JavaScript divides by zero in [coverage]; here
    the quotient by zero is 0, and no property below depends on it. *)
Definition detect_one (headers : list string) (sampleRows : list Row)
    (entry : Db.SourceType * SourceSchema) : DetectionResult :=
  let (k, schema) := entry in
  let suggestions :=
    Mapper.generateMappingSuggestions headers schema sampleRows in
  let mapped := filter is_mapped suggestions in
  let avgConfidence :=
    if (0 <? List.length mapped)%nat
    then fold_left (fun sum s => sum + Csv.confidence s) mapped 0
         / Mapper.Qnat (List.length mapped)
    else 0 in
  let requiredFields := filter required (fields schema) in
  let requiredMapped :=
    List.length
      (filter (fun f => existsb (fun s => field_is s (key f)) mapped)
              requiredFields) in
  let coverage :=
    Mapper.Qnat (List.length mapped)
    / Mapper.Qnat (List.length (fields schema)) in
  let requiredCoverage :=
    if (0 <? List.length requiredFields)%nat
    then Mapper.Qnat requiredMapped
         / Mapper.Qnat (List.length requiredFields)
    else 1 in
  {| source := k;
     confidence :=
       avgConfidence * (4 # 10) + coverage * (2 # 10)
       + requiredCoverage * (4 # 10);
     mappedCount := List.length mapped;
     requiredMapped := requiredMapped;
     requiredTotal := List.length requiredFields |}.

(** [detectSource]; the table [SCHEMAS] of [./schemas] is a parameter. *)
Definition detectSource (SCHEMAS : list (Db.SourceType * SourceSchema))
    (headers : list string) (sampleRows : list Row) : list DetectionResult :=
  JsSort.sort (fun a b => Qle_bool (confidence b - confidence a) 0)
    (map (detect_one headers sampleRows) SCHEMAS).

Definition isConfidentDetection (results : list DetectionResult) : bool :=
  match results with
  | [] => false
  | top :: rest =>
      if Qltb (confidence top) (5 # 10) then false
      else if (requiredMapped top <? requiredTotal top)%nat then false
      else
        match rest with
        | runnerUp :: _ =>
            if Qltb (confidence top - confidence runnerUp) (15 # 100)
            then false else true
        | [] => true
        end
  end.

End Detect.

(** ** [src/lib/csv/validators.ts] *)

Module Validators.

Import JsString.

(** The result of [parseFloat]: [NaN], an infinity, or a finite value. *)
Inductive JsNumber : Type :=
  | NaN
  | Infinity (negative : bool)
  | Finite (q : Q).

Definition isNaN (n : JsNumber) : bool :=
  match n with NaN => true | _ => false end.

Definition isFinite (n : JsNumber) : bool :=
  match n with Finite _ => true | _ => false end.

Definition negate (n : JsNumber) : JsNumber :=
  match n with
  | NaN => NaN
  | Infinity b => Infinity (negb b)
  | Finite q => Finite (- q)
  end.

(** The leading decimal digits of a string and what follows them. *)
Fixpoint span_digits (s : string) : list nat * string :=
  match s with
  | EmptyString => ([], EmptyString)
  | String c s' =>
      if is_digit c
      then let (ds, r) := span_digits s' in ((code c - 48)%nat :: ds, r)
      else ([], s)
  end.

Definition digits_value (ds : list nat) : Z :=
  fold_left (fun acc d => 10 * acc + Z.of_nat d)%Z ds 0%Z.

(** [ExponentPart], when complete; otherwise it is not part of the literal. *)
Definition parse_exponent (s : string) : Z :=
  match s with
  | String c s1 =>
      if (c =? "e")%char || (c =? "E")%char then
        let (sign, s2) :=
          match s1 with
          | String "+" r => (1%Z, r)
          | String "-" r => ((-1)%Z, r)
          | _ => (1%Z, s1)
          end in
        match fst (span_digits s2) with
        | [] => 0%Z
        | ds => (sign * digits_value ds)%Z
        end
      else 0%Z
  | EmptyString => 0%Z
  end.

(** The longest prefix that is a [StrUnsignedDecimalLiteral]. *)
Definition parse_unsigned (s : string) : JsNumber :=
  if String.prefix "Infinity" s then Infinity false
  else
    let (int_ds, r1) := span_digits s in
    let (frac_ds, r2) :=
      match r1 with
      | String "." r => span_digits r
      | _ => ([], r1)
      end in
    match int_ds, frac_ds with
    | [], [] => NaN
    | _, _ =>
        Finite
          ((inject_Z (digits_value int_ds)
            + inject_Z (digits_value frac_ds)
              / Qpower 10 (Z.of_nat (List.length frac_ds)))
           * Qpower 10 (parse_exponent r2))
    end.

(** [parseFloat(s)]: leading white space is skipped, a sign is read, and
    the remainder after the literal is ignored. *)
Definition parseFloat (s : string) : JsNumber :=
  match trimStart s with
  | String "+" r => parse_unsigned r
  | String "-" r => negate (parse_unsigned r)
  | t => parse_unsigned t
  end.

(** [value.replace(/[$,\s]/g, "")] *)
Definition strip_currency (value : string) : string :=
  filter_chars
    (fun c => negb ((c =? "$")%char || (c =? ",")%char || is_space c)) value.

(** [value.replace(/[,\s]/g, "")] *)
Definition strip_number (value : string) : string :=
  filter_chars (fun c => negb ((c =? ",")%char || is_space c)) value.

Definition parseCurrency (value : string) : option JsNumber :=
  let cleaned := strip_currency value in
  let num := parseFloat cleaned in
  if isNaN num then None else Some num.

Definition parseNumber (value : string) : option JsNumber :=
  let cleaned := strip_number value in
  let num := parseFloat cleaned in
  if isNaN num then None else Some num.

(** [EMAIL_REGEX = /^[^\s@]+@[^\s@]+\.[^\s@]+$/] *)
Definition plain_char (c : ascii) : bool :=
  negb (is_space c) && negb (c =? "@")%char.

Fixpoint all_chars (p : ascii -> bool) (s : string) : bool :=
  match s with
  | EmptyString => true
  | String c s' => p c && all_chars p s'
  end.

(** The text before the first [@] and the text after it. *)
Fixpoint split_at_sign (s : string) : option (string * string) :=
  match s with
  | EmptyString => None
  | String c s' =>
      if (c =? "@")%char then Some (EmptyString, s')
      else match split_at_sign s' with
           | Some (l, r) => Some (String c l, r)
           | None => None
           end
  end.

(** A dot that is followed by at least one character. *)
Fixpoint dot_inside (s : string) : bool :=
  match s with
  | EmptyString => false
  | String c s' => ((c =? ".")%char && truthy s') || dot_inside s'
  end.

Definition EMAIL_REGEX_test (value : string) : bool :=
  match split_at_sign value with
  | Some (local, domain) =>
      truthy local && all_chars plain_char local
      && all_chars plain_char domain
      && match domain with
         | String _ r => dot_inside r
         | EmptyString => false
         end
  | None => false
  end.

Record ValidationError : Type := {
  row : nat;
  field : string;
  message : string;
  value : option string
}.

(** The double quote of the message templates. *)
Definition dq : string := String (ascii_of_nat 34) EmptyString.

Section Engine.

(** The host's date handling is implementation-defined and is a parameter:
    [Date_parse v] is the ISO string of [new Date(v)] when the time value
    is not [NaN]; [Date_local y m d] that of [new Date(y, m, d)];
    [match_date v] the three captures of
    [v.match(/(\d{1,2})[/\-.](\d{1,2})[/\-.](\d{2,4})/)]. *)
Variable Date_parse : string -> option string.
Variable Date_local : Z -> Z -> Z -> option string.
Variable match_date : string -> option (string * string * string).

Definition parseInt (s : string) : Z := digits_value (fst (span_digits s)).

Definition parseTimestamp (v : string) : option string :=
  match Date_parse v with
  | Some iso => Some iso
  | None =>
      match match_date v with
      | Some (a, b, yearStr) =>
          let year :=
            if (String.length yearStr =? 2)%nat
            then (2000 + parseInt yearStr)%Z
            else parseInt yearStr in
          Date_local year (parseInt a - 1)%Z (parseInt b)
      | None => None
      end
  end.

(** [row[field.key]?.trim() ?? ""] *)
Definition field_value (r : JsMap.t (option string)) (f : SchemaField)
  : string :=
  match JsMap.get (key f) r with
  | Some (Some s) => trim s
  | _ => ""
  end.

Definition is_none {A : Type} (o : option A) : bool :=
  match o with Some _ => false | None => true end.

(** Body of the loop of [validateMappedRow]: the errors of one field. *)
Definition validateField (r : JsMap.t (option string)) (rowIndex : nat)
    (f : SchemaField) : list ValidationError :=
  let v := field_value r f in
  let err msg val :=
    [{| row := rowIndex; field := key f; message := msg; value := Some val |}]
  in
  if required f && negb (truthy v)
  then err ("Required field " ++ dq ++ label f ++ dq ++ " is empty")%string ""
  else if negb (truthy v) then []
  else
    match type f with
    | TEmail =>
        if negb (EMAIL_REGEX_test v)
        then err ("Invalid email format: " ++ dq ++ v ++ dq)%string v else []
    | TNumber =>
        if is_none (parseNumber v)
        then err ("Invalid number: " ++ dq ++ v ++ dq)%string v else []
    | TCurrency =>
        if is_none (parseCurrency v)
        then err ("Invalid currency amount: " ++ dq ++ v ++ dq)%string v else []
    | TDate | TTimestamp =>
        if is_none (parseTimestamp v)
        then err ("Invalid date/time: " ++ dq ++ v ++ dq)%string v else []
    | TEnum =>
        match enumValues f with
        | Some allowed =>
            if negb (existsb (String.eqb (toLowerCase v)) allowed)
            then err ("Invalid value " ++ dq ++ v ++ dq ++ ". Expected: "
                      ++ String.concat ", " allowed)%string v
            else []
        | None => []
        end
    | TText => []
    end.

Definition validateMappedRow (r : JsMap.t (option string))
    (schema : SourceSchema) (rowIndex : nat) : list ValidationError :=
  flat_map (validateField r rowIndex) (fields schema).

End Engine.

(** [applyMapping] *)
Definition applyMapping (rawRow : Row) (mapping : JsMap.t string)
  : JsMap.t (option string) :=
  fold_left
    (fun mapped e =>
       let v :=
         match JsMap.get (fst e) rawRow with
         | Some s => if truthy (trim s) then Some (trim s) else None
         | None => None
         end in
       JsMap.set (snd e) v mapped)
    mapping [].

End Validators.

(** ** [lib/csv/normalizers.ts] *)

Module Normalizers.

Import JsString.

Definition PAYMENT_STATUS_MAP : JsMap.t string :=
  [ ("succeeded", "succeeded"); ("paid", "succeeded");
    ("complete", "succeeded"); ("pending", "pending");
    ("processing", "pending"); ("failed", "failed");
    ("declined", "failed"); ("refunded", "refunded");
    ("partially_refunded", "refunded") ].

Definition BOOKING_STATUS_MAP : JsMap.t string :=
  [ ("scheduled", "scheduled"); ("active", "scheduled");
    ("confirmed", "scheduled"); ("upcoming", "scheduled");
    ("completed", "completed"); ("done", "completed");
    ("cancelled", "cancelled"); ("canceled", "cancelled");
    ("no_show", "no_show"); ("no show", "no_show");
    ("noshow", "no_show") ].

(** [TABLE[normalized] ?? normalized], on the table's own entries. *)
Definition lookup_or (table : JsMap.t string) (normalized : string) : string :=
  match JsMap.get normalized table with
  | Some v => v
  | None => normalized
  end.

Definition normalizeStatus (value : string) (source : string) : string :=
  let normalized := trim (toLowerCase value) in
  if source =? "stripe" then lookup_or PAYMENT_STATUS_MAP normalized
  else if source =? "calendly" then lookup_or BOOKING_STATUS_MAP normalized
  else normalized.

(** The canonicalization table of a source, when it has one. *)
Definition status_table (source : string) : option (JsMap.t string) :=
  if source =? "stripe" then Some PAYMENT_STATUS_MAP
  else if source =? "calendly" then Some BOOKING_STATUS_MAP
  else None.

End Normalizers.

(** ** [src/lib/stitching/matcher.ts]

    The Supabase client is embedded as the tables it reads and writes.  A
    row keeps the columns the stitcher touches.  UUIDs are natural numbers;
    [uuid_generate_v4()] is the least number above every customer id (any
    unused value would do).  Rows are read in table order where the query
    leaves the order open. *)

Module Stitching.

Import JsString.

Definition Id : Type := nat.

Definition DEFAULT_ORG_ID : string := "00000000-0000-0000-0000-000000000001".

Record Customer : Type := {
  id : Id;
  org_id : string;
  name : option string;
  email : option string
}.

Record CustomerSource : Type := {
  customer_id : Id;
  source : Db.SourceType;
  external_id : string;
  external_email : option string;
  external_name : option string
}.

Record StitchingConflict : Type := {
  conflict_org_id : string;
  customer_a_id : Id;
  customer_b_id : Id;
  match_field : string;
  match_value : option string;
  confidence : Q;
  status : Db.ConflictStatus;
  import_id : option Id
}.

Record Store : Type := {
  customers : list Customer;
  customer_sources : list CustomerSource;
  stitching_conflicts : list StitchingConflict
}.

Inductive MatchedBy : Type := ByExternalId | ByEmail | ByName | ByNone.

Record StitchResult : Type := {
  customerId : Id;
  isNew : bool;
  matchedBy : MatchedBy
}.

(** A call either returns or throws. *)
Inductive Outcome (A : Type) : Type :=
  | Ok (a : A)
  | Throw (message : string).

Arguments Ok {A} a.
Arguments Throw {A} message.

Definition bind {A B : Type} (o : Outcome A) (k : A -> Outcome B)
  : Outcome B :=
  match o with
  | Ok a => k a
  | Throw m => Throw m
  end.

Notation "x <- c ;; k" := (bind c (fun x => k))
  (at level 61, c at next level, right associativity).

(** [column = value] on a nullable text column. *)
Definition col_eq (column : option string) (v : string) : bool :=
  match column with
  | Some x => x =? v
  | None => false
  end.

(** [.maybeSingle()]: the row when exactly one matches; no data otherwise. *)
Definition maybeSingle {A : Type} (rows : list A) : option A :=
  match rows with
  | [r] => Some r
  | _ => None
  end.

(** SQL [LIKE] on a pattern: [%] (and its PostgREST alias [*]) stands for
    any run of characters, [_] for one character, a backslash quotes the
    next character.  [None] is the error raised when the pattern ends in a
    lone backslash while text remains. *)
Fixpoint like (p : string) : string -> option bool :=
  match p with
  | EmptyString => fun s => Some (s =? "")
  | String c p' =>
      if (c =? "%")%char || (c =? "*")%char then
        fix star (s : string) : option bool :=
          match like p' s with
          | Some true => Some true
          | None => None
          | Some false =>
              match s with
              | EmptyString => Some false
              | String _ s' => star s'
              end
          end
      else if (c =? "_")%char then
        fun s =>
          match s with
          | EmptyString => Some false
          | String _ s' => like p' s'
          end
      else if (c =? "\")%char then
        match p' with
        | EmptyString =>
            fun s => match s with EmptyString => Some false | _ => None end
        | String d p'' =>
            fun s =>
              match s with
              | EmptyString => Some false
              | String x s' => if (x =? d)%char then like p'' s' else Some false
              end
        end
      else
        fun s =>
          match s with
          | EmptyString => Some false
          | String x s' => if (x =? c)%char then like p' s' else Some false
          end
  end.

(** [column ILIKE pattern] on a nullable column; a null never matches. *)
Definition ilike (column : option string) (pattern : string) : option bool :=
  match column with
  | Some x => like (toLowerCase pattern) (toLowerCase x)
  | None => Some false
  end.

(** A filter whose predicate can raise: the query fails as a whole. *)
Fixpoint filter_opt {A : Type} (p : A -> option bool) (l : list A)
  : option (list A) :=
  match l with
  | [] => Some []
  | x :: l' =>
      match p x, filter_opt p l' with
      | Some b, Some r => Some (if b then x :: r else r)
      | _, _ => None
      end
  end.

Definition same_key (src : Db.SourceType) (ext : string) (r : CustomerSource)
  : bool :=
  Db.source_eqb (source r) src && (external_id r =? ext).

(** [from("customer_sources").eq("source", ..).eq("external_id", ..).maybeSingle()] *)
Definition findSourceByExternalId (s : Store) (src : Db.SourceType)
    (externalId : string) : option CustomerSource :=
  maybeSingle (filter (same_key src externalId) (customer_sources s)).

Definition in_org (c : Customer) : bool := org_id c =? DEFAULT_ORG_ID.

(** [from("customers").eq("org_id", ..).eq("email", ..).maybeSingle()] *)
Definition findCustomerByEmail (s : Store) (e : string) : option Customer :=
  maybeSingle (filter (fun c => in_org c && col_eq (email c) e) (customers s)).

(** [from("customer_sources").eq("external_email", ..).limit(1).maybeSingle()] *)
Definition findSourceByExternalEmail (s : Store) (e : string)
  : option CustomerSource :=
  find (fun r => col_eq (external_email r) e) (customer_sources s).

(** [from("customers").eq("org_id", ..).ilike("name", name).limit(5)] *)
Definition findCustomersByName (s : Store) (n : string)
  : option (list Customer) :=
  option_map (firstn 5)
    (filter_opt (fun c => ilike (name c) n) (filter in_org (customers s))).

Definition has_customer (s : Store) (i : Id) : bool :=
  existsb (fun c => (id c =? i)%nat) (customers s).

Definition fresh_id (cs : list Customer) : Id := S (list_max (map id cs)).

(** The partial unique index [idx_customers_org_email]. *)
Definition email_taken (cs : list Customer) (org : string)
    (e : option string) : bool :=
  match e with
  | Some x => existsb (fun c => (org_id c =? org) && col_eq (email c) x) cs
  | None => false
  end.

(** [createCustomer]: the insert fails on the unique index, and the
    failure is thrown. *)
Definition createCustomer (s : Store) (e n : option string)
  : Outcome (Id * Store) :=
  if email_taken (customers s) DEFAULT_ORG_ID e
  then Throw "Failed to create customer: duplicate key value"
  else
    let i := fresh_id (customers s) in
    Ok (i,
        {| customers :=
             customers s
             ++ [{| id := i; org_id := DEFAULT_ORG_ID; name := n;
                    email := e |}];
           customer_sources := customer_sources s;
           stitching_conflicts := stitching_conflicts s |}).

(** [upsert(row, { onConflict: "source,external_id" })] *)
Fixpoint upsert (r : CustomerSource) (rows : list CustomerSource)
  : list CustomerSource :=
  match rows with
  | [] => [r]
  | r' :: rest =>
      if same_key (source r) (external_id r) r' then r :: rest
      else r' :: upsert r rest
  end.

(** [linkSourceToCustomer]: a failed upsert (the foreign key on
    [customer_id]) is logged and the store is left as it was. *)
Definition linkSourceToCustomer (s : Store) (customerId : Id)
    (src : Db.SourceType) (externalId : string) (e n : option string)
  : Store :=
  if has_customer s customerId then
    {| customers := customers s;
       customer_sources :=
         upsert {| customer_id := customerId; source := src;
                   external_id := externalId; external_email := e;
                   external_name := n |}
                (customer_sources s);
       stitching_conflicts := stitching_conflicts s |}
  else s.

(** [flagConflict]: a failed insert is logged and swallowed. *)
Definition flagConflict (s : Store) (customerAId customerBId : Id)
    (matchField : string) (matchValue : option string) (conf : Q)
    (importId : option Id) : Store :=
  if has_customer s customerAId && has_customer s customerBId then
    {| customers := customers s;
       customer_sources := customer_sources s;
       stitching_conflicts :=
         stitching_conflicts s
         ++ [{| conflict_org_id := DEFAULT_ORG_ID;
                customer_a_id := customerAId;
                customer_b_id := customerBId;
                match_field := matchField;
                match_value := matchValue;
                confidence := conf;
                status := Db.Pending;
                import_id := importId |}] |}
  else s.

(** Step 1 of the cascade. *)
Definition byExternalId (s : Store) (src : Db.SourceType)
    (externalId : string) : option StitchResult :=
  if truthy externalId then
    match findSourceByExternalId s src externalId with
    | Some existingSource =>
        Some {| customerId := customer_id existingSource; isNew := false;
                matchedBy := ByExternalId |}
    | None => None
    end
  else None.

(** Step 2. *)
Definition byEmail (s : Store) (src : Db.SourceType) (externalId : string)
    (e n : option string) : option (StitchResult * Store) :=
  match e with
  | Some em =>
      if truthy em then
        match findCustomerByEmail s em with
        | Some customerByEmail =>
            Some ({| customerId := id customerByEmail; isNew := false;
                     matchedBy := ByEmail |},
                  linkSourceToCustomer s (id customerByEmail) src externalId
                    e n)
        | None =>
            match findSourceByExternalEmail s em with
            | Some sourceByEmail =>
                Some ({| customerId := customer_id sourceByEmail;
                         isNew := false; matchedBy := ByEmail |},
                      linkSourceToCustomer s (customer_id sourceByEmail) src
                        externalId e n)
            | None => None
            end
        end
      else None
  | None => None
  end.

(** [existingCustomer.email && email && existingCustomer.email !== email] *)
Definition emails_differ (existing e : option string) : bool :=
  match existing, e with
  | Some x, Some y => truthy x && truthy y && negb (x =? y)
  | _, _ => false
  end.

(** Step 3: [None] when the step does not apply and the cascade goes on. *)
Definition byName (s : Store) (src : Db.SourceType) (externalId : string)
    (e n : option string) : option (Outcome (StitchResult * Store)) :=
  match n with
  | Some nm =>
      if truthy nm then
        match findCustomersByName s nm with
        | Some [existingCustomer] =>
            if emails_differ (email existingCustomer) e then
              Some (created <- createCustomer s e n ;;
                    let (newCustomerId, s1) := created : Id * Store in
                    let s2 :=
                      linkSourceToCustomer s1 newCustomerId src externalId
                        e n in
                    let s3 :=
                      flagConflict s2 (id existingCustomer) newCustomerId
                        "name" n (6 # 10) None in
                    Ok ({| customerId := newCustomerId; isNew := true;
                           matchedBy := ByName |}, s3))
            else None
        | _ => None
        end
      else None
  | None => None
  end.

Definition stitchIdentity (s : Store) (src : Db.SourceType)
    (externalId : string) (e n : option string)
  : Outcome (StitchResult * Store) :=
  match byExternalId s src externalId with
  | Some r => Ok (r, s)
  | None =>
      match byEmail s src externalId e n with
      | Some rs => Ok rs
      | None =>
          match byName s src externalId e n with
          | Some o => o
          | None =>
              created <- createCustomer s e n ;;
              let (newCustomerId, s1) := created : Id * Store in
              Ok ({| customerId := newCustomerId; isNew := true;
                     matchedBy := ByNone |},
                  linkSourceToCustomer s1 newCustomerId src externalId e n)
          end
      end
  end.

(** The unique indexes and the foreign key of the SQL schema. *)
Definition source_key (r : CustomerSource) : Db.SourceType * string :=
  (source r, external_id r).

Definition unique_source_keys (s : Store) : Prop :=
  NoDup (map source_key (customer_sources s)).

Definition unique_emails (s : Store) : Prop :=
  forall c1 c2 e,
    In c1 (customers s) -> In c2 (customers s) ->
    org_id c1 = org_id c2 -> email c1 = Some e -> email c2 = Some e ->
    c1 = c2.

Definition sources_reference_customers (s : Store) : Prop :=
  forall r, In r (customer_sources s) -> has_customer s (customer_id r) = true.

Record wf_store (s : Store) : Prop := {
  wf_ids : NoDup (map id (customers s));
  wf_emails : unique_emails s;
  wf_keys : unique_source_keys s;
  wf_fk : sources_reference_customers s
}.

(** The rows of [customer_sources] for one external record. *)
Definition links_of (s : Store) (src : Db.SourceType) (externalId : string)
  : list CustomerSource :=
  filter (same_key src externalId) (customer_sources s).

End Stitching.

(** ** Notions used to state and prove the properties *)

Module Spec.

(** The number of instances of [g] recorded in a bigram map. *)
Definition cnt (m : JsMap.t nat) (g : string) : nat :=
  match JsMap.get g m with Some n => n | None => 0%nat end.

(** The size of the intersection of two multisets of bigrams, summed over
    a list [L] of distinct bigrams. *)
Definition min_sum (L : list string) (c : string -> nat) (ys : list string)
  : nat :=
  list_sum (map (fun g => Nat.min (c g) (count_occ string_dec ys g)) L).

(** The candidate matches that one schema field offers to one header, in
    the order in which [score_field] considers them. *)
Definition cands (sampleRows : list Row) (csvHeader : string)
    (f : SchemaField) : list Mapper.Match :=
  let normalized := Mapper.normalizeHeader csvHeader in
  if (normalized =? Mapper.normalizeHeader (key f))
     || (normalized =? Mapper.normalizeHeader (label f))
  then [{| Mapper.field := key f; Mapper.mconfidence := 1;
           Mapper.mmatchType := MExact |}]
  else if existsb (fun alias => Mapper.normalizeHeader alias =? normalized)
                  (aliases f)
  then [{| Mapper.field := key f; Mapper.mconfidence := 95 # 100;
           Mapper.mmatchType := MAlias |}]
  else
    (if Qltb (6 # 10) (Mapper.maxSim normalized f)
     then [{| Mapper.field := key f;
              Mapper.mconfidence := Qmin (Mapper.maxSim normalized f) (9 # 10);
              Mapper.mmatchType := MSimilarity |}]
     else [])
    ++ match samplePattern f with
       | Some pattern =>
           if Qltb (3 # 10)
                (Mapper.checkSamplePattern sampleRows csvHeader pattern)
           then [{| Mapper.field := key f;
                    Mapper.mconfidence :=
                      Mapper.checkSamplePattern sampleRows csvHeader pattern;
                    Mapper.mmatchType := MPattern |}]
           else []
       | None => []
       end.

(** Keeping the better of the match so far and one candidate. *)
Definition pick (bestMatch : option Mapper.Match) (c : Mapper.Match)
  : option Mapper.Match :=
  if Mapper.improves bestMatch (Mapper.mconfidence c) then Some c
  else bestMatch.

(** A header normalizes to the key or to the label of the field. *)
Definition exact_for (csvHeader : string) (f : SchemaField) : bool :=
  (Mapper.normalizeHeader csvHeader =? Mapper.normalizeHeader (key f))
  || (Mapper.normalizeHeader csvHeader =? Mapper.normalizeHeader (label f)).

(** The shape of every first-pass match: exact with confidence 1, or not
    exact with confidence at most 0.95. *)
Definition valid (m : Mapper.Match) : Prop :=
  (Mapper.mconfidence m = 1 /\ Mapper.mmatchType m = MExact)
  \/ (Mapper.mconfidence m <= 95 # 100 /\ Mapper.mmatchType m <> MExact).

Definition claimant (e : string * Mapper.Match) : Mapper.Claimant :=
  {| Mapper.cheader := fst e;
     Mapper.cconfidence := Mapper.mconfidence (snd e);
     Mapper.cmatchType := Mapper.mmatchType (snd e) |}.

(** The entries of [headerScores] that chose the field [f]. *)
Definition claims_field (f : string) (e : string * Mapper.Match) : bool :=
  Mapper.field (snd e) =? f.

Definition group_of (headerScores : JsMap.t Mapper.Match) (f : string)
  : list Mapper.Claimant :=
  map claimant (filter (claims_field f) headerScores).

(** The group as the second loop orders it. *)
Definition ordered (matches : list Mapper.Claimant) : list Mapper.Claimant :=
  if (1 <? List.length matches)%nat then Mapper.sortMatches matches
  else matches.

(** [h] is the header that keeps the field [f]. *)
Definition winner_is (headerScores : JsMap.t Mapper.Match) (f h : string)
  : bool :=
  match ordered (group_of headerScores f) with
  | w :: _ => Mapper.cheader w =? h
  | [] => false
  end.

(** The state of [headerScores] once the groups of the fields [P] have
    been resolved: a header whose field is in [P] keeps its first-pass
    match when it is the winner of the field and has no entry otherwise;
    the other headers are as the first pass left them. *)
Definition resolved_upto (headerScores0 : JsMap.t Mapper.Match)
    (P : list string) (headerScores : JsMap.t Mapper.Match) : Prop :=
  forall h,
    JsMap.get h headerScores
    = match JsMap.get h headerScores0 with
      | None => None
      | Some m =>
          if existsb (String.eqb (Mapper.field m)) P
          then if winner_is headerScores0 (Mapper.field m) h
               then Some m else None
          else Some m
      end.

(** [c] is a candidate of greatest confidence in [l]. *)
Definition best_in (l : list Mapper.Match) (c : Mapper.Match) : Prop :=
  In c l /\ forall x, In x l -> Mapper.mconfidence x <= Mapper.mconfidence c.

(** For the header [h], no candidate of a required field ties with a
    candidate of an optional field at the best confidence. *)
Definition no_cross_tie (sampleRows : list Row) (h : string)
    (fs : list SchemaField) : Prop :=
  forall f1 f2 c1 c2,
    In f1 fs -> In f2 fs -> required f1 = true -> required f2 = false ->
    In c1 (cands sampleRows h f1) -> In c2 (cands sampleRows h f2) ->
    best_in (flat_map (cands sampleRows h) fs) c1 ->
    best_in (flat_map (cands sampleRows h) fs) c2 ->
    False.

(** The candidates that reach the confidence of [c]. *)
Definition reaches (c x : Mapper.Match) : bool :=
  Qle_bool (Mapper.mconfidence c) (Mapper.mconfidence x).

(** The errors that a validation reports for the field of key [k]. *)
Definition errors_for (k : string) (errors : list Validators.ValidationError)
  : list Validators.ValidationError :=
  filter (fun e => Validators.field e =? k) errors.

(** The error that [validateMappedRow] pushes for a currency value. *)
Definition currency_error (rowIndex : nat) (f : SchemaField) (v : string)
  : Validators.ValidationError :=
  {| Validators.row := rowIndex; Validators.field := key f;
     Validators.message :=
       ("Invalid currency amount: " ++ Validators.dq ++ v
        ++ Validators.dq)%string;
     Validators.value := Some v |}.

End Spec.

(** ** Notions used to state the stitching properties *)

Module StitchSpec.

Import JsString Stitching.

(** The characters that [LIKE] (through PostgREST) does not read
    literally. *)
Definition is_wildcard (c : ascii) : bool :=
  (c =? "%")%char || (c =? "*")%char || (c =? "_")%char || (c =? "\")%char.

Definition wildcard_free (s : string) : Prop :=
  Validators.all_chars (fun c => negb (is_wildcard c)) s = true.

(** The column holds the name [nm], up to case. *)
Definition same_name (column : option string) (nm : string) : bool :=
  match column with
  | Some x => toLowerCase nm =? toLowerCase x
  | None => false
  end.

(** The customers of the organisation whose name is [nm], up to case. *)
Definition same_name_customers (s : Store) (nm : string) : list Customer :=
  filter (fun c => same_name (name c) nm) (filter in_org (customers s)).

(** What the no-match and the name-conflict steps write for a new row. *)
Definition new_customer (s : Store) (e n : option string) : Customer :=
  {| id := fresh_id (customers s); org_id := DEFAULT_ORG_ID; name := n;
     email := e |}.

Definition new_link (s : Store) (src : Db.SourceType) (externalId : string)
    (e n : option string) : CustomerSource :=
  {| customer_id := fresh_id (customers s); source := src;
     external_id := externalId; external_email := e; external_name := n |}.

Definition name_conflict (s : Store) (existing : Customer)
    (n : option string) : StitchingConflict :=
  {| conflict_org_id := DEFAULT_ORG_ID;
     customer_a_id := id existing;
     customer_b_id := fresh_id (customers s);
     match_field := "name";
     match_value := n;
     confidence := 6 # 10;
     status := Db.Pending;
     import_id := None |}.

End StitchSpec.

(** ** Concrete inputs of the examples *)

Module Examples.

Definition no_date (_ : string) : option string := None.
Definition no_local_date (_ _ _ : Z) : option string := None.
Definition no_date_match (_ : string) : option (string * string * string) :=
  None.

Definition amount_field : SchemaField :=
  {| key := "amount"; label := "Amount"; type := TCurrency; required := true;
     aliases := []; samplePattern := None; description := "";
     enumValues := None |}.

Definition text_field (k l : string) (r : bool) : SchemaField :=
  {| key := k; label := l; type := TText; required := r; aliases := [];
     samplePattern := None; description := ""; enumValues := None |}.

Definition schema_of (fs : list SchemaField) : SourceSchema :=
  {| source := Db.Stripe; schemaLabel := "Stripe"; fields := fs;
     idField := "id"; emailField := "email"; nameField := "name" |}.

(** One required field [email]. *)
Definition email_schema : SourceSchema :=
  schema_of [text_field "email" "Email" true].

(** An optional field declared before a required one, both labelled
    [Email]. *)
Definition tie_schema : SourceSchema :=
  schema_of [text_field "contact" "Email" false;
             text_field "email" "Email" true].

(** The payment fields of the example scenario. *)
Definition payment_schema : SourceSchema :=
  schema_of
    [ {| key := "email"; label := "Customer Email"; type := TEmail;
         required := true; aliases := ["email address"];
         samplePattern := None; description := ""; enumValues := None |};
      {| key := "name"; label := "Customer Name"; type := TText;
         required := false; aliases := ["full_name"];
         samplePattern := None; description := ""; enumValues := None |};
      amount_field ].

(** An optional field declared before a required one, without ties. *)
Definition two_field_schema : SourceSchema :=
  schema_of [text_field "name" "Name" false;
             text_field "email" "Email" true].

Definition amount_schema : SourceSchema := schema_of [amount_field].

Definition jane : Stitching.Customer :=
  {| Stitching.id := 1%nat; Stitching.org_id := Stitching.DEFAULT_ORG_ID;
     Stitching.name := Some "Jane Doe";
     Stitching.email := Some "jane@a.com" |}.

Definition store_jane : Stitching.Store :=
  {| Stitching.customers := [jane]; Stitching.customer_sources := [];
     Stitching.stitching_conflicts := [] |}.

(** [store_jane] after a row of another Jane Doe has been stitched. *)
Definition store_jane_stitched : Stitching.Store :=
  {| Stitching.customers :=
       [jane;
        StitchSpec.new_customer store_jane (Some "jane@b.com")
          (Some "Jane Doe")];
     Stitching.customer_sources :=
       [StitchSpec.new_link store_jane Db.Stripe "cus_1" (Some "jane@b.com")
          (Some "Jane Doe")];
     Stitching.stitching_conflicts :=
       [StitchSpec.name_conflict store_jane jane (Some "Jane Doe")] |}.

Definition jane_link : Stitching.CustomerSource :=
  {| Stitching.customer_id := 1%nat; Stitching.source := Db.Stripe;
     Stitching.external_id := "cus_1";
     Stitching.external_email := Some "jane@a.com";
     Stitching.external_name := Some "Jane Doe" |}.

Definition store_linked : Stitching.Store :=
  {| Stitching.customers := [jane];
     Stitching.customer_sources := [jane_link];
     Stitching.stitching_conflicts := [] |}.

Definition under_score : Stitching.Customer :=
  {| Stitching.id := 1%nat; Stitching.org_id := Stitching.DEFAULT_ORG_ID;
     Stitching.name := Some "a_c"; Stitching.email := Some "x@x.io" |}.

Definition abc : Stitching.Customer :=
  {| Stitching.id := 2%nat; Stitching.org_id := Stitching.DEFAULT_ORG_ID;
     Stitching.name := Some "abc"; Stitching.email := Some "y@y.io" |}.

Definition store_wild : Stitching.Store :=
  {| Stitching.customers := [under_score; abc];
     Stitching.customer_sources := [];
     Stitching.stitching_conflicts := [] |}.


End Examples.

(** ** Notions used to state the properties of normalized text *)

Module TextSpec.

Import JsString.

(** White space occurs only as single [" "] characters; [after_space]
    tells that the previous character was one. *)
Fixpoint single_spaced (after_space : bool) (s : string) : bool :=
  match s with
  | EmptyString => true
  | String c s' =>
      if is_space c
      then (c =? " ")%char && negb after_space && single_spaced true s'
      else single_spaced false s'
  end.

(** The string does not begin with white space. *)
Definition starts_plain (s : string) : bool :=
  match s with
  | EmptyString => true
  | String c _ => negb (is_space c)
  end.

(** The string does not end with white space. *)
Fixpoint ends_plain (s : string) : bool :=
  match s with
  | EmptyString => true
  | String c EmptyString => negb (is_space c)
  | String _ s' => ends_plain s'
  end.

(** The characters of a normalized header: [a-z], [0-9] and the space. *)
Definition normal_char (c : ascii) : bool :=
  is_lower c || is_digit c || (c =? " ")%char.

End TextSpec.

(** ** Notions used to state the shape of the suggestions *)

Module SuggestionSpec.

(** The range of the confidence that each kind of match can carry. *)
Definition confidence_band (mt : MatchType) (q : Q) : Prop :=
  match mt with
  | MExact => q = 1
  | MAlias => q = 95 # 100
  | MSimilarity => 6 # 10 < q /\ q <= 9 # 10
  | MPattern => 3 # 10 < q /\ q <= 85 # 100
  | MNone => False
  end.

(** A suggestion is unmapped, or names a field of the schema with a
    confidence in the band of its match type. *)
Definition well_shaped (schema : SourceSchema) (s : MappingSuggestion)
  : Prop :=
  match schemaField s with
  | None => confidence s = 0 /\ matchType s = MNone
  | Some k =>
      (exists f, In f (fields schema) /\ k = key f)
      /\ confidence_band (matchType s) (confidence s)
  end.

(** A header normalizes to one of the aliases of the field. *)
Definition alias_for (csvHeader : string) (f : SchemaField) : bool :=
  existsb
    (fun alias =>
       Mapper.normalizeHeader alias =? Mapper.normalizeHeader csvHeader)
    (aliases f).

(** The entry that [suggestionsToMapping] records for a suggestion. *)
Definition mapping_entry (s : MappingSuggestion) : option string :=
  match schemaField s with
  | Some k => if JsString.truthy k then Some k else None
  | None => None
  end.

End SuggestionSpec.

(** ** Notions used to state the sample-pattern score *)

Module SampleSpec.

Import JsString.

(** The non-empty trimmed cells that the sample rows hold under a header. *)
Definition sample_values (sampleRows : list Row) (csvHeader : string)
  : list string :=
  flat_map
    (fun row =>
       match JsMap.get csvHeader row with
       | Some s => if truthy (trim s) then [trim s] else []
       | None => []
       end)
    sampleRows.

End SampleSpec.

(** ** Notions used to state the properties of mapped rows *)

Module RowSpec.

Import JsString.

(** The cell of a raw row under a header as [applyMapping] stores it:
    trimmed, and [null] when it is missing or blank. *)
Definition cell (rawRow : Row) (csvHeader : string) : option string :=
  match JsMap.get csvHeader rawRow with
  | Some s => if truthy (trim s) then Some (trim s) else None
  | None => None
  end.

(** The error pushed for a required field that is empty. *)
Definition required_error (rowIndex : nat) (f : SchemaField)
  : Validators.ValidationError :=
  {| Validators.row := rowIndex; Validators.field := key f;
     Validators.message :=
       ("Required field " ++ Validators.dq ++ label f ++ Validators.dq
        ++ " is empty")%string;
     Validators.value := Some "" |}.

End RowSpec.

(** ** Notions used to state what the validators accept *)

Module AcceptSpec.

Import JsString.

(** The text begins with a digit, with a dot and a digit, or with
    [Infinity]: the beginnings of a [StrUnsignedDecimalLiteral]. *)
Definition numeric_start (t : string) : bool :=
  String.prefix "Infinity" t
  || match t with
     | String c r =>
         is_digit c
         || ((c =? ".")%char
             && match r with
                | String d _ => is_digit d
                | EmptyString => false
                end)
     | EmptyString => false
     end.

(** The text after the leading white space and one optional sign. *)
Definition unsigned_part (s : string) : string :=
  match trimStart s with
  | String "+" r => r
  | String "-" r => r
  | t => t
  end.

End AcceptSpec.

(** ** [detectPostImportConflicts] of [src/lib/stitching/matcher.ts]

    The scan reads, besides the tables of the stitcher, the rows of
    [payments], [bookings] and [attendance]; a row keeps the two columns
    that are read.  A conflict is flagged only for an import id found in
    one of these rows, so the foreign key of
    [stitching_conflicts.import_id] holds whenever theirs does. *)

Module PostImport.

Import JsString Stitching.

Record Linked : Type := {
  linked_customer_id : option Id;
  linked_import_id : option Id
}.

Record Database : Type := {
  store : Store;
  payments : list Linked;
  bookings : list Linked;
  attendance : list Linked
}.

(** [set.add(i)] on a [Set], in insertion order. *)
Definition set_add (ids : list Id) (i : Id) : list Id :=
  if existsb (Nat.eqb i) ids then ids else ids ++ [i].

(** [.eq("import_id", importId).not("customer_id", "is", null)] *)
Definition import_rows (importId : Id) (table : list Linked) : list Linked :=
  filter
    (fun r =>
       match linked_import_id r, linked_customer_id r with
       | Some i, Some _ => (i =? importId)%nat
       | _, _ => false
       end)
    table.

(** [for (const row of data) if (row.customer_id) ids.add(row.customer_id)] *)
Definition add_rows (ids : list Id) (rows : list Linked) : list Id :=
  fold_left
    (fun ids r =>
       match linked_customer_id r with
       | Some i => set_add ids i
       | None => ids
       end)
    rows ids.

Definition importCustomerIds (db : Database) (importId : Id) : list Id :=
  fold_left (fun ids table => add_rows ids (import_rows importId table))
    [payments db; bookings db; attendance db] [].

(** [from("customers").select("id, name, email").in("id", ids)] *)
Definition importCustomers (s : Store) (ids : list Id) : list Customer :=
  filter (fun c => existsb (Nat.eqb (id c)) ids) (customers s).

(** [from("customers").eq("org_id", ..).ilike("name", ..).neq("id", ..)] *)
Definition nameMatches (s : Store) (customer : Customer) (nm : string)
  : option (list Customer) :=
  option_map (filter (fun c => negb (id c =? id customer)%nat))
    (filter_opt (fun c => ilike (name c) nm) (filter in_org (customers s))).

(** The filter [or(and(a.eq.x, b.eq.y), and(a.eq.y, b.eq.x))]. *)
Definition same_pair (x y : Id) (f : StitchingConflict) : bool :=
  ((customer_a_id f =? x)%nat && (customer_b_id f =? y)%nat)
  || ((customer_a_id f =? y)%nat && (customer_b_id f =? x)%nat).

Definition existingConflict (s : Store) (x y : Id)
  : option StitchingConflict :=
  maybeSingle (filter (same_pair x y) (stitching_conflicts s)).

(** Body of the inner loop: one name match of one customer. *)
Definition check_match (importId : Id) (customer : Customer) (nm : string)
    (st : Store * nat) (m : Customer) : Store * nat :=
  if emails_differ (email m) (email customer) then
    match existingConflict (fst st) (id customer) (id m) with
    | Some _ => st
    | None =>
        (flagConflict (fst st) (id customer) (id m) "name" (Some nm)
           (5 # 10) (Some importId),
         S (snd st))
    end
  else st.

(** Body of the outer loop: one customer of the import. *)
Definition check_customer (importId : Id) (st : Store * nat)
    (customer : Customer) : Store * nat :=
  match name customer with
  | Some nm =>
      if truthy nm then
        match nameMatches (fst st) customer nm with
        | Some matches =>
            fold_left (check_match importId customer nm) matches st
        | None => st
        end
      else st
  | None => st
  end.

(** The store that the scan leaves and the number it returns. *)
Definition detectPostImportConflicts (db : Database) (importId : Id)
  : Store * nat :=
  match customer_sources (store db) with
  | [] => (store db, 0%nat)
  | _ :: _ =>
      match importCustomerIds db importId with
      | [] => (store db, 0%nat)
      | ids =>
          fold_left (check_customer importId)
            (importCustomers (store db) ids) (store db, 0%nat)
      end
  end.

(** The database once the scan has run. *)
Definition with_store (db : Database) (s : Store) : Database :=
  {| store := s; payments := payments db; bookings := bookings db;
     attendance := attendance db |}.

(** No pair of customers has more than one conflict row. *)
Definition one_conflict_per_pair (s : Store) : Prop :=
  forall x y,
    (List.length (filter (same_pair x y) (stitching_conflicts s)) <= 1)%nat.

(** What the scan records for a customer [c] of the import and a customer
    [m] of the same name. *)
Definition import_conflict (importId : Id) (c m : Customer)
  : StitchingConflict :=
  {| conflict_org_id := DEFAULT_ORG_ID;
     customer_a_id := id c;
     customer_b_id := id m;
     match_field := "name";
     match_value := name c;
     confidence := 5 # 10;
     status := Db.Pending;
     import_id := Some importId |}.

(** [f] is a conflict that a scan of the import may record. *)
Definition flagged_by (db : Database) (importId : Id)
    (f : StitchingConflict) : Prop :=
  exists c m nm,
    f = import_conflict importId c m
    /\ In c (customers (store db)) /\ In m (customers (store db))
    /\ id m <> id c
    /\ In {| linked_customer_id := Some (id c);
             linked_import_id := Some importId |}
          (payments db ++ bookings db ++ attendance db)
    /\ name c = Some nm /\ nm <> ""
    /\ in_org m = true
    /\ ilike (name m) nm = Some true
    /\ emails_differ (email m) (email c) = true.

End PostImport.

(** ** Notions used to prove the properties of the post-import scan *)

Module PostImportSpec.

Import JsString Stitching PostImport.

(** The pairs that the two loops visit, in order: a customer of the
    import, its name, and a customer that the name query returns.  The
    queries read the customers of [s], which the scan does not change. *)
Definition pairs_of (s : Store) (cs : list Customer)
  : list (Customer * string * Customer) :=
  flat_map
    (fun c =>
       match name c with
       | Some nm =>
           if truthy nm then
             match nameMatches s c nm with
             | Some matches => map (fun m => (c, nm, m)) matches
             | None => []
             end
           else []
       | None => []
       end)
    cs.

Definition check_pair (importId : Id) (st : Store * nat)
    (p : Customer * string * Customer) : Store * nat :=
  check_match importId (fst (fst p)) (snd (fst p)) st (snd p).

(** The two customers of a visited pair have emails that differ. *)
Definition differ (p : Customer * string * Customer) : bool :=
  emails_differ (email (snd p)) (email (fst (fst p))).

(** A state of the scan that started from [s0]: the customers and the
    links are those of [s0], and the conflicts are those of [s0] followed
    by as many new ones as the counter tells, each satisfying [P]. *)
Definition extends (P : StitchingConflict -> Prop) (s0 : Store)
    (st : Store * nat) : Prop :=
  customers (fst st) = customers s0
  /\ customer_sources (fst st) = customer_sources s0
  /\ exists added,
       stitching_conflicts (fst st) = stitching_conflicts s0 ++ added
       /\ snd st = List.length added
       /\ Forall P added.

(** The foreign keys of [stitching_conflicts] on the two customers. *)
Definition conflicts_reference_customers (s : Store) : Prop :=
  forall f,
    In f (stitching_conflicts s) ->
    has_customer s (customer_a_id f) = true
    /\ has_customer s (customer_b_id f) = true.

(** The pair has a conflict row in the store. *)
Definition recorded (s : Store) (p : Customer * string * Customer) : Prop :=
  filter (same_pair (id (fst (fst p))) (id (snd p))) (stitching_conflicts s)
  <> [].

End PostImportSpec.

(** ** [findMatchingSavedMapping] of [src/lib/actions/mappings.ts]

    The table [saved_mappings] is a list of rows; a row keeps the columns
    that the function reads or returns, and a timestamp is a natural
    number.  Rows that the [ORDER BY] leaves unordered stay in table
    order. *)

Module Mappings.

Import JsString.

Record SavedMapping : Type := {
  mapping_source : Db.SourceType;
  mapping_name : string;
  mapping : JsMap.t string;
  sample_headers : option (list string);
  is_default : bool;
  created_at : nat
}.

(** [.order("is_default", { ascending: false })
     .order("created_at", { ascending: false })]: [a] may stay before
    [b]. *)
Definition query_order (a b : SavedMapping) : bool :=
  if Bool.eqb (is_default a) (is_default b)
  then (created_at b <=? created_at a)%nat
  else is_default a.

(** [from("saved_mappings").select("*").eq("source", source).order(..)] *)
Definition mappings_of (table : list SavedMapping) (source : Db.SourceType)
  : list SavedMapping :=
  JsSort.sort query_order
    (filter (fun m => Db.source_eqb (mapping_source m) source) table).

(** [h.toLowerCase().trim()] *)
Definition normalized (h : string) : string := trim (toLowerCase h).

(** [normalizedSample.filter((h) => normalizedHeaders.has(h)).length];
    the [Set] is read only through [has]. *)
Definition overlap (normalizedHeaders normalizedSample : list string) : nat :=
  List.length
    (filter (fun h => existsb (String.eqb h) normalizedHeaders)
            normalizedSample).

(** [overlap / Math.max(normalizedSample.length, 1)] *)
Definition overlapRatio (normalizedHeaders normalizedSample : list string)
  : Q :=
  Mapper.Qnat (overlap normalizedHeaders normalizedSample)
  / Mapper.Qnat (Nat.max (List.length normalizedSample) 1).

(** The loop over the mappings. *)
Fixpoint first_match (normalizedHeaders : list string)
    (mappings : list SavedMapping) : option SavedMapping :=
  match mappings with
  | [] => None
  | m :: rest =>
      match sample_headers m with
      | None => first_match normalizedHeaders rest
      | Some sampleHeaders =>
          if Qle_bool (7 # 10)
               (overlapRatio normalizedHeaders
                  (map normalized sampleHeaders))
          then Some m
          else first_match normalizedHeaders rest
      end
  end.

Definition findMatchingSavedMapping (table : list SavedMapping)
    (source : Db.SourceType) (headers : list string)
  : option SavedMapping :=
  match mappings_of table source with
  | [] => None
  | mappings => first_match (map normalized headers) mappings
  end.

(** At least 70% of the sample headers of the mapping are headers of the
    file, up to case and surrounding white space. *)
Definition covers (headers : list string) (m : SavedMapping) : Prop :=
  exists sampleHeaders,
    sample_headers m = Some sampleHeaders
    /\ sampleHeaders <> []
    /\ (7 * List.length sampleHeaders
        <= 10 * overlap (map normalized headers)
                  (map normalized sampleHeaders))%nat.

End Mappings.

(** ** The mapping state of [upload/components/upload-mapper.tsx]

    The mapping is a JavaScript object from headers to field keys; its
    entries are read in insertion order. *)

Module UploadMapper.

Import JsString.

(** [new Set(Object.values(mapping))], read only through [has]. *)
Definition usedFields (mapping : JsMap.t string) : list string :=
  map snd mapping.

(** [requiredFields.filter((f) => !usedFields.has(f.key))] *)
Definition missingRequired (schema : SourceSchema) (mapping : JsMap.t string)
  : list SchemaField :=
  filter (fun f => negb (existsb (String.eqb (key f)) (usedFields mapping)))
    (filter required (fields schema)).

(** [handleFieldSelect]: the entries of the copy are listed once, then the
    other headers that hold the field are deleted from it. *)
Definition handleFieldSelect (mapping : JsMap.t string) (csvHeader : string)
    (schemaField : option string) : JsMap.t string :=
  match schemaField with
  | Some f =>
      if truthy f then
        JsMap.set csvHeader f
          (fold_left
             (fun newMapping e =>
                if (snd e =? f) && negb (fst e =? csvHeader)
                then JsMap.delete (fst e) newMapping
                else newMapping)
             mapping mapping)
      else JsMap.delete csvHeader mapping
  | None => JsMap.delete csvHeader mapping
  end.

(** No two headers of the mapping hold the same field. *)
Definition one_header_per_field (mapping : JsMap.t string) : Prop :=
  forall h1 h2 k,
    JsMap.get h1 mapping = Some k -> JsMap.get h2 mapping = Some k -> h1 = h2.

End UploadMapper.

(** ** [src/lib/csv/parser.ts]

    [Papa.parse] is the library's; [parseCSVContent] is embedded from the
    fields and the data that it returns. *)

Module Parser.

Record ParseResult : Type := {
  headers : list string;
  rows : list Row;
  sampleRows : list Row;
  totalRows : nat
}.

Definition SAMPLE_SIZE : nat := 5.

(** [parseCSVContent], given [result.meta.fields ?? []] and [result.data]. *)
Definition parseResult (fields : list string) (data : list Row)
  : ParseResult :=
  {| headers := fields;
     rows := data;
     sampleRows := firstn SAMPLE_SIZE data;
     totalRows := List.length data |}.

End Parser.

(** ** [previewCSV] of [lib/actions/import.ts]

    The session check and the lookup of the schema come first in the
    source and throw; the embedding starts from the parsed file and the
    schema of the source.  The table [saved_mappings] is a list of rows. *)

Module Preview.

Import JsString.

Record PreviewResult : Type := {
  mappedRows : list (JsMap.t (option string));
  validationErrors : list Validators.ValidationError;
  totalRows : nat;
  validRows : nat;
  errorRows : nat
}.

Record PreviewOutput : Type := {
  preview : PreviewResult;
  suggestions : list MappingSuggestion;
  headers : list string
}.

(** The state of the loop over the rows. *)
Record LoopState : Type := {
  i : nat;
  allErrors : list Validators.ValidationError;
  shownRows : list (JsMap.t (option string));
  validCount : nat;
  errorCount : nat
}.

(** [if (mapped.status) mapped.status = normalizeStatus(mapped.status,
    options.source)] *)
Definition normalizeStatusField (source : Db.SourceType)
    (mapped : JsMap.t (option string)) : JsMap.t (option string) :=
  match JsMap.get "status" mapped with
  | Some (Some v) =>
      if truthy v
      then JsMap.set "status"
             (Some (Normalizers.normalizeStatus v (Db.source_name source)))
             mapped
      else mapped
  | _ => mapped
  end.

(** The mapping that is used and the suggestions that are shown: the
    mapping of the caller, else a saved mapping that covers the file, else
    the generated one. *)
Definition chooseMapping (saved : list Mappings.SavedMapping)
    (source : Db.SourceType) (schema : SourceSchema)
    (parsed : Parser.ParseResult) (provided : option (JsMap.t string))
  : JsMap.t string * list MappingSuggestion :=
  match provided with
  | None =>
      match Mappings.findMatchingSavedMapping saved source
              (Parser.headers parsed) with
      | Some savedMapping => (Mappings.mapping savedMapping, [])
      | None =>
          let suggestions :=
            Mapper.generateMappingSuggestions (Parser.headers parsed) schema
              (Parser.sampleRows parsed) in
          (Mapper.suggestionsToMapping suggestions, suggestions)
      end
  | Some mapping =>
      (mapping,
       Mapper.generateMappingSuggestions (Parser.headers parsed) schema
         (Parser.sampleRows parsed))
  end.

Section Engine.

Variable Date_parse : string -> option string.
Variable Date_local : Z -> Z -> Z -> option string.
Variable match_date : string -> option (string * string * string).

Definition previewLimit : nat := 10.

(** Body of the loop. *)
Definition preview_step (source : Db.SourceType) (schema : SourceSchema)
    (mapping : JsMap.t string) (st : LoopState) (rawRow : Row) : LoopState :=
  let mapped :=
    normalizeStatusField source (Validators.applyMapping rawRow mapping) in
  let rowErrors :=
    Validators.validateMappedRow Date_parse Date_local match_date mapped
      schema (i st + 1) in
  let failed := (0 <? List.length rowErrors)%nat in
  {| i := S (i st);
     allErrors := if failed then allErrors st ++ rowErrors else allErrors st;
     shownRows :=
       if (i st <? previewLimit)%nat then shownRows st ++ [mapped]
       else shownRows st;
     validCount := if failed then validCount st else S (validCount st);
     errorCount := if failed then S (errorCount st) else errorCount st |}.

Definition previewCSV (saved : list Mappings.SavedMapping)
    (source : Db.SourceType) (schema : SourceSchema)
    (parsed : Parser.ParseResult) (provided : option (JsMap.t string))
  : PreviewOutput :=
  let (mapping, suggestions) :=
    chooseMapping saved source schema parsed provided in
  let st :=
    fold_left (preview_step source schema mapping) (Parser.rows parsed)
      {| i := 0; allErrors := []; shownRows := []; validCount := 0;
         errorCount := 0 |} in
  {| preview :=
       {| mappedRows := shownRows st;
          validationErrors := firstn 50 (allErrors st);
          totalRows := Parser.totalRows parsed;
          validRows := validCount st;
          errorRows := errorCount st |};
     suggestions := suggestions;
     headers := Parser.headers parsed |}.

(** What holds of the loop state after each row. *)
Definition accounted (st : LoopState) : Prop :=
  (validCount st + errorCount st = i st)%nat
  /\ List.length (shownRows st) = Nat.min previewLimit (i st)
  /\ (errorCount st = 0%nat <-> allErrors st = [])
  /\ forall e, In e (allErrors st) ->
               (1 <= Validators.row e <= i st)%nat.

End Engine.

End Preview.

(** ** Further inputs of the examples *)

Module MoreExamples.

Import Examples.

(** A second customer called Jane Doe, with another email. *)
Definition jane_twin : Stitching.Customer :=
  {| Stitching.id := 2%nat; Stitching.org_id := Stitching.DEFAULT_ORG_ID;
     Stitching.name := Some "jane doe";
     Stitching.email := Some "jane@b.com" |}.

Definition store_twins : Stitching.Store :=
  {| Stitching.customers := [jane; jane_twin];
     Stitching.customer_sources := [jane_link];
     Stitching.stitching_conflicts := [] |}.

(** The import 7 holds one payment, of the first Jane Doe. *)
Definition db_twins : PostImport.Database :=
  {| PostImport.store := store_twins;
     PostImport.payments :=
       [{| PostImport.linked_customer_id := Some 1%nat;
           PostImport.linked_import_id := Some 7%nat |}];
     PostImport.bookings := [];
     PostImport.attendance := [] |}.

Definition saved_stripe : Mappings.SavedMapping :=
  {| Mappings.mapping_source := Db.Stripe;
     Mappings.mapping_name := "Monthly export";
     Mappings.mapping := [("Email", "email"); ("Amount", "amount")];
     Mappings.sample_headers := Some ["Email"; "Amount"];
     Mappings.is_default := true;
     Mappings.created_at := 1%nat |}.

Definition email_field : SchemaField := text_field "email" "Email" true.

Definition payment_email_field : SchemaField :=
  {| key := "email"; label := "Customer Email"; type := TEmail;
     required := true; aliases := ["email address"];
     samplePattern := None; description := ""; enumValues := None |}.

End MoreExamples.

(** ** Status tables as plain objects

    [PAYMENT_STATUS_MAP] and [BOOKING_STATUS_MAP] are object literals, so
    [TABLE[k]] finds the table's own entries and, for other keys, the
    members that every plain object inherits from [Object.prototype].
    These members are functions (an object for [__proto__]), not strings,
    and none is [null] or [undefined], so [??] returns them.  Calling
    [value.toLowerCase()] on such a member raises a [TypeError]. *)

Module ObjectLookup.

Import JsString.

(** The property names of [Object.prototype]. *)
Definition Object_prototype : list string :=
  [ "constructor"; "__defineGetter__"; "__defineSetter__";
    "hasOwnProperty"; "__lookupGetter__"; "__lookupSetter__";
    "isPrototypeOf"; "propertyIsEnumerable"; "toString"; "valueOf";
    "__proto__"; "toLocaleString" ].

(** What a lookup in a table gives: a string of the table, or the
    inherited member of that name. *)
Inductive Value : Type :=
  | Str (s : string)
  | Member (name : string).

(** [TABLE[k]]; [None] is [undefined]. *)
Definition member (table : JsMap.t string) (k : string) : option Value :=
  match JsMap.get k table with
  | Some v => Some (Str v)
  | None =>
      if existsb (String.eqb k) Object_prototype then Some (Member k)
      else None
  end.

(** [TABLE[normalized] ?? normalized] *)
Definition lookup_or (table : JsMap.t string) (normalized : string) : Value :=
  match member table normalized with
  | Some v => v
  | None => Str normalized
  end.

Definition normalizeStatus (value : string) (source : string) : Value :=
  let normalized := trim (toLowerCase value) in
  if source =? "stripe" then
    lookup_or Normalizers.PAYMENT_STATUS_MAP normalized
  else if source =? "calendly" then
    lookup_or Normalizers.BOOKING_STATUS_MAP normalized
  else Str normalized.

(** [normalizeStatus(normalizeStatus(value, source), source)]; [None] is
    the [TypeError] of [value.toLowerCase()] on a value that is not a
    string. *)
Definition normalizeStatus_twice (value : string) (source : string)
  : option Value :=
  match normalizeStatus value source with
  | Str s => Some (normalizeStatus s source)
  | Member _ => None
  end.

End ObjectLookup.

(** * Lemmas *)

(** ** Strings and maps *)

Section JsStringFacts.
Import JsString.

Lemma truthy_true (s : string) : truthy s = true <-> s <> "".
Proof.
  unfold truthy. rewrite negb_true_iff, String.eqb_neq. reflexivity.
Qed.

Lemma truthy_opt_true (o : option string) :
  truthy_opt o = true <-> exists s, o = Some s /\ s <> "".
Proof.
  destruct o as [s|]; simpl.
  - rewrite truthy_true. split.
    + intros H. exists s. split; [reflexivity | assumption].
    + intros (s' & E & H). injection E as <-. assumption.
  - split; [discriminate | intros (s & E & _); discriminate].
Qed.

End JsStringFacts.

Section JsMapFacts.
Context {V : Type}.
Implicit Types (m : JsMap.t V) (k : string) (v : V).

Lemma get_set_eq k v m : JsMap.get k (JsMap.set k v m) = Some v.
Proof.
  induction m as [|[k' v'] m IH]; simpl.
  - now rewrite String.eqb_refl.
  - destruct (k' =? k) eqn:E; simpl; rewrite E; [reflexivity | exact IH].
Qed.

Lemma get_set_neq k k' v m :
  k <> k' -> JsMap.get k' (JsMap.set k v m) = JsMap.get k' m.
Proof.
  intros N. induction m as [|[k0 v0] m IH]; simpl.
  - apply String.eqb_neq in N. now rewrite N.
  - destruct (k0 =? k) eqn:E; simpl.
    + apply String.eqb_eq in E. subst k0.
      apply String.eqb_neq in N. now rewrite N.
    + now rewrite IH.
Qed.

Lemma get_delete_eq k m : JsMap.get k (JsMap.delete k m) = None.
Proof.
  induction m as [|[k' v'] m IH]; simpl; [reflexivity|].
  destruct (k' =? k) eqn:E; simpl; [exact IH | now rewrite E].
Qed.

Lemma get_delete_neq k k' m :
  k <> k' -> JsMap.get k' (JsMap.delete k m) = JsMap.get k' m.
Proof.
  intros N. induction m as [|[k0 v0] m IH]; simpl; [reflexivity|].
  destruct (k0 =? k) eqn:E; simpl.
  - apply String.eqb_eq in E. subst k0.
    apply String.eqb_neq in N. now rewrite N.
  - now rewrite IH.
Qed.

Lemma get_In k v m : JsMap.get k m = Some v -> In (k, v) m.
Proof.
  induction m as [|[k' v'] m IH]; simpl; [discriminate|].
  destruct (k' =? k) eqn:E.
  - apply String.eqb_eq in E. intros [= ->]. left. now subst.
  - intros H. right. now apply IH.
Qed.

Lemma get_None_notin k m : JsMap.get k m = None <-> ~ In k (JsMap.keys m).
Proof.
  induction m as [|[k' v'] m IH]; simpl.
  - tauto.
  - destruct (k' =? k) eqn:E.
    + apply String.eqb_eq in E. split; [discriminate | tauto].
    + apply String.eqb_neq in E. rewrite IH. tauto.
Qed.

Lemma In_get k v m :
  NoDup (JsMap.keys m) -> In (k, v) m -> JsMap.get k m = Some v.
Proof.
  induction m as [|[k' v'] m IH]; simpl; [tauto|].
  intros ND [H|H].
  - injection H as -> ->. now rewrite String.eqb_refl.
  - inversion ND as [|? ? Hn ND']; subst.
    destruct (k' =? k) eqn:E.
    + apply String.eqb_eq in E. subst k'.
      exfalso. apply Hn. change k with (fst (k, v)). now apply in_map.
    + now apply IH.
Qed.

Lemma keys_set k v m :
  JsMap.keys (JsMap.set k v m) =
  match JsMap.get k m with
  | Some _ => JsMap.keys m
  | None => JsMap.keys m ++ [k]
  end.
Proof.
  induction m as [|[k' v'] m IH]; simpl; [reflexivity|].
  destruct (k' =? k) eqn:E; simpl; [reflexivity|].
  rewrite IH. now destruct (JsMap.get k m).
Qed.

Lemma NoDup_set k v m :
  NoDup (JsMap.keys m) -> NoDup (JsMap.keys (JsMap.set k v m)).
Proof.
  intros ND. rewrite keys_set. destruct (JsMap.get k m) eqn:G; [assumption|].
  apply get_None_notin in G.
  apply NoDup_app; [assumption | repeat constructor; simpl; tauto |].
  intros x Hx [<-|[]]. contradiction.
Qed.

End JsMapFacts.

Section JsSortFacts.
Context {A : Type} (le : A -> A -> bool).

Lemma insert_perm x l : Permutation (x :: l) (JsSort.insert le x l).
Proof.
  induction l as [|y l IH]; simpl; [reflexivity|].
  destruct (le x y); [reflexivity|].
  rewrite perm_swap. now constructor.
Qed.

Lemma sort_perm l : Permutation l (JsSort.sort le l).
Proof.
  induction l as [|x l IH]; simpl; [constructor|].
  rewrite <- insert_perm. now constructor.
Qed.

End JsSortFacts.

(** ** Lists *)

Section ListFacts.
Context {A : Type}.

Lemma filter_nil_iff (p : A -> bool) l :
  filter p l = [] <-> forall x, In x l -> p x = false.
Proof.
  induction l as [|x l IH]; simpl; [tauto|].
  destruct (p x) eqn:E.
  - split; [discriminate|]. intros H. specialize (H x (or_introl eq_refl)).
    congruence.
  - rewrite IH. split.
    + intros H y [<-|Hy]; auto.
    + intros H y Hy. apply H. now right.
Qed.

Lemma filter_all (p : A -> bool) l :
  (forall x, In x l -> p x = true) -> filter p l = l.
Proof.
  induction l as [|x l IH]; intros H; simpl; [reflexivity|].
  rewrite (H x (or_introl eq_refl)), IH; [reflexivity|].
  intros y Hy. apply H. now right.
Qed.

End ListFacts.

Lemma Qltb_lt (x y : Q) : Qltb x y = true <-> x < y.
Proof.
  unfold Qltb. rewrite negb_true_iff. split.
  - intros H. apply Qnot_le_lt. intros L.
    apply Qle_bool_iff in L. congruence.
  - intros H. destruct (Qle_bool y x) eqn:E; [|reflexivity].
    apply Qle_bool_iff in E. exfalso. exact (Qlt_not_le _ _ H E).
Qed.

Lemma Qltb_ge (x y : Q) : Qltb x y = false <-> y <= x.
Proof.
  unfold Qltb. rewrite negb_false_iff. apply Qle_bool_iff.
Qed.


(** ** The Dice coefficient *)

Section DiceFacts.
Import Mapper Spec.
Local Open Scope nat_scope.

Lemma cnt_count_bigram m g g' :
  cnt (count_bigram m g) g'
  = if String.eqb g g' then S (cnt m g') else cnt m g'.
Proof.
  unfold count_bigram, cnt. destruct (String.eqb g g') eqn:E.
  - apply String.eqb_eq in E. subst g'. rewrite get_set_eq. lia.
  - apply String.eqb_neq in E. now rewrite get_set_neq.
Qed.

Lemma cnt_fold_count l : forall m g,
  cnt (fold_left count_bigram l m) g = cnt m g + count_occ string_dec l g.
Proof.
  induction l as [|x l IH]; intros m g; simpl; [lia|].
  rewrite IH, cnt_count_bigram.
  destruct (string_dec x g) as [->|N].
  - rewrite String.eqb_refl. lia.
  - apply String.eqb_neq in N. rewrite N. lia.
Qed.

Lemma cnt_bigramsMap a g :
  cnt (bigramsMap a) g = count_occ string_dec (bigrams a) g.
Proof.
  unfold bigramsMap. rewrite cnt_fold_count. reflexivity.
Qed.

Lemma sum_change_one (f f' : string -> nat) y L :
  NoDup L -> In y L ->
  (forall g, g <> y -> f g = f' g) -> f y = S (f' y) ->
  list_sum (map f L) = S (list_sum (map f' L)).
Proof.
  intros ND Hin Hne Hy. induction L as [|x L IH]; [contradiction|].
  inversion ND as [|? ? Hx ND']; subst. simpl.
  destruct Hin as [->|Hin].
  - rewrite Hy. simpl. do 2 f_equal. f_equal. apply map_ext_in.
    intros g Hg. apply Hne. intros ->. contradiction.
  - rewrite (IH ND' Hin), Hne; [lia|]. intros ->. contradiction.
Qed.

Lemma consume_spec ys : forall m n L,
  NoDup L -> incl ys L ->
  snd (fold_left consume_bigram ys (m, n)) = n + min_sum L (cnt m) ys.
Proof.
  induction ys as [|y ys IH]; intros m n L ND Hincl.
  - simpl. unfold min_sum.
    replace (list_sum _) with 0; [lia|].
    symmetry. induction L as [|x L IHL]; [reflexivity|]. simpl.
    rewrite Nat.min_0_r. apply IHL; [now inversion ND | intros ? []].
  - assert (Hy : In y L) by (apply Hincl; now left).
    assert (Hys : incl ys L) by (intros g Hg; apply Hincl; now right).
    cbn [fold_left consume_bigram].
    assert (same : cnt m y = 0 ->
              min_sum L (cnt m) (y :: ys) = min_sum L (cnt m) ys).
    { intros Z. unfold min_sum. f_equal. apply map_ext_in. intros g _.
      destruct (string_dec y g) as [->|N].
      - rewrite Z. reflexivity.
      - now rewrite count_occ_cons_neq. }
    destruct (JsMap.get y m) as [c|] eqn:G.
    + destruct (0 <? c) eqn:Pos.
      * apply Nat.ltb_lt in Pos. rewrite (IH _ _ L ND Hys).
        assert (E : min_sum L (cnt m) (y :: ys)
                    = S (min_sum L (cnt (JsMap.set y (c - 1) m)) ys)).
        { unfold min_sum. apply sum_change_one with (y := y); auto.
          - intros g N. unfold cnt. rewrite get_set_neq by congruence.
            rewrite count_occ_cons_neq by congruence. reflexivity.
          - unfold cnt. rewrite get_set_eq, G.
            rewrite count_occ_cons_eq by reflexivity. lia. }
        rewrite E. lia.
      * apply Nat.ltb_ge in Pos. rewrite (IH _ _ L ND Hys), same; [lia|].
        unfold cnt. rewrite G. lia.
    + rewrite (IH _ _ L ND Hys), same; [lia|]. unfold cnt. now rewrite G.
Qed.

Lemma intersection_min_sum a b L :
  NoDup L -> incl (bigrams b) L ->
  intersection a b
  = min_sum L (fun g => count_occ string_dec (bigrams a) g) (bigrams b).
Proof.
  intros ND Hincl. unfold intersection.
  rewrite (consume_spec _ _ _ L ND Hincl). simpl.
  unfold min_sum. f_equal. apply map_ext. intros g.
  now rewrite cnt_bigramsMap.
Qed.

Lemma intersection_sym a b : intersection a b = intersection b a.
Proof.
  set (L := nodup string_dec (bigrams a ++ bigrams b)).
  assert (ND : NoDup L) by apply NoDup_nodup.
  rewrite (intersection_min_sum a b L), (intersection_min_sum b a L); auto.
  - unfold min_sum. f_equal. apply map_ext. intros g. apply Nat.min_comm.
  - intros g Hg. apply nodup_In, in_or_app. now left.
  - intros g Hg. apply nodup_In, in_or_app. now right.
Qed.

Lemma consume_le ys : forall m n,
  snd (fold_left consume_bigram ys (m, n)) <= n + List.length ys.
Proof.
  induction ys as [|y ys IH]; intros m n; simpl; [lia|].
  destruct (JsMap.get y m) as [c|]; [destruct (0 <? c)|];
    (etransitivity; [apply IH | lia]).
Qed.

Lemma intersection_le_r a b : intersection a b <= String.length b - 1.
Proof.
  unfold intersection. etransitivity; [apply consume_le|].
  unfold bigrams. rewrite length_map, length_seq. lia.
Qed.

Lemma intersection_le_l a b : intersection a b <= String.length a - 1.
Proof. rewrite intersection_sym. apply intersection_le_r. Qed.

End DiceFacts.

Section DiceBounds.
Import Mapper.

Lemma Qnat_le (n k : nat) : (n <= k)%nat -> Qnat n <= Qnat k.
Proof.
  intros H. unfold Qnat. rewrite <- Zle_Qle. lia.
Qed.

Lemma Qnat_pos (n : nat) : (0 < n)%nat -> 0 < Qnat n.
Proof.
  intros H. unfold Qnat. change 0 with (inject_Z 0). rewrite <- Zlt_Qlt. lia.
Qed.

Lemma Qnat_ratio_bounds (n d : nat) :
  (0 < d)%nat -> (n <= d)%nat -> 0 <= Qnat n / Qnat d <= 1.
Proof.
  intros Hd Hn. pose proof (Qnat_pos d Hd) as Pd. split.
  - apply Qle_shift_div_l; [assumption|]. rewrite Qmult_0_l.
    change 0 with (Qnat 0). apply Qnat_le. lia.
  - apply Qle_shift_div_r; [assumption|]. rewrite Qmult_1_l.
    now apply Qnat_le.
Qed.

Lemma diceCoefficient_range a b : 0 <= diceCoefficient a b <= 1.
Proof.
  unfold diceCoefficient.
  destruct (a =? b); [split; discriminate|].
  destruct ((String.length a <? 2)%nat || (String.length b <? 2)%nat) eqn:E;
    [split; [apply Qle_refl | discriminate]|].
  apply orb_false_iff in E. destruct E as [Ea Eb].
  apply Nat.ltb_ge in Ea, Eb.
  pose proof (intersection_le_l a b). pose proof (intersection_le_r a b).
  apply Qnat_ratio_bounds; lia.
Qed.

(** C6.  [diceCoefficient(a, a)] is 1 for every string [a] (the empty one
    included, so in particular for every non-empty one); the coefficient
    of any two strings lies between 0 and 1; and it is symmetric:
    [diceCoefficient(a, b) = diceCoefficient(b, a)]. *)
Theorem diceCoefficient_identity_bounds_symmetry :
  (forall a, diceCoefficient a a = 1)
  /\ (forall a b, 0 <= diceCoefficient a b /\ diceCoefficient a b <= 1)
  /\ (forall a b, diceCoefficient a b = diceCoefficient b a).
Proof.
  split; [|split].
  - intros a. unfold diceCoefficient. now rewrite String.eqb_refl.
  - intros a b. apply diceCoefficient_range.
  - intros a b. unfold diceCoefficient.
    rewrite (String.eqb_sym b a).
    rewrite (orb_comm (String.length b <? 2)%nat).
    rewrite (intersection_sym b a).
    rewrite (Nat.add_comm (String.length b - 1)).
    reflexivity.
Qed.

End DiceBounds.

(** ** The confident-detection gate *)

Section DetectFacts.
Import Detect.

(** The gate as the code tests it.  [isConfidentDetection] is true exactly
    when the list is non-empty, the top confidence is at least 0.5, the
    top [requiredMapped] is not below its [requiredTotal] (the code tests
    [requiredMapped < requiredTotal]), and there is no runner-up or the
    top confidence exceeds the runner-up's by at least 0.15. *)
Theorem isConfidentDetection_gate :
  (forall results,
     isConfidentDetection results = true <->
     match results with
     | [] => False
     | top :: rest =>
         5 # 10 <= confidence top
         /\ (requiredTotal top <= requiredMapped top)%nat
         /\ match rest with
            | [] => True
            | runnerUp :: _ =>
                15 # 100 <= confidence top - confidence runnerUp
            end
     end)
  /\ (forall top rest,
        (requiredMapped top < requiredTotal top)%nat ->
        isConfidentDetection (top :: rest) = false)
  /\ isConfidentDetection [] = false.
Proof.
  split; [|split].
  - intros [|top rest]; simpl; [split; [discriminate | tauto]|].
    destruct (Qltb (confidence top) (5 # 10)) eqn:E1.
    { apply Qltb_lt in E1. split; [discriminate|].
      intros (H & _). exfalso. exact (Qlt_not_le _ _ E1 H). }
    apply Qltb_ge in E1.
    destruct (requiredMapped top <? requiredTotal top)%nat eqn:E2.
    { apply Nat.ltb_lt in E2. split; [discriminate|].
      intros (_ & H & _). lia. }
    apply Nat.ltb_ge in E2.
    destruct rest as [|runnerUp rest']; [tauto|].
    destruct (Qltb (confidence top - confidence runnerUp) (15 # 100)) eqn:E3.
    + apply Qltb_lt in E3. split; [discriminate|].
      intros (_ & _ & H). exfalso. exact (Qlt_not_le _ _ E3 H).
    + apply Qltb_ge in E3. tauto.
  - intros top rest H. simpl.
    destruct (Qltb (confidence top) (5 # 10)); [reflexivity|].
    apply Nat.ltb_lt in H. now rewrite H.
  - reflexivity.
Qed.

(** What [detectSource] computes never has more required fields mapped
    than there are: on its results the test [requiredMapped <
    requiredTotal] fails exactly when the two are equal. *)
Lemma detect_one_required_le headers sampleRows entry :
  (requiredMapped (detect_one headers sampleRows entry)
   <= requiredTotal (detect_one headers sampleRows entry))%nat.
Proof.
  destruct entry as [k schema]. simpl. apply filter_length_le.
Qed.

Lemma detectSource_required_le SCHEMAS headers sampleRows r :
  In r (detectSource SCHEMAS headers sampleRows) ->
  (requiredMapped r <= requiredTotal r)%nat.
Proof.
  unfold detectSource. intros H.
  apply (Permutation_in _
           (Permutation_sym (sort_perm _ _))) in H.
  apply in_map_iff in H. destruct H as (entry & <- & _).
  apply detect_one_required_le.
Qed.

(** C5.  Take a list of detection results in which no record counts more
    mapped required fields than required fields, as in every list that
    [detectSource] returns ([requiredMapped] counts the required fields
    that received a header).  Then [isConfidentDetection] is true if and
    only if the list is non-empty, (a) the top confidence is at least
    0.5, (b) the top [requiredMapped] equals its [requiredTotal], and
    (c) there is no runner-up or the top confidence exceeds the
    runner-up's by at least 0.15.  It is false whenever the top result
    has an unmapped required field, whatever its confidence, and false on
    the empty list. *)
Theorem isConfidentDetection_iff_all_required_mapped
    (results : list DetectionResult) :
  (forall r, In r results ->
             (requiredMapped r <= requiredTotal r)%nat) ->
  (isConfidentDetection results = true <->
   match results with
   | [] => False
   | top :: rest =>
       5 # 10 <= confidence top
       /\ requiredMapped top = requiredTotal top
       /\ match rest with
          | [] => True
          | runnerUp :: _ =>
              15 # 100 <= confidence top - confidence runnerUp
          end
   end)
  /\ (forall top rest,
        results = top :: rest ->
        (requiredMapped top < requiredTotal top)%nat ->
        isConfidentDetection results = false)
  /\ (results = [] -> isConfidentDetection results = false)
  /\ (forall SCHEMAS headers sampleRows r,
        In r (detectSource SCHEMAS headers sampleRows) ->
        (requiredMapped r <= requiredTotal r)%nat).
Proof.
  intros Hle. destruct isConfidentDetection_gate as (G & U & N).
  split; [|split; [|split]].
  - rewrite G. destruct results as [|top rest]; [tauto|].
    assert (L := Hle top (or_introl eq_refl)).
    split; intros (A & B & C); (split; [exact A|split; [lia|exact C]]).
  - intros top rest -> H. now apply U.
  - intros ->. exact N.
  - intros SCHEMAS headers sampleRows r. apply detectSource_required_le.
Qed.

End DetectFacts.

(** ** Status normalization *)

Section NormalizerFacts.
Import JsString Normalizers.

Lemma normalizeStatus_spec value source :
  normalizeStatus value source
  = match status_table source with
    | Some table =>
        match JsMap.get (trim (toLowerCase value)) table with
        | Some canonical => canonical
        | None => trim (toLowerCase value)
        end
    | None => trim (toLowerCase value)
    end.
Proof.
  unfold normalizeStatus, status_table, lookup_or.
  destruct (source =? "stripe"); [reflexivity|].
  destruct (source =? "calendly"); reflexivity.
Qed.

(** C8.  The lookups of the claim hold: ["paid"] maps to ["succeeded"] and
    ["no show"] to ["no_show"]; but a value absent from the table comes back
    lowercased and trimmed, not unchanged: ["Archived"] for source
    ["stripe"] is absent from the table and yields ["archived"]. *)
Theorem normalizeStatus_unknown_value_is_rewritten :
  normalizeStatus "paid" "stripe" = "succeeded"
  /\ normalizeStatus "no show" "calendly" = "no_show"
  /\ JsMap.get (trim (toLowerCase "Archived")) PAYMENT_STATUS_MAP = None
  /\ normalizeStatus "Archived" "stripe" = "archived"
  /\ normalizeStatus "Archived" "stripe" <> "Archived".
Proof.
  repeat split; try reflexivity. discriminate.
Qed.

End NormalizerFacts.

(** ** Currency validation *)

Section ValidatorFacts.
Import JsString Validators Spec.

Variable Date_parse : string -> option string.
Variable Date_local : Z -> Z -> Z -> option string.
Variable match_date : string -> option (string * string * string).

Lemma parseCurrency_None v :
  parseCurrency v = None <-> parseFloat (strip_currency v) = NaN.
Proof.
  unfold parseCurrency.
  destruct (parseFloat (strip_currency v)); simpl;
    split; (discriminate || reflexivity).
Qed.

Lemma validateField_key r rowIndex f e :
  In e (validateField Date_parse Date_local match_date r rowIndex f) ->
  field e = key f.
Proof.
  unfold validateField.
  destruct (required f && negb (truthy (field_value r f)));
    [intros [<-|[]]; reflexivity|].
  destruct (negb (truthy (field_value r f))); [intros []|].
  destruct (type f).
  - intros [].
  - destruct (negb _); [intros [<-|[]]; reflexivity | intros []].
  - destruct (is_none _); [intros [<-|[]]; reflexivity | intros []].
  - destruct (is_none _); [intros [<-|[]]; reflexivity | intros []].
  - destruct (is_none _); [intros [<-|[]]; reflexivity | intros []].
  - destruct (is_none _); [intros [<-|[]]; reflexivity | intros []].
  - destruct (enumValues f) as [allowed|]; [|intros []].
    destruct (negb _); [intros [<-|[]]; reflexivity | intros []].
Qed.

Lemma errors_for_other r rowIndex f k :
  key f <> k ->
  errors_for k (validateField Date_parse Date_local match_date r rowIndex f)
  = [].
Proof.
  intros N. unfold errors_for. apply filter_nil_iff. intros e He.
  apply validateField_key in He. rewrite He. now apply String.eqb_neq.
Qed.

Lemma errors_for_own r rowIndex f :
  errors_for (key f)
    (validateField Date_parse Date_local match_date r rowIndex f)
  = validateField Date_parse Date_local match_date r rowIndex f.
Proof.
  unfold errors_for. apply filter_all. intros e He.
  apply validateField_key in He. rewrite He. apply String.eqb_refl.
Qed.

(** With unique keys, the errors of a row for one field are those of the
    loop body for that field. *)
Lemma errors_for_field r rowIndex fs f :
  NoDup (map key fs) -> In f fs ->
  errors_for (key f)
    (flat_map (validateField Date_parse Date_local match_date r rowIndex) fs)
  = validateField Date_parse Date_local match_date r rowIndex f.
Proof.
  induction fs as [|x fs IH]; intros ND Hin; [contradiction|].
  inversion ND as [|? ? Hx ND']; subst. simpl.
  unfold errors_for in *. rewrite filter_app.
  destruct Hin as [->|Hin].
  - fold (errors_for (key f)
            (validateField Date_parse Date_local match_date r rowIndex f)).
    rewrite errors_for_own.
    replace (filter _ (flat_map _ fs)) with (@nil ValidationError);
      [apply app_nil_r|].
    symmetry. apply filter_nil_iff. intros e He.
    apply in_flat_map in He. destruct He as (y & Hy & He).
    apply validateField_key in He. rewrite He. apply String.eqb_neq.
    intros E. apply Hx. rewrite <- E. now apply in_map.
  - rewrite (IH ND' Hin).
    fold (errors_for (key f)
            (validateField Date_parse Date_local match_date r rowIndex x)).
    rewrite errors_for_other; [reflexivity|].
    intros E. apply Hx. rewrite E. now apply in_map.
Qed.

(** Errors of a currency field.  Take a schema with unique keys, one of
    its currency fields, and a row whose trimmed value [v] for the field
    is not empty.  Validation strips [$], commas and white space; it
    reports exactly one error for the field when [parseFloat] of the
    remainder is [NaN], and none otherwise.  [parseCurrency("$1,234.56")]
    is 1234.56, and the value ["abc"] yields exactly one error for its
    field. *)
Theorem currency_validation_errors (r : JsMap.t (option string))
    (schema : SourceSchema) (rowIndex : nat) (f : SchemaField) :
  NoDup (map key (fields schema)) ->
  In f (fields schema) ->
  type f = TCurrency ->
  field_value r f <> "" ->
  (parseFloat (strip_currency (field_value r f)) = NaN ->
   errors_for (key f)
     (validateMappedRow Date_parse Date_local match_date r schema rowIndex)
   = [currency_error rowIndex f (field_value r f)])
  /\ (parseFloat (strip_currency (field_value r f)) <> NaN ->
      errors_for (key f)
        (validateMappedRow Date_parse Date_local match_date r schema rowIndex)
      = [])
  /\ (exists q, parseCurrency "$1,234.56" = Some (Finite q)
                /\ q == 123456 # 100)
  /\ (field_value r f = "abc" ->
      errors_for (key f)
        (validateMappedRow Date_parse Date_local match_date r schema rowIndex)
      = [currency_error rowIndex f "abc"]).
Proof.
  intros ND Hin Ht Hv. unfold validateMappedRow.
  rewrite (errors_for_field r rowIndex (fields schema) f ND Hin).
  assert (T : truthy (field_value r f) = true) by now apply truthy_true.
  assert (shape : validateField Date_parse Date_local match_date r rowIndex f
                  = if is_none (parseCurrency (field_value r f))
                    then [currency_error rowIndex f (field_value r f)]
                    else []).
  { unfold validateField. rewrite T, Ht. simpl.
    rewrite andb_false_r. reflexivity. }
  split; [|split; [|split]].
  - intros N. rewrite shape. apply parseCurrency_None in N. now rewrite N.
  - intros N. rewrite shape.
    destruct (parseCurrency (field_value r f)) eqn:E; [reflexivity|].
    apply parseCurrency_None in E. contradiction.
  - eexists. split; [reflexivity|]. reflexivity.
  - intros E. rewrite shape, E. reflexivity.
Qed.

End ValidatorFacts.

Section ValidatorExamples.
Import JsString Validators Spec Examples.

Lemma currency_validation_errors_witness :
  errors_for "amount"
    (validateMappedRow no_date no_local_date no_date_match
       [("amount", Some "abc")] amount_schema 1)
  = [currency_error 1 amount_field "abc"].
Proof.
  apply (currency_validation_errors no_date no_local_date no_date_match
           [("amount", Some "abc")] amount_schema 1%nat amount_field).
  - repeat constructor. intros [].
  - now left.
  - reflexivity.
  - discriminate.
  - reflexivity.
Defined.

(** C7.  [parseCurrency("$1,234.56")] is 1234.56 and a row whose amount
    is ["abc"] gets exactly one validation error, as intended; but
    [parseCurrency] rejects a remainder only when [parseFloat] gives
    [NaN], so the amount ["Infinity"] parses to the infinite number, which
    is not finite, and the row passes validation without any error.  This
    holds whatever the host's date functions are. *)
Theorem currency_infinity_passes_validation
    (Date_parse : string -> option string)
    (Date_local : Z -> Z -> Z -> option string)
    (match_date : string -> option (string * string * string)) :
  (exists q, parseCurrency "$1,234.56" = Some (Finite q)
             /\ q == 123456 # 100)
  /\ validateMappedRow Date_parse Date_local match_date
       [("amount", Some "abc")] amount_schema 1
     = [currency_error 1 amount_field "abc"]
  /\ parseCurrency "Infinity" = Some (Infinity false)
  /\ isFinite (Infinity false) = false
  /\ validateMappedRow Date_parse Date_local match_date
       [("amount", Some "Infinity")] amount_schema 1
     = [].
Proof.
  split; [eexists; split; reflexivity|].
  repeat split; reflexivity.
Qed.

End ValidatorExamples.

(** ** Identity stitching *)

Section StitchingFacts.
Import JsString Stitching.
Local Open Scope nat_scope.

Lemma source_eqb_eq a b : Db.source_eqb a b = true <-> a = b.
Proof. destruct a, b; simpl; split; congruence. Qed.

Lemma same_key_true src ext r :
  same_key src ext r = true <-> source_key r = (src, ext).
Proof.
  unfold same_key, source_key.
  rewrite andb_true_iff, source_eqb_eq, String.eqb_eq.
  split; [intros [-> ->]; reflexivity | intros [= -> ->]; auto].
Qed.

Lemma filter_same_key_unique src ext rows :
  NoDup (map source_key rows) ->
  forall r, In r rows -> source_key r = (src, ext) ->
  filter (same_key src ext) rows = [r].
Proof.
  induction rows as [|x rows IH]; intros ND r Hin Hk; [contradiction|].
  inversion ND as [|? ? Hx ND']; subst. simpl.
  destruct (same_key src ext x) eqn:E.
  - apply same_key_true in E.
    assert (N : filter (same_key src ext) rows = []).
    { apply filter_nil_iff. intros y Hy.
      destruct (same_key src ext y) eqn:Ey; [|reflexivity].
      apply same_key_true in Ey. exfalso. apply Hx.
      rewrite E, <- Ey. now apply in_map. }
    rewrite N. destruct Hin as [->|Hin]; [reflexivity|].
    exfalso. apply Hx. rewrite E, <- Hk. now apply in_map.
  - destruct Hin as [->|Hin].
    + apply same_key_true in Hk. congruence.
    + now apply IH.
Qed.

Lemma filter_same_key_none src ext rows :
  NoDup (map source_key rows) ->
  maybeSingle (filter (same_key src ext) rows) = None ->
  filter (same_key src ext) rows = [].
Proof.
  intros ND H.
  destruct (filter (same_key src ext) rows) as [|r l] eqn:F; [reflexivity|].
  assert (Hr : In r (filter (same_key src ext) rows))
    by (rewrite F; now left).
  apply filter_In in Hr. destruct Hr as [Hin Hk].
  apply same_key_true in Hk.
  rewrite (filter_same_key_unique src ext rows ND r Hin Hk) in F.
  injection F as <-. discriminate H.
Qed.

Lemma upsert_new r rows :
  filter (same_key (source r) (external_id r)) rows = [] ->
  upsert r rows = rows ++ [r].
Proof.
  induction rows as [|x rows IH]; simpl; [reflexivity|].
  destruct (same_key (source r) (external_id r) x); [discriminate|].
  intros H. now rewrite IH.
Qed.

Lemma links_after_upsert r rows :
  filter (same_key (source r) (external_id r)) rows = [] ->
  filter (same_key (source r) (external_id r)) (upsert r rows) = [r].
Proof.
  intros H. rewrite (upsert_new r rows H), filter_app, H. simpl.
  assert (E : same_key (source r) (external_id r) r = true)
    by (apply same_key_true; reflexivity).
  now rewrite E.
Qed.

Lemma has_customer_In s c : In c (customers s) -> has_customer s (id c) = true.
Proof.
  intros H. unfold has_customer. apply existsb_exists.
  exists c. split; [assumption | apply Nat.eqb_refl].
Qed.

Lemma maybeSingle_Some {A} (l : list A) x : maybeSingle l = Some x -> l = [x].
Proof.
  destruct l as [|y [|z l]]; simpl; try discriminate. now intros [= ->].
Qed.

(** C10.  When the store, which satisfies the unique index on
    [(source, external_id)], holds a row [r] of [customer_sources] for the
    given source and a non-empty external id, [stitchIdentity] returns
    [r]'s [customer_id] with [isNew = false] and [matchedBy =
    "external_id"], and the store it leaves is the store it was given: no
    customer, no source link (not even a refresh of the row's email and
    name) and no conflict is written. *)
Theorem stitchIdentity_external_id_hit_writes_nothing
    (s : Store) (src : Db.SourceType) (externalId : string)
    (e n : option string) (r : CustomerSource) :
  unique_source_keys s ->
  externalId <> "" ->
  In r (customer_sources s) ->
  source r = src -> external_id r = externalId ->
  stitchIdentity s src externalId e n
  = Ok ({| customerId := customer_id r; isNew := false;
           matchedBy := ByExternalId |}, s).
Proof.
  intros U Hne Hin Hs He.
  unfold stitchIdentity, byExternalId, findSourceByExternalId.
  apply truthy_true in Hne. rewrite Hne.
  rewrite (filter_same_key_unique src externalId _ U r Hin).
  - reflexivity.
  - unfold source_key. now rewrite Hs, He.
Qed.

Lemma byExternalId_after_link s src externalId e n cid :
  links_of s src externalId = [] ->
  has_customer s cid = true ->
  links_of (linkSourceToCustomer s cid src externalId e n) src externalId
  = [{| customer_id := cid; source := src; external_id := externalId;
        external_email := e; external_name := n |}].
Proof.
  intros L H. unfold linkSourceToCustomer, links_of. rewrite H. simpl.
  set (r := {| customer_id := cid; source := src; external_id := externalId;
               external_email := e; external_name := n |}).
  exact (links_after_upsert r (customer_sources s) L).
Qed.

Lemma byExternalId_hit s src externalId r :
  externalId <> "" ->
  links_of s src externalId = [r] ->
  byExternalId s src externalId
  = Some {| customerId := customer_id r; isNew := false;
            matchedBy := ByExternalId |}.
Proof.
  intros Hne L. unfold byExternalId, findSourceByExternalId.
  apply truthy_true in Hne. rewrite Hne.
  unfold links_of in L. now rewrite L.
Qed.

End StitchingFacts.

Section StitchingIdempotence.
Import JsString Stitching.
Local Open Scope nat_scope.

Lemma createCustomer_Ok s e n i s' :
  createCustomer s e n = Ok (i, s') ->
  i = fresh_id (customers s)
  /\ customers s'
     = customers s
       ++ [{| id := i; org_id := DEFAULT_ORG_ID; name := n; email := e |}]
  /\ customer_sources s' = customer_sources s
  /\ stitching_conflicts s' = stitching_conflicts s
  /\ email_taken (customers s) DEFAULT_ORG_ID e = false.
Proof.
  unfold createCustomer.
  destruct (email_taken (customers s) DEFAULT_ORG_ID e); [discriminate|].
  intros [= <- <-]. simpl. auto.
Qed.

Lemma createCustomer_Throw s e n m :
  createCustomer s e n = Throw m ->
  email_taken (customers s) DEFAULT_ORG_ID e = true.
Proof.
  unfold createCustomer.
  destruct (email_taken (customers s) DEFAULT_ORG_ID e);
    [reflexivity | discriminate].
Qed.

Lemma createCustomer_has s e n i s' :
  createCustomer s e n = Ok (i, s') -> has_customer s' i = true.
Proof.
  intros H. apply createCustomer_Ok in H. destruct H as (_ & C & _).
  unfold has_customer. rewrite C, existsb_app. simpl.
  rewrite Nat.eqb_refl. apply orb_true_iff. right. reflexivity.
Qed.

Lemma links_of_flagConflict s a b f v c i src ext :
  links_of (flagConflict s a b f v c i) src ext = links_of s src ext.
Proof.
  unfold flagConflict, links_of.
  destruct (has_customer s a && has_customer s b); reflexivity.
Qed.

Lemma NoDup_all_equal {A} (l : list A) :
  NoDup l -> (forall x y, In x l -> In y l -> x = y) ->
  l = [] \/ exists x, l = [x].
Proof.
  intros ND H. destruct l as [|x [|y l]]; [now left | right; now exists x |].
  exfalso. inversion ND as [|? ? Hx _]; subst. apply Hx.
  rewrite (H x y); simpl; auto.
Qed.

Lemma findCustomerByEmail_None s x :
  wf_store s -> findCustomerByEmail s x = None ->
  email_taken (customers s) DEFAULT_ORG_ID (Some x) = false.
Proof.
  intros W H. unfold findCustomerByEmail in H. simpl.
  set (p := fun c => in_org c && col_eq (email c) x) in *.
  assert (ND : NoDup (filter p (customers s))).
  { apply NoDup_filter. apply (NoDup_map_inv id). apply (wf_ids s W). }
  assert (E : forall c, In c (filter p (customers s)) ->
                org_id c = DEFAULT_ORG_ID /\ email c = Some x).
  { intros c Hc. apply filter_In in Hc. destruct Hc as [_ Hc].
    unfold p, in_org, col_eq in Hc. apply andb_true_iff in Hc.
    destruct Hc as [Ho He]. apply String.eqb_eq in Ho.
    destruct (email c) as [y|]; [|discriminate].
    apply String.eqb_eq in He. now subst. }
  destruct (NoDup_all_equal _ ND) as [N|[c N]].
  - intros c1 c2 H1 H2. destruct (E c1 H1) as [O1 E1].
    destruct (E c2 H2) as [O2 E2]. apply filter_In in H1, H2.
    apply (wf_emails s W c1 c2 x); try tauto. congruence.
  - destruct (existsb _ (customers s)) eqn:X; [|reflexivity].
    apply existsb_exists in X. destruct X as (c & Hc & Hp).
    assert (In c (filter p (customers s))) by (apply filter_In; auto).
    rewrite N in *. contradiction.
  - rewrite N in H. discriminate H.
Qed.

Lemma byEmail_None_not_taken s src externalId e n :
  wf_store s -> byEmail s src externalId e n = None -> e <> Some "" ->
  email_taken (customers s) DEFAULT_ORG_ID e = false.
Proof.
  intros W H Hne. destruct e as [x|]; [|reflexivity].
  unfold byEmail in H.
  destruct (truthy x) eqn:T.
  - destruct (findCustomerByEmail s x) eqn:F; [discriminate|].
    now apply findCustomerByEmail_None.
  - unfold truthy in T. apply negb_false_iff, String.eqb_eq in T. congruence.
Qed.

Lemma byEmail_links s src externalId e n r s1 :
  wf_store s -> links_of s src externalId = [] ->
  byEmail s src externalId e n = Some (r, s1) ->
  exists row, links_of s1 src externalId = [row]
              /\ customer_id row = customerId r.
Proof.
  intros W L H. unfold byEmail in H.
  destruct e as [x|]; [|discriminate].
  destruct (truthy x); [|discriminate].
  destruct (findCustomerByEmail s x) as [c|] eqn:F.
  - injection H as <- <-. eexists. split.
    + apply byExternalId_after_link; [assumption|].
      apply has_customer_In. unfold findCustomerByEmail in F.
      apply maybeSingle_Some in F.
      assert (Hc : In c (filter (fun c => in_org c && col_eq (email c) x)
                                (customers s))) by (rewrite F; now left).
      apply filter_In in Hc. tauto.
    + reflexivity.
  - destruct (findSourceByExternalEmail s x) as [r0|] eqn:G; [|discriminate].
    injection H as <- <-. eexists. split.
    + apply byExternalId_after_link; [assumption|].
      apply (wf_fk s W). unfold findSourceByExternalEmail in G.
      apply find_some in G. tauto.
    + reflexivity.
Qed.

Lemma created_links s src externalId e n i s' :
  links_of s src externalId = [] ->
  createCustomer s e n = Ok (i, s') ->
  links_of (linkSourceToCustomer s' i src externalId e n) src externalId
  = [{| customer_id := i; source := src; external_id := externalId;
        external_email := e; external_name := n |}].
Proof.
  intros L C. apply byExternalId_after_link.
  - apply createCustomer_Ok in C. destruct C as (_ & _ & S & _).
    unfold links_of in *. now rewrite S.
  - exact (createCustomer_has _ _ _ _ _ C).
Qed.

(** After a first call that returns, the store holds exactly one link for
    the external record, and it points at the customer returned. *)
Lemma stitchIdentity_leaves_one_link s src externalId e n r1 s1 :
  wf_store s -> externalId <> "" ->
  stitchIdentity s src externalId e n = Ok (r1, s1) ->
  exists row, links_of s1 src externalId = [row]
              /\ customer_id row = customerId r1.
Proof.
  intros W Hne H. unfold stitchIdentity in H.
  destruct (byExternalId s src externalId) as [r|] eqn:B1.
  { injection H as <- <-. unfold byExternalId in B1.
    destruct (truthy externalId); [|discriminate].
    destruct (findSourceByExternalId s src externalId) as [x|] eqn:F;
      [|discriminate].
    injection B1 as <-. exists x. split; [|reflexivity].
    unfold findSourceByExternalId in F. now apply maybeSingle_Some in F. }
  assert (L : links_of s src externalId = []).
  { unfold byExternalId in B1. apply truthy_true in Hne. rewrite Hne in B1.
    apply filter_same_key_none; [apply (wf_keys s W)|].
    unfold findSourceByExternalId in B1.
    destruct (maybeSingle _); [discriminate | reflexivity]. }
  destruct (byEmail s src externalId e n) as [[r s']|] eqn:B2.
  { injection H as <- <-. eapply byEmail_links; eauto. }
  destruct (byName s src externalId e n) as [o|] eqn:B3.
  - unfold byName in B3.
    destruct n as [nm|]; [|discriminate].
    destruct (truthy nm); [|discriminate].
    destruct (findCustomersByName s nm) as [[|c [|? ?]]|]; try discriminate.
    destruct (emails_differ (email c) e); [|discriminate].
    injection B3 as <-. unfold bind in H.
    destruct (createCustomer s e (Some nm)) as [[i s']|m] eqn:C;
      [|discriminate].
    injection H as <- <-. eexists. split.
    + rewrite links_of_flagConflict. eapply created_links; eauto.
    + reflexivity.
  - unfold bind in H.
    destruct (createCustomer s e n) as [[i s']|m] eqn:C; [|discriminate].
    injection H as <- <-. eexists. split.
    + eapply created_links; eauto.
    + reflexivity.
Qed.

Lemma createCustomer_free s e n :
  email_taken (customers s) DEFAULT_ORG_ID e = false ->
  exists s', createCustomer s e n = Ok (fresh_id (customers s), s').
Proof.
  intros NT. unfold createCustomer. rewrite NT. eexists. reflexivity.
Qed.

(** Under a well-formed store the only failure is the insert of a second
    customer whose email is the empty string. *)
Lemma stitchIdentity_returns s src externalId e n :
  wf_store s -> e <> Some "" ->
  exists r1 s1, stitchIdentity s src externalId e n = Ok (r1, s1).
Proof.
  intros W Hne. unfold stitchIdentity.
  destruct (byExternalId s src externalId); [eauto|].
  destruct (byEmail s src externalId e n) as [[r s']|] eqn:B2; [eauto|].
  pose proof (byEmail_None_not_taken _ _ _ _ _ W B2 Hne) as NT.
  destruct (byName s src externalId e n) as [o|] eqn:B3.
  - unfold byName in B3.
    destruct n as [nm|]; [|discriminate].
    destruct (truthy nm); [|discriminate].
    destruct (findCustomersByName s nm) as [[|c0 [|? ?]]|];
      try discriminate.
    destruct (emails_differ (email c0) e); [|discriminate].
    injection B3 as <-.
    destruct (createCustomer_free s e (Some nm) NT) as (s' & ->).
    simpl. eauto.
  - destruct (createCustomer_free s e n NT) as (s' & ->). simpl. eauto.
Qed.

Lemma stitchIdentity_Throw s src externalId e n m :
  wf_store s ->
  stitchIdentity s src externalId e n = Throw m -> e = Some "".
Proof.
  intros W H.
  assert (D : {e = Some ""} + {e <> Some ""})
    by (decide equality; apply string_dec).
  destruct D as [E|N]; [assumption|].
  destruct (stitchIdentity_returns s src externalId e n W N) as (r & s' & R).
  congruence.
Qed.

(** *** The constraints of the schema are kept by every call *)

Lemma upsert_In r rows y : In y (upsert r rows) -> y = r \/ In y rows.
Proof.
  induction rows as [|x rows IH]; simpl.
  - intros [<-|[]]. now left.
  - destruct (same_key (source r) (external_id r) x).
    + intros [<-|H]; [now left | right; now right].
    + intros [<-|H]; [right; now left|].
      destruct (IH H); [now left | right; now right].
Qed.

Lemma upsert_keys r rows :
  NoDup (map source_key rows) -> NoDup (map source_key (upsert r rows)).
Proof.
  induction rows as [|x rows IH]; intros ND; simpl.
  - repeat constructor. intros [].
  - inversion ND as [|? ? Hx ND']; subst.
    destruct (same_key (source r) (external_id r) x) eqn:E; simpl.
    + apply same_key_true in E. constructor; [|assumption].
      unfold source_key at 1. now rewrite <- E.
    + constructor; [|now apply IH].
      intros H. apply in_map_iff in H. destruct H as (y & Ey & Hy).
      apply upsert_In in Hy. destruct Hy as [->|Hy].
      * assert (T : same_key (source r) (external_id r) x = true)
          by (apply same_key_true; now rewrite <- Ey).
        congruence.
      * apply Hx. rewrite <- Ey. now apply in_map.
Qed.

Lemma wf_linkSourceToCustomer s cid src ext e n :
  wf_store s -> wf_store (linkSourceToCustomer s cid src ext e n).
Proof.
  intros W. unfold linkSourceToCustomer.
  destruct (has_customer s cid) eqn:H; [|assumption].
  split; simpl.
  - apply (wf_ids s W).
  - exact (wf_emails s W).
  - unfold unique_source_keys. simpl. apply upsert_keys, (wf_keys s W).
  - intros r Hr. simpl in Hr. apply upsert_In in Hr.
    destruct Hr as [->|Hr]; [exact H | exact (wf_fk s W r Hr)].
Qed.

Lemma wf_flagConflict s a b f v c i :
  wf_store s -> wf_store (flagConflict s a b f v c i).
Proof.
  intros W. unfold flagConflict.
  destruct (has_customer s a && has_customer s b); [|assumption].
  split; [apply (wf_ids s W) | exact (wf_emails s W)
         | exact (wf_keys s W) | exact (wf_fk s W)].
Qed.

Lemma fresh_id_new cs : ~ In (fresh_id cs) (map id cs).
Proof.
  intros H. apply in_map_iff in H. destruct H as (c & E & Hc).
  assert (id c < fresh_id cs) by (unfold fresh_id;
    pose proof (list_max_le (map id cs) (list_max (map id cs))) as [F _];
    specialize (F (Nat.le_refl _)); rewrite Forall_forall in F;
    specialize (F (id c) (in_map id cs c Hc)); lia).
  lia.
Qed.

Lemma wf_createCustomer s e n i s' :
  wf_store s -> createCustomer s e n = Ok (i, s') -> wf_store s'.
Proof.
  intros W H. apply createCustomer_Ok in H.
  destruct H as (-> & C & S & _ & T).
  split.
  - rewrite C, map_app. simpl. apply NoDup_app.
    + apply (wf_ids s W).
    + repeat constructor. intros [].
    + intros x Hx [<-|[]]. exact (fresh_id_new _ Hx).
  - intros c1 c2 x H1 H2 O E1 E2. rewrite C in H1, H2.
    assert (Old : forall c, In c (customers s) ->
              org_id c = DEFAULT_ORG_ID -> email c = Some x ->
              e <> Some x).
    { intros c Hc Oc Ec ->. simpl in T.
      apply not_true_iff_false in T. apply T.
      apply existsb_exists. exists c. split; [assumption|].
      rewrite Oc, String.eqb_refl, Ec. simpl. apply String.eqb_refl. }
    apply in_app_or in H1, H2.
    destruct H1 as [H1|[<-|[]]], H2 as [H2|[<-|[]]].
    + exact (wf_emails s W c1 c2 x H1 H2 O E1 E2).
    + exfalso. simpl in O, E2. exact (Old c1 H1 O E1 E2).
    + exfalso. simpl in O, E1. symmetry in O. exact (Old c2 H2 O E2 E1).
    + reflexivity.
  - unfold unique_source_keys. rewrite S. apply (wf_keys s W).
  - intros r Hr. rewrite S in Hr. pose proof (wf_fk s W r Hr) as F.
    unfold has_customer in *. rewrite C, existsb_app, F. reflexivity.
Qed.

(** A call that returns leaves a store that satisfies the constraints of
    the schema. *)
Lemma stitchIdentity_preserves_wf s src externalId e n r s1 :
  wf_store s -> stitchIdentity s src externalId e n = Ok (r, s1) ->
  wf_store s1.
Proof.
  intros W H. unfold stitchIdentity in H.
  destruct (byExternalId s src externalId); [now injection H as _ <-|].
  destruct (byEmail s src externalId e n) as [[r' s']|] eqn:B2.
  { injection H as _ <-. unfold byEmail in B2.
    destruct e as [x|]; [|discriminate].
    destruct (truthy x); [|discriminate].
    destruct (findCustomerByEmail s x).
    - injection B2 as _ <-. now apply wf_linkSourceToCustomer.
    - destruct (findSourceByExternalEmail s x); [|discriminate].
      injection B2 as _ <-. now apply wf_linkSourceToCustomer. }
  destruct (byName s src externalId e n) as [o|] eqn:B3.
  - unfold byName in B3.
    destruct n as [nm|]; [|discriminate].
    destruct (truthy nm); [|discriminate].
    destruct (findCustomersByName s nm) as [[|c [|? ?]]|]; try discriminate.
    destruct (emails_differ (email c) e); [|discriminate].
    injection B3 as <-. unfold bind in H.
    destruct (createCustomer s e (Some nm)) as [[i s']|m] eqn:C;
      [|discriminate].
    injection H as _ <-.
    apply wf_flagConflict, wf_linkSourceToCustomer.
    eapply wf_createCustomer; eauto.
  - unfold bind in H.
    destruct (createCustomer s e n) as [[i s']|m] eqn:C; [|discriminate].
    injection H as _ <-. apply wf_linkSourceToCustomer.
    eapply wf_createCustomer; eauto.
Qed.

(** Rows with an external id.  For a non-empty external id and a store that
    satisfies the constraints of the schema, a first call of
    [stitchIdentity] either throws (which happens only for the empty-string
    email) or returns; the second call, on the store the first one left,
    then returns the same customer id through the external-id match,
    writes nothing, and the store holds exactly one [customer_sources] row
    for the [(source, externalId)] pair. *)
Theorem stitchIdentity_idempotent_on_external_id
    (s : Store) (src : Db.SourceType) (externalId : string)
    (e n : option string) :
  wf_store s ->
  externalId <> "" ->
  match stitchIdentity s src externalId e n with
  | Ok (r1, s1) =>
      stitchIdentity s1 src externalId e n
      = Ok ({| customerId := customerId r1; isNew := false;
               matchedBy := ByExternalId |}, s1)
      /\ List.length (links_of s1 src externalId) = 1
  | Throw _ => e = Some ""
  end.
Proof.
  intros W Hne.
  destruct (stitchIdentity s src externalId e n) as [[r1 s1]|m] eqn:H.
  - destruct (stitchIdentity_leaves_one_link _ _ _ _ _ _ _ W Hne H)
      as (row & L & Hid).
    split; [|now rewrite L].
    unfold stitchIdentity.
    rewrite (byExternalId_hit s1 src externalId row Hne L).
    now rewrite Hid.
  - eapply stitchIdentity_Throw; eauto.
Qed.

End StitchingIdempotence.

(** *** Rows identified by their email *)

Section StitchingByEmailTwice.
Import JsString Stitching.
Local Open Scope nat_scope.















(** A row with neither an external id nor an email is not identified by
    anything: whatever the store and the name, each call creates a
    customer of its own. *)
Lemma stitchIdentity_unidentified_row s src n :
  exists s1,
    stitchIdentity s src "" None n
    = Ok ({| customerId := fresh_id (customers s); isNew := true;
             matchedBy := ByNone |}, s1)
    /\ customers s1
       = customers s
         ++ [{| id := fresh_id (customers s); org_id := DEFAULT_ORG_ID;
                name := n; email := None |}].
Proof.
  assert (B3 : byName s src "" None n = None).
  { unfold byName. destruct n as [nm|]; [|reflexivity].
    destruct (truthy nm); [|reflexivity].
    destruct (findCustomersByName s nm) as [[|c [|? ?]]|]; try reflexivity.
    unfold emails_differ. now destruct (email c). }
  unfold stitchIdentity. cbn [byExternalId truthy String.eqb negb byEmail].
  rewrite B3. unfold createCustomer. cbn [email_taken bind].
  eexists. split; [reflexivity|].
  unfold linkSourceToCustomer.
  match goal with |- context [if ?b then _ else _] => destruct b end;
    reflexivity.
Qed.

Lemma stitchIdentity_unidentified_row_twice s src n :
  exists r1 s1 r2 s2,
    stitchIdentity s src "" None n = Ok (r1, s1)
    /\ stitchIdentity s1 src "" None n = Ok (r2, s2)
    /\ customerId r1 <> customerId r2.
Proof.
  destruct (stitchIdentity_unidentified_row s src n) as (s1 & H1 & C1).
  destruct (stitchIdentity_unidentified_row s1 src n) as (s2 & H2 & _).
  do 4 eexists. split; [exact H1|]. split; [exact H2|].
  cbn [customerId]. rewrite C1. unfold fresh_id.
  rewrite map_app, list_max_app. cbn [map id list_max fold_right].
  lia.
Qed.


End StitchingByEmailTwice.

Section StitchingNameConflict.
Import JsString Stitching StitchSpec.
Local Open Scope nat_scope.

Lemma is_wildcard_lower c : is_wildcard (lower_char c) = is_wildcard c.
Proof.
  destruct c as [[] [] [] [] [] [] [] []]; vm_compute; reflexivity.
Qed.

Lemma wildcard_free_lower s : wildcard_free s -> wildcard_free (toLowerCase s).
Proof.
  unfold wildcard_free, toLowerCase.
  induction s as [|c s IH]; simpl; [auto|].
  rewrite is_wildcard_lower. intros H. apply andb_true_iff in H.
  destruct H as [-> H]. simpl. auto.
Qed.

Lemma like_literal p : forall s,
  wildcard_free p -> like p s = Some (String.eqb p s).
Proof.
  unfold wildcard_free.
  induction p as [|c p IH]; intros s H; simpl in *.
  - destruct s; reflexivity.
  - apply andb_true_iff in H. destruct H as [Hc Hp].
    unfold is_wildcard in Hc. apply negb_true_iff in Hc.
    repeat (apply orb_false_iff in Hc; destruct Hc as [Hc ?]).
    replace ((c =? "%")%char || (c =? "*")%char) with false
      by (symmetry; apply orb_false_iff; auto).
    replace (c =? "_")%char with false by auto.
    replace (c =? "\")%char with false by auto.
    destruct s as [|x s]; [reflexivity|].
    rewrite (Ascii.eqb_sym x c). destruct (c =? x)%char; [|reflexivity].
    now apply IH.
Qed.

Lemma filter_opt_total {A} (p : A -> option bool) (f : A -> bool) l :
  (forall x, p x = Some (f x)) -> filter_opt p l = Some (filter f l).
Proof.
  intros H. induction l as [|x l IH]; simpl; [reflexivity|].
  rewrite H, IH. reflexivity.
Qed.

(** For a name without wildcard characters the [ilike] query is the
    case-insensitive comparison of names. *)
Lemma findCustomersByName_literal s nm :
  wildcard_free nm ->
  findCustomersByName s nm = Some (firstn 5 (same_name_customers s nm)).
Proof.
  intros W. unfold findCustomersByName, same_name_customers.
  rewrite (filter_opt_total _ (fun c => same_name (name c) nm));
    [reflexivity|].
  intros c. unfold ilike, same_name. destruct (name c) as [x|]; [|reflexivity].
  apply like_literal. now apply wildcard_free_lower.
Qed.

Lemma fresh_id_above cs c : In c cs -> id c < fresh_id cs.
Proof.
  intros H. unfold fresh_id.
  assert (L : id c <= list_max (map id cs)).
  { pose proof (list_max_le (map id cs) (list_max (map id cs))) as [F _].
    specialize (F (Nat.le_refl _)). rewrite Forall_forall in F.
    apply F. now apply in_map. }
  lia.
Qed.

Lemma has_customer_app s c l :
  customers s = l -> In c l -> has_customer s (id c) = true.
Proof. intros <- H. now apply has_customer_In. Qed.

(** The name step on a name without wildcards.  Let the row carry a
    non-empty email [em] and a non-empty name [nm] free of [LIKE]
    wildcards.  If no source link has the
    row's [(source, externalId)], no customer of the organisation and no
    source link has the email [em], and exactly one customer [c0] of the
    organisation has the name [nm] up to case, with a recorded non-empty
    email different from [em], then [stitchIdentity] creates a new
    customer, whose id is not [c0]'s nor that of any existing customer,
    appends the [(source, externalId)] link to the new customer, and
    appends exactly one conflict row with [match_field = "name"],
    confidence 0.6 and status pending that references [c0] and the new
    customer. *)
Theorem stitchIdentity_name_conflict_creates_and_flags
    (s : Store) (src : Db.SourceType) (externalId em nm : string)
    (c0 : Customer) (e0 : string) :
  links_of s src externalId = [] ->
  (forall c, In c (customers s) -> in_org c = true -> email c <> Some em) ->
  (forall r, In r (customer_sources s) -> external_email r <> Some em) ->
  same_name_customers s nm = [c0] ->
  email c0 = Some e0 -> e0 <> em ->
  em <> "" -> e0 <> "" -> nm <> "" -> wildcard_free nm ->
  stitchIdentity s src externalId (Some em) (Some nm)
  = Ok ({| customerId := fresh_id (customers s); isNew := true;
           matchedBy := ByName |},
        {| customers :=
             customers s ++ [new_customer s (Some em) (Some nm)];
           customer_sources :=
             customer_sources s
             ++ [new_link s src externalId (Some em) (Some nm)];
           stitching_conflicts :=
             stitching_conflicts s ++ [name_conflict s c0 (Some nm)] |})
  /\ fresh_id (customers s) <> id c0
  /\ (forall c, In c (customers s) -> id c <> fresh_id (customers s)).
Proof.
  intros L NoC NoS One E0 Diff Em0 E00 Nm0 WF.
  assert (In0 : In c0 (customers s)).
  { assert (H : In c0 (same_name_customers s nm)) by (rewrite One; now left).
    unfold same_name_customers in H.
    apply filter_In in H. destruct H as [H _].
    apply filter_In in H. tauto. }
  assert (Fresh : forall c, In c (customers s) ->
                            id c <> fresh_id (customers s)).
  { intros c Hc. pose proof (fresh_id_above _ _ Hc). lia. }
  split; [|split; [intros E; apply (Fresh c0 In0); auto | exact Fresh]].
  unfold stitchIdentity.
  assert (B1 : byExternalId s src externalId = None).
  { unfold byExternalId, findSourceByExternalId. unfold links_of in L.
    rewrite L. simpl. now destruct (truthy externalId). }
  rewrite B1.
  assert (NT : filter (fun c => in_org c && col_eq (email c) em) (customers s)
               = []).
  { apply filter_nil_iff. intros c Hc.
    destruct (in_org c) eqn:O; [|reflexivity]. simpl.
    unfold col_eq. destruct (email c) as [x|] eqn:Ex; [|reflexivity].
    apply String.eqb_neq. intros ->. exact (NoC c Hc O Ex). }
  assert (B2 : byEmail s src externalId (Some em) (Some nm) = None).
  { unfold byEmail. apply truthy_true in Em0. rewrite Em0.
    unfold findCustomerByEmail. rewrite NT. simpl.
    unfold findSourceByExternalEmail.
    destruct (find _ (customer_sources s)) as [r|] eqn:F; [|reflexivity].
    apply find_some in F. destruct F as [Hr Hc]. exfalso.
    unfold col_eq in Hc. destruct (external_email r) as [x|] eqn:Ex;
      [|discriminate].
    apply String.eqb_eq in Hc. subst x. exact (NoS r Hr Ex). }
  rewrite B2.
  assert (Taken : email_taken (customers s) DEFAULT_ORG_ID (Some em) = false).
  { simpl. destruct (existsb _ (customers s)) eqn:X; [|reflexivity].
    apply existsb_exists in X. destruct X as (c & Hc & Hp).
    assert (H : In c (filter (fun c => in_org c && col_eq (email c) em)
                             (customers s))) by (apply filter_In; auto).
    rewrite NT in H. contradiction. }
  unfold byName. apply truthy_true in Nm0. rewrite Nm0.
  rewrite (findCustomersByName_literal s nm WF), One. simpl.
  assert (D : emails_differ (email c0) (Some em) = true).
  { unfold emails_differ. rewrite E0.
    apply truthy_true in E00, Em0. rewrite E00, Em0. simpl.
    apply negb_true_iff, String.eqb_neq. assumption. }
  rewrite D. unfold createCustomer. rewrite Taken. simpl.
  unfold linkSourceToCustomer. simpl.
  assert (HasNew : forall l : list CustomerSource, forall cf,
            has_customer
              {| customers :=
                   customers s ++ [new_customer s (Some em) (Some nm)];
                 customer_sources := l; stitching_conflicts := cf |}
              (fresh_id (customers s)) = true).
  { intros l cf. unfold has_customer. simpl. rewrite existsb_app. simpl.
    rewrite Nat.eqb_refl. apply orb_true_iff. right. reflexivity. }
  assert (HasOld : forall l : list CustomerSource, forall cf,
            has_customer
              {| customers :=
                   customers s ++ [new_customer s (Some em) (Some nm)];
                 customer_sources := l; stitching_conflicts := cf |}
              (id c0) = true).
  { intros l cf. apply has_customer_In. simpl.
    apply in_or_app. now left. }
  fold (new_customer s (Some em) (Some nm)).
  rewrite HasNew. unfold flagConflict. simpl.
  rewrite HasNew, HasOld. simpl.
  fold (new_link s src externalId (Some em) (Some nm)).
  rewrite upsert_new; [reflexivity | exact L].
Qed.

End StitchingNameConflict.

Section StitchingExamples.
Import JsString Stitching StitchSpec Examples.
Local Open Scope nat_scope.

Lemma wf_store_jane : wf_store store_jane.
Proof.
  split.
  - repeat constructor. intros [].
  - intros c1 c2 e [<-|[]] [<-|[]] _ _ _. reflexivity.
  - constructor.
  - intros r [].
Defined.

Lemma stitchIdentity_external_id_hit_witness :
  stitchIdentity store_linked Db.Stripe "cus_1" (Some "j@x.io") None
  = Ok ({| customerId := 1; isNew := false; matchedBy := ByExternalId |},
        store_linked).
Proof.
  apply (stitchIdentity_external_id_hit_writes_nothing
           store_linked Db.Stripe "cus_1" (Some "j@x.io") None jane_link).
  - repeat constructor. intros [].
  - discriminate.
  - now left.
  - reflexivity.
  - reflexivity.
Defined.


Lemma stitchIdentity_idempotent_on_external_id_instance :
  wf_store store_jane
  /\ "cus_1" <> ""
  /\ stitchIdentity store_jane Db.Stripe "cus_1" (Some "jane@b.com")
       (Some "Jane Doe")
     = Ok ({| customerId := 2; isNew := true; matchedBy := ByName |},
           store_jane_stitched)
  /\ stitchIdentity store_jane_stitched Db.Stripe "cus_1" (Some "jane@b.com")
       (Some "Jane Doe")
     = Ok ({| customerId := 2; isNew := false; matchedBy := ByExternalId |},
           store_jane_stitched)
  /\ List.length (links_of store_jane_stitched Db.Stripe "cus_1") = 1.
Proof.
  assert (N : "cus_1" <> "") by discriminate.
  split; [exact wf_store_jane|]. split; [exact N|].
  split; [reflexivity|].
  exact (stitchIdentity_idempotent_on_external_id
           store_jane Db.Stripe "cus_1" (Some "jane@b.com") (Some "Jane Doe")
           wf_store_jane N).
Defined.


Lemma stitchIdentity_name_conflict_witness :
  stitchIdentity store_jane Db.Stripe "cus_1" (Some "jane@b.com")
    (Some "jane doe")
  = Ok ({| customerId := 2; isNew := true; matchedBy := ByName |},
        {| customers :=
             [jane;
              new_customer store_jane (Some "jane@b.com") (Some "jane doe")];
           customer_sources :=
             [new_link store_jane Db.Stripe "cus_1" (Some "jane@b.com")
                (Some "jane doe")];
           stitching_conflicts :=
             [name_conflict store_jane jane (Some "jane doe")] |})
  /\ 2 <> 1
  /\ (forall c, In c [jane] -> id c <> 2).
Proof.
  apply (stitchIdentity_name_conflict_creates_and_flags
           store_jane Db.Stripe "cus_1" "jane@b.com" "jane doe" jane
           "jane@a.com").
  - reflexivity.
  - intros c [<-|[]] _. discriminate.
  - intros r [].
  - reflexivity.
  - reflexivity.
  - discriminate.
  - discriminate.
  - discriminate.
  - discriminate.
  - reflexivity.
Defined.

(** C2.  On a name without wildcards the name step does what is
    intended: with Jane Doe stored under jane@a.com, a row for
    ["jane doe"] with the email jane@b.com creates customer 2 and records
    the name conflict with Jane Doe.  But the name is handed to [ilike]
    as its pattern, unescaped.  In a store with the customers ["a_c"]
    (x@x.io) and ["abc"] (y@y.io), take a row with the name ["a_c"], the
    email z@z.io and the external id ["cus_9"]: no link has that id, no
    customer or link has that email, and exactly one customer has the
    same name, with another recorded email.  The query by name returns
    both customers, since [_] matches any character, so the single-match
    test fails: the row becomes the plain new customer 3, matched by
    none, and no conflict is written. *)
Theorem stitchIdentity_wildcard_name_flags_nothing :
  (exists s',
     stitchIdentity store_jane Db.Stripe "cus_1" (Some "jane@b.com")
       (Some "jane doe")
     = Ok ({| customerId := 2; isNew := true; matchedBy := ByName |}, s')
     /\ stitching_conflicts s'
        = [name_conflict store_jane jane (Some "jane doe")])
  /\ links_of store_wild Db.Stripe "cus_9" = []
  /\ (forall c, In c (customers store_wild) -> email c <> Some "z@z.io")
  /\ (forall r, In r (customer_sources store_wild) ->
                external_email r <> Some "z@z.io")
  /\ same_name_customers store_wild "a_c" = [under_score]
  /\ email under_score = Some "x@x.io"
  /\ findCustomersByName store_wild "a_c" = Some [under_score; abc]
  /\ exists s',
       stitchIdentity store_wild Db.Stripe "cus_9" (Some "z@z.io")
         (Some "a_c")
       = Ok ({| customerId := 3; isNew := true; matchedBy := ByNone |}, s')
       /\ stitching_conflicts s' = [].
Proof.
  split; [eexists; split; reflexivity|].
  split; [reflexivity|].
  split; [intros c [<-|[<-|[]]]; discriminate|].
  split; [intros r []|].
  split; [reflexivity|]. split; [reflexivity|]. split; [reflexivity|].
  eexists. split; reflexivity.
Qed.

End StitchingExamples.

(** ** The first pass of the mapper: the best match of one header *)

Section FirstPassFacts.
Import JsString Mapper Spec.

Lemma score_field_cands rows h b f :
  score_field rows h b f = fold_left pick (cands rows h f) b.
Proof.
  unfold score_field, cands, pick, offer.
  destruct ((normalizeHeader h =? normalizeHeader (key f))
            || (normalizeHeader h =? normalizeHeader (label f)));
    [reflexivity|].
  destruct (existsb _ (aliases f)); [reflexivity|].
  rewrite fold_left_app.
  destruct (Qltb (6 # 10) (maxSim (normalizeHeader h) f));
    destruct (samplePattern f) as [pattern|]; simpl; try reflexivity;
    destruct (Qltb (3 # 10) (checkSamplePattern rows h pattern));
    reflexivity.
Qed.

Lemma fold_score_cands rows h fs : forall b,
  fold_left (score_field rows h) fs b
  = fold_left pick (flat_map (cands rows h) fs) b.
Proof.
  induction fs as [|f fs IH]; intros b; simpl; [reflexivity|].
  now rewrite fold_left_app, IH, score_field_cands.
Qed.

Lemma bestMatchFor_cands fs rows h :
  bestMatchFor fs rows h = fold_left pick (flat_map (cands rows h) fs) None.
Proof. apply fold_score_cands. Qed.

(** The fold keeps an element of greatest confidence. *)
Lemma pick_fold_spec l : forall b,
  match fold_left pick l b with
  | Some c =>
      (b = Some c \/ In c l)
      /\ (forall c', In c' l -> mconfidence c' <= mconfidence c)
      /\ (forall m, b = Some m -> mconfidence m <= mconfidence c)
  | None => b = None /\ l = []
  end.
Proof.
  induction l as [|x l IH]; intros b; simpl.
  - destruct b as [m|]; [|auto].
    split; [now left|]. split; [intros ? []|].
    intros m' [= <-]. apply Qle_refl.
  - specialize (IH (pick b x)).
    destruct (fold_left pick l (pick b x)) as [c|].
    + destruct IH as (Hin & Hmax & Hb).
      assert (Hx : mconfidence x <= mconfidence c
                   /\ forall m, b = Some m -> mconfidence m <= mconfidence c).
      { unfold pick, improves in *. destruct b as [m|].
        - destruct (Qltb (mconfidence m) (mconfidence x)) eqn:E.
          + apply Qltb_lt in E. split; [now apply Hb|].
            intros m' [= <-]. apply Qlt_le_weak.
            eapply Qlt_le_trans; [exact E | now apply Hb].
          + apply Qltb_ge in E. split.
            * eapply Qle_trans; [exact E | now apply Hb].
            * intros m' [= <-]. now apply Hb.
        - split; [now apply Hb | discriminate]. }
      split; [|split].
      * destruct Hin as [Hin|Hin]; [|right; now right].
        unfold pick in Hin. destruct (improves b (mconfidence x)).
        -- injection Hin as ->. right. now left.
        -- now left.
      * intros c' [<-|Hc']; [apply (proj1 Hx) | now apply Hmax].
      * apply (proj2 Hx).
    + destruct IH as [Hp _]. unfold pick in Hp.
      destruct (improves b (mconfidence x)) eqn:E; [discriminate|].
      subst b. discriminate E.
Qed.

Lemma pick_fold_None_start l :
  match fold_left pick l None with
  | Some c => In c l /\ forall c', In c' l -> mconfidence c' <= mconfidence c
  | None => l = []
  end.
Proof.
  pose proof (pick_fold_spec l None) as H.
  destruct (fold_left pick l None) as [c|].
  - destruct H as ([H|H] & Hmax & _); [discriminate | auto].
  - tauto.
Qed.

(** Reordering the candidates leaves the best confidence as it is. *)
Lemma pick_fold_perm_confidence l l' :
  Permutation l l' ->
  match fold_left pick l None, fold_left pick l' None with
  | Some c, Some c' => mconfidence c == mconfidence c'
  | None, None => True
  | _, _ => False
  end.
Proof.
  intros P. pose proof (pick_fold_None_start l) as H.
  pose proof (pick_fold_None_start l') as H'.
  destruct (fold_left pick l None) as [c|],
           (fold_left pick l' None) as [c'|].
  - destruct H as [Hin Hmax], H' as [Hin' Hmax'].
    apply Qle_antisym.
    + apply Hmax'. now apply (Permutation_in _ P).
    + apply Hmax. now apply (Permutation_in _ (Permutation_sym P)).
  - destruct H as [Hin _]. subst l'.
    apply Permutation_sym, Permutation_nil in P. subst l. contradiction.
  - destruct H' as [Hin _]. subst l.
    apply Permutation_nil in P. subst l'. contradiction.
  - exact I.
Qed.

Lemma sortFields_perm fs : Permutation fs (sortFields fs).
Proof. apply sort_perm. Qed.

Lemma cands_perm rows h fs :
  Permutation (flat_map (cands rows h) fs)
              (flat_map (cands rows h) (sortFields fs)).
Proof. apply Permutation_flat_map, sortFields_perm. Qed.

End FirstPassFacts.

Section CandidateBounds.
Import JsString Mapper Spec.

Lemma sample_step_le pattern h rows : forall m t,
  (m <= t)%nat ->
  (fst (fold_left (sample_step pattern h) rows (m, t))
   <= snd (fold_left (sample_step pattern h) rows (m, t)))%nat.
Proof.
  induction rows as [|r rows IH]; intros m t H; simpl; [assumption|].
  destruct (option_map trim (JsMap.get h r)) as [val|]; [|now apply IH].
  destruct (truthy val); [|now apply IH].
  destruct (pattern val); apply IH; lia.
Qed.

Lemma checkSamplePattern_le rows h pattern :
  checkSamplePattern rows h pattern <= 85 # 100.
Proof.
  unfold checkSamplePattern. destruct rows as [|r rows]; [discriminate|].
  pose proof (sample_step_le pattern h (r :: rows) 0 0 (Nat.le_refl _)) as L.
  destruct (fold_left (sample_step pattern h) (r :: rows) (0%nat, 0%nat))
    as [m t]. simpl in L.
  destruct (t =? 0)%nat eqn:E; [discriminate|].
  apply Nat.eqb_neq in E.
  assert (B : 0 <= Qnat m / Qnat t <= 1)
    by (apply Qnat_ratio_bounds; lia).
  setoid_replace (85 # 100) with (1 * (85 # 100)) at 2 by ring.
  apply Qmult_le_compat_r; [apply B | discriminate].
Qed.

Lemma cands_valid rows h f c : In c (cands rows h f) -> valid c.
Proof.
  unfold cands.
  destruct ((normalizeHeader h =? normalizeHeader (key f))
            || (normalizeHeader h =? normalizeHeader (label f))).
  { intros [<-|[]]. left. split; reflexivity. }
  destruct (existsb _ (aliases f)).
  { intros [<-|[]]. right. simpl. split; [apply Qle_refl | discriminate]. }
  intros H. apply in_app_or in H. destruct H as [H|H].
  - destruct (Qltb (6 # 10) (maxSim (normalizeHeader h) f)); [|contradiction].
    destruct H as [<-|[]]. right. simpl. split; [|discriminate].
    eapply Qle_trans; [apply Q.le_min_r | discriminate].
  - destruct (samplePattern f) as [pattern|]; [|contradiction].
    destruct (Qltb (3 # 10) (checkSamplePattern rows h pattern));
      [|contradiction].
    destruct H as [<-|[]]. right. simpl. split; [|discriminate].
    eapply Qle_trans; [apply checkSamplePattern_le | discriminate].
Qed.

Lemma cands_exact rows h f c :
  In c (cands rows h f) -> mmatchType c = MExact ->
  exact_for h f = true /\ c = {| field := key f; mconfidence := 1;
                                mmatchType := MExact |}.
Proof.
  unfold cands, exact_for.
  destruct ((normalizeHeader h =? normalizeHeader (key f))
            || (normalizeHeader h =? normalizeHeader (label f))).
  { intros [<-|[]] _. auto. }
  destruct (existsb _ (aliases f)).
  { intros [<-|[]]. discriminate. }
  intros H. apply in_app_or in H. destruct H as [H|H].
  - destruct (Qltb (6 # 10) (maxSim (normalizeHeader h) f)); [|contradiction].
    destruct H as [<-|[]]. discriminate.
  - destruct (samplePattern f) as [pattern|]; [|contradiction].
    destruct (Qltb (3 # 10) (checkSamplePattern rows h pattern));
      [|contradiction].
    destruct H as [<-|[]]. discriminate.
Qed.

Lemma exact_cand rows h f :
  exact_for h f = true ->
  cands rows h f
  = [{| field := key f; mconfidence := 1; mmatchType := MExact |}].
Proof.
  unfold exact_for, cands. now intros ->.
Qed.

Lemma valid_conf_le_1 m : valid m -> mconfidence m <= 1.
Proof.
  intros [[-> _]|[H _]]; [apply Qle_refl|].
  eapply Qle_trans; [exact H | discriminate].
Qed.

Lemma valid_exact_of_ge_1 m :
  valid m -> 1 <= mconfidence m ->
  mconfidence m = 1 /\ mmatchType m = MExact.
Proof.
  intros [H|[H _]] G; [assumption|]. exfalso.
  assert (L : 1 <= 95 # 100) by (eapply Qle_trans; eauto).
  exact (L eq_refl).
Qed.

(** Every first-pass match is an admissible candidate of some field. *)
Lemma bestMatchFor_Some fs rows h m :
  bestMatchFor fs rows h = Some m ->
  valid m
  /\ (exists f, In f fs /\ In m (cands rows h f))
  /\ (forall f c, In f fs -> In c (cands rows h f) ->
                  mconfidence c <= mconfidence m).
Proof.
  intros H. rewrite bestMatchFor_cands in H.
  pose proof (pick_fold_None_start (flat_map (cands rows h) fs)) as P.
  rewrite H in P. destruct P as [Hin Hmax].
  apply in_flat_map in Hin. destruct Hin as (f & Hf & Hc).
  split; [eapply cands_valid; eauto|]. split; [eauto|].
  intros f' c Hf' Hc'. apply Hmax. apply in_flat_map. eauto.
Qed.

(** A header that normalizes to the key or label of some field of the
    evaluation order leaves the first pass with an exact match. *)
Lemma bestMatchFor_exact fs rows h f :
  In f fs -> exact_for h f = true ->
  exists f',
    In f' fs /\ exact_for h f' = true
    /\ bestMatchFor fs rows h
       = Some {| field := key f'; mconfidence := 1; mmatchType := MExact |}.
Proof.
  intros Hf He.
  destruct (bestMatchFor fs rows h) as [m|] eqn:B.
  - destruct (bestMatchFor_Some _ _ _ _ B) as (V & (f' & Hf' & Hm) & Hmax).
    assert (G : 1 <= mconfidence m).
    { apply (Hmax f {| field := key f; mconfidence := 1;
                       mmatchType := MExact |} Hf).
      rewrite (exact_cand rows h f He). now left. }
    destruct (valid_exact_of_ge_1 m V G) as [_ T].
    destruct (cands_exact rows h f' m Hm T) as [E ->].
    exists f'. auto.
  - exfalso. rewrite bestMatchFor_cands in B.
    pose proof (pick_fold_None_start (flat_map (cands rows h) fs)) as P.
    rewrite B in P.
    assert (I : In {| field := key f; mconfidence := 1;
                      mmatchType := MExact |}
                   (flat_map (cands rows h) fs)).
    { apply in_flat_map. exists f. split; [assumption|].
      rewrite (exact_cand rows h f He). now left. }
    rewrite P in I. contradiction.
Qed.

End CandidateBounds.

(** ** The header-score map and the groups of the second pass *)

Section HeaderScoreFacts.
Import JsString Mapper Spec.

Lemma existsb_eqb_In h hs : existsb (String.eqb h) hs = true <-> In h hs.
Proof.
  rewrite existsb_exists. split.
  - intros (x & Hx & E). apply String.eqb_eq in E. now subst.
  - intros H. exists h. split; [assumption | apply String.eqb_refl].
Qed.

Lemma firstPass_fold_get fs rows hs : forall acc h,
  JsMap.get h
    (fold_left
       (fun headerScores csvHeader =>
          match bestMatchFor fs rows csvHeader with
          | Some bestMatch => JsMap.set csvHeader bestMatch headerScores
          | None => headerScores
          end) hs acc)
  = match (if existsb (String.eqb h) hs then bestMatchFor fs rows h
           else None) with
    | Some m => Some m
    | None => JsMap.get h acc
    end.
Proof.
  induction hs as [|x hs IH]; intros acc h; simpl; [reflexivity|].
  rewrite IH. destruct (existsb (String.eqb h) hs) eqn:E.
  - rewrite orb_true_r.
    destruct (bestMatchFor fs rows h) as [m|] eqn:B; [reflexivity|].
    destruct (h =? x) eqn:X.
    + apply String.eqb_eq in X. subst x. now rewrite B.
    + destruct (bestMatchFor fs rows x); [|reflexivity].
      apply get_set_neq. intros ->. now rewrite String.eqb_refl in X.
  - rewrite orb_false_r. destruct (h =? x) eqn:X.
    + apply String.eqb_eq in X. subst x.
      destruct (bestMatchFor fs rows h); [apply get_set_eq | reflexivity].
    + destruct (bestMatchFor fs rows x); [|reflexivity].
      apply get_set_neq. intros ->. now rewrite String.eqb_refl in X.
Qed.

Lemma firstPass_get fs rows hs h :
  JsMap.get h (firstPass fs rows hs)
  = if existsb (String.eqb h) hs then bestMatchFor fs rows h else None.
Proof.
  unfold firstPass. rewrite firstPass_fold_get. simpl.
  now destruct (if existsb (String.eqb h) hs then _ else _).
Qed.

Lemma firstPass_NoDup fs rows hs : NoDup (JsMap.keys (firstPass fs rows hs)).
Proof.
  unfold firstPass.
  assert (G : forall acc, NoDup (JsMap.keys acc) ->
    NoDup (JsMap.keys
      (fold_left
         (fun headerScores csvHeader =>
            match bestMatchFor fs rows csvHeader with
            | Some bestMatch => JsMap.set csvHeader bestMatch headerScores
            | None => headerScores
            end) hs acc))).
  { induction hs as [|x hs IH]; intros acc ND; simpl; [assumption|].
    apply IH. destruct (bestMatchFor fs rows x); [|assumption].
    now apply NoDup_set. }
  apply G. constructor.
Qed.

(** The groups: each field met in [headerScores] gets the claimants that
    chose it, in the order of [headerScores]. *)
Lemma group_fold_get l : forall acc f,
  JsMap.get f (fold_left group_step l acc)
  = match map claimant (filter (claims_field f) l) with
    | [] => JsMap.get f acc
    | new =>
        Some (match JsMap.get f acc with Some old => old | None => [] end
              ++ new)
    end.
Proof.
  induction l as [|[h m] l IH]; intros acc f; [reflexivity|].
  cbn [fold_left]. rewrite IH. unfold group_step.
  cbn [filter]. change (claims_field f (h, m)) with (field m =? f).
  destruct (field m =? f) eqn:E.
  - apply String.eqb_eq in E. subst f. rewrite !get_set_eq.
    cbn [map]. change (claimant (h, m)) with
      {| cheader := h; cconfidence := mconfidence m;
         cmatchType := mmatchType m |}.
    destruct (map claimant (filter (claims_field (field m)) l));
      [reflexivity|].
    now rewrite <- app_assoc.
  - apply String.eqb_neq in E. rewrite !get_set_neq by assumption.
    reflexivity.
Qed.

Lemma groupByField_get hs f :
  JsMap.get f (groupByField hs)
  = match group_of hs f with [] => None | l => Some l end.
Proof.
  unfold groupByField, group_of. rewrite group_fold_get. simpl.
  now destruct (map claimant (filter (claims_field f) hs)).
Qed.

Lemma groupByField_NoDup hs : NoDup (JsMap.keys (groupByField hs)).
Proof.
  unfold groupByField.
  assert (G : forall acc, NoDup (JsMap.keys acc) ->
                NoDup (JsMap.keys (fold_left group_step hs acc))).
  { induction hs as [|[h m] hs IH]; intros acc ND; simpl; [assumption|].
    apply IH. now apply NoDup_set. }
  apply G. constructor.
Qed.

Lemma groupByField_In hs f es :
  In (f, es) (groupByField hs) -> es = group_of hs f /\ es <> [].
Proof.
  intros H. apply (In_get _ _ _ (groupByField_NoDup hs)) in H.
  rewrite groupByField_get in H.
  destruct (group_of hs f); [discriminate|].
  injection H as <-. split; [reflexivity | discriminate].
Qed.

Lemma groupByField_covers hs h m :
  In (h, m) hs -> In (field m) (JsMap.keys (groupByField hs)).
Proof.
  intros H.
  destruct (JsMap.get (field m) (groupByField hs)) as [es|] eqn:G.
  - apply get_In in G. change (field m) with (fst (field m, es)).
    now apply in_map.
  - exfalso. rewrite groupByField_get in G.
    assert (I : In (claimant (h, m)) (group_of hs (field m))).
    { unfold group_of. apply in_map, filter_In. split; [assumption|].
      unfold claims_field. apply String.eqb_refl. }
    destruct (group_of hs (field m)); [contradiction | discriminate].
Qed.

(** The members of a group, read back in [headerScores]. *)
Lemma group_of_In hs f c :
  NoDup (JsMap.keys hs) ->
  In c (group_of hs f) ->
  exists m, JsMap.get (cheader c) hs = Some m /\ field m = f
            /\ c = claimant (cheader c, m).
Proof.
  intros ND H. unfold group_of in H. apply in_map_iff in H.
  destruct H as ([h m] & <- & H). apply filter_In in H.
  destruct H as [Hin Hf]. unfold claims_field in Hf. simpl in Hf.
  apply String.eqb_eq in Hf. exists m. simpl.
  split; [now apply In_get | auto].
Qed.

Lemma In_group_of hs f h m :
  JsMap.get h hs = Some m -> field m = f ->
  In (claimant (h, m)) (group_of hs f).
Proof.
  intros G E. unfold group_of. apply in_map, filter_In.
  split; [now apply get_In|]. unfold claims_field. simpl.
  now apply String.eqb_eq.
Qed.

Lemma group_of_headers_NoDup hs f :
  NoDup (JsMap.keys hs) -> NoDup (map cheader (group_of hs f)).
Proof.
  intros ND. unfold group_of. rewrite map_map.
  change (fun x => cheader (claimant x)) with (@fst string Match).
  induction hs as [|[h m] hs IH]; simpl; [constructor|].
  inversion ND as [|? ? Hh ND']; subst.
  destruct (claims_field f (h, m)); [|now apply IH].
  simpl. constructor; [|now apply IH].
  intros H. apply Hh. apply in_map_iff in H. destruct H as (e & <- & H).
  apply filter_In in H. now apply in_map.
Qed.

End HeaderScoreFacts.

(** ** The second pass of the mapper: conflict resolution *)

Section ResolveFacts.
Import JsString Mapper Spec.

Lemma delete_fold_get (l : list Claimant) : forall (hs : JsMap.t Match) h,
  JsMap.get h (fold_left (fun hs c => JsMap.delete (cheader c) hs) l hs)
  = if existsb (fun c => cheader c =? h) l then None else JsMap.get h hs.
Proof.
  induction l as [|c l IH]; intros hs h; simpl; [reflexivity|].
  rewrite IH. destruct (existsb (fun c => cheader c =? h) l).
  - now rewrite orb_true_r.
  - rewrite orb_false_r. destruct (cheader c =? h) eqn:E.
    + apply String.eqb_eq in E. subst h. apply get_delete_eq.
    + apply String.eqb_neq in E. now apply get_delete_neq.
Qed.

Lemma ordered_perm es : Permutation es (ordered es).
Proof.
  unfold ordered. destruct (1 <? List.length es)%nat; [|reflexivity].
  apply sort_perm.
Qed.

Lemma resolve_step_ordered hs f es :
  resolve_step hs (f, es)
  = match ordered es with
    | w :: losers =>
        JsMap.set (cheader w)
          {| field := f; mconfidence := cconfidence w;
             mmatchType := cmatchType w |}
          (fold_left (fun hs c => JsMap.delete (cheader c) hs) losers hs)
    | [] => hs
    end.
Proof.
  unfold resolve_step, ordered.
  destruct (1 <? List.length es)%nat eqn:E.
  - destruct (sortMatches es); reflexivity.
  - destruct es as [|w [|x es]]; try reflexivity.
    simpl in E. discriminate.
Qed.

Lemma resolve_step_upto hs0 P hs f es :
  NoDup (JsMap.keys hs0) ->
  resolved_upto hs0 P hs ->
  es = group_of hs0 f -> es <> [] ->
  resolved_upto hs0 (f :: P) (resolve_step hs (f, es)).
Proof.
  intros ND Inv Hes Hne h.
  rewrite resolve_step_ordered.
  pose proof (ordered_perm es) as Perm.
  destruct (ordered es) as [|w losers] eqn:O.
  { apply Permutation_sym, Permutation_nil in Perm. contradiction. }
  assert (Hw : In w (group_of hs0 f)).
  { rewrite <- Hes. apply (Permutation_in _ (Permutation_sym Perm)).
    now left. }
  destruct (group_of_In hs0 f w ND Hw) as (mw & Gw & Fw & Ew).
  assert (Win : forall x, winner_is hs0 f x = (cheader w =? x)).
  { intros x. unfold winner_is. now rewrite <- Hes, O. }
  destruct (string_dec (cheader w) h) as [<-|Ne].
  - rewrite get_set_eq, Gw. simpl.
    rewrite Fw, String.eqb_refl. simpl.
    rewrite Win, String.eqb_refl.
    f_equal. rewrite <- Fw. rewrite Ew. simpl. now destruct mw.
  - rewrite get_set_neq by assumption. rewrite delete_fold_get.
    destruct (JsMap.get h hs0) as [m|] eqn:G0.
    + simpl. destruct (field m =? f) eqn:Ef.
      * apply String.eqb_eq in Ef. simpl.
        rewrite Ef, Win.
        apply String.eqb_neq in Ne. rewrite Ne.
        assert (I : In (claimant (h, m)) (w :: losers)).
        { apply (Permutation_in _ Perm). rewrite Hes.
          now apply In_group_of. }
        destruct I as [I|I].
        { rewrite I in Ne. simpl in Ne. now rewrite String.eqb_refl in Ne. }
        assert (X : existsb (fun c => cheader c =? h) losers = true).
        { apply existsb_exists. exists (claimant (h, m)).
          split; [assumption | apply String.eqb_refl]. }
        now rewrite X.
      * simpl.
        assert (X : existsb (fun c => cheader c =? h) losers = false).
        { destruct (existsb _ losers) eqn:X; [|reflexivity].
          apply existsb_exists in X. destruct X as (c & Hc & Eh).
          apply String.eqb_eq in Eh.
          assert (Hc' : In c (group_of hs0 f)).
          { rewrite <- Hes.
            apply (Permutation_in _ (Permutation_sym Perm)). now right. }
          destruct (group_of_In hs0 f c ND Hc') as (m' & G' & F' & _).
          rewrite Eh, G0 in G'. injection G' as <-.
          apply String.eqb_neq in Ef. contradiction. }
        rewrite X, (Inv h), G0. reflexivity.
    + rewrite (Inv h), G0. now destruct (existsb _ losers).
Qed.

Lemma resolve_fold_upto hs0 G : forall P hs,
  NoDup (JsMap.keys hs0) ->
  (forall f es, In (f, es) G -> es = group_of hs0 f /\ es <> []) ->
  resolved_upto hs0 P hs ->
  resolved_upto hs0 (rev (map fst G) ++ P) (fold_left resolve_step G hs).
Proof.
  induction G as [|[f es] G IH]; intros P hs ND HG Inv; [exact Inv|].
  simpl. rewrite <- app_assoc. simpl. apply IH; [assumption | |].
  - intros f' es' H. apply HG. now right.
  - destruct (HG f es (or_introl eq_refl)) as [E N].
    now apply resolve_step_upto.
Qed.

(** The map that the second pass leaves: a header keeps its first-pass
    match exactly when it is the winner of the field it chose. *)
Lemma resolved_get hs0 h :
  NoDup (JsMap.keys hs0) ->
  JsMap.get h (fold_left resolve_step (groupByField hs0) hs0)
  = match JsMap.get h hs0 with
    | Some m => if winner_is hs0 (field m) h then Some m else None
    | None => None
    end.
Proof.
  intros ND.
  assert (Inv0 : resolved_upto hs0 [] hs0).
  { intros x. simpl. now destruct (JsMap.get x hs0). }
  pose proof (resolve_fold_upto hs0 (groupByField hs0) [] hs0 ND
                (groupByField_In hs0) Inv0 h) as R.
  rewrite R. destruct (JsMap.get h hs0) as [m|] eqn:G; [|reflexivity].
  assert (X : existsb (String.eqb (field m))
                (rev (map fst (groupByField hs0)) ++ []) = true).
  { apply existsb_eqb_In. rewrite app_nil_r. apply in_rev.
    rewrite rev_involutive.
    apply (groupByField_covers hs0 h m). now apply get_In. }
  now rewrite X.
Qed.

End ResolveFacts.

(** ** The winner of a group has the greatest confidence *)

Section SortHead.
Context {A : Type} (le : A -> A -> bool).
Hypothesis le_total : forall a b, le a b = true \/ le b a = true.
Hypothesis le_trans :
  forall a b c, le a b = true -> le b c = true -> le a c = true.

Lemma insert_sorted x l :
  StronglySorted (fun a b => le a b = true) l ->
  StronglySorted (fun a b => le a b = true) (JsSort.insert le x l).
Proof.
  induction 1 as [|y l S IH F]; simpl.
  - repeat constructor.
  - destruct (le x y) eqn:E.
    + constructor; [now constructor|]. constructor; [assumption|].
      rewrite Forall_forall in *. intros z Hz. eapply le_trans; eauto.
    + constructor; [assumption|].
      rewrite Forall_forall in *. intros z Hz.
      apply (Permutation_in _ (Permutation_sym (insert_perm le x l))) in Hz.
      destruct Hz as [<-|Hz]; [|auto].
      destruct (le_total x y); congruence.
Qed.

Lemma sort_sorted l :
  StronglySorted (fun a b => le a b = true) (JsSort.sort le l).
Proof.
  induction l as [|x l IH]; simpl; [constructor | now apply insert_sorted].
Qed.

Lemma sort_head w r l :
  JsSort.sort le l = w :: r -> forall x, In x l -> x = w \/ le w x = true.
Proof.
  intros E x Hx. pose proof (sort_sorted l) as S. rewrite E in S.
  apply (Permutation_in _ (sort_perm le l)) in Hx. rewrite E in Hx.
  destruct Hx as [<-|Hx]; [now left|]. right.
  inversion S as [|? ? _ F]; subst. rewrite Forall_forall in F. auto.
Qed.

End SortHead.

Section WinnerFacts.
Import JsString Mapper Spec.

Lemma cmp_le_iff (x y : Q) : Qle_bool (y - x) 0 = true <-> y <= x.
Proof. rewrite Qle_bool_iff. split; intros H; lra. Qed.

Lemma sortMatches_head es w r :
  sortMatches es = w :: r ->
  forall c, In c es -> cconfidence c <= cconfidence w.
Proof.
  intros E c Hc. unfold sortMatches in E.
  destruct (sort_head
              (fun a b => Qle_bool (cconfidence b - cconfidence a) 0))
    with (w := w) (r := r) (l := es) (x := c) as [->|L]; auto.
  - intros a b. rewrite !cmp_le_iff.
    destruct (Qlt_le_dec (cconfidence a) (cconfidence b));
      [right; lra | left; assumption].
  - intros a b d. rewrite !cmp_le_iff. intros; lra.
  - apply Qle_refl.
  - now apply cmp_le_iff in L.
Qed.

Lemma ordered_head es w r :
  ordered es = w :: r ->
  forall c, In c es -> cconfidence c <= cconfidence w.
Proof.
  unfold ordered. intros E c Hc.
  destruct (1 <? List.length es)%nat eqn:Len.
  - eapply sortMatches_head; eauto.
  - subst es. destruct r as [|x r]; [|simpl in Len; discriminate].
    destruct Hc as [<-|[]]. apply Qle_refl.
Qed.

End WinnerFacts.

(** ** The suggestions of the mapper *)

Section SuggestionFacts.
Import JsString Mapper Spec.

Lemma suggest_get fs hs rows h :
  JsMap.get h
    (fold_left resolve_step (groupByField (firstPass fs rows hs))
       (firstPass fs rows hs))
  = match (if existsb (String.eqb h) hs then bestMatchFor fs rows h
           else None) with
    | Some m =>
        if winner_is (firstPass fs rows hs) (field m) h then Some m else None
    | None => None
    end.
Proof.
  rewrite resolved_get by apply firstPass_NoDup.
  now rewrite firstPass_get.
Qed.

Lemma suggestWith_nth fs hs rows i :
  nth_error (suggestWith fs hs rows) i
  = option_map
      (suggestionFor
         (fold_left resolve_step (groupByField (firstPass fs rows hs))
            (firstPass fs rows hs)))
      (nth_error hs i).
Proof. unfold suggestWith. apply nth_error_map. Qed.

Lemma suggestionFor_header hs h : csvHeader (suggestionFor hs h) = h.
Proof. unfold suggestionFor. now destruct (JsMap.get h hs). Qed.

Lemma suggestionFor_field hs h k :
  schemaField (suggestionFor hs h) = Some k ->
  exists m, JsMap.get h hs = Some m /\ field m = k.
Proof.
  unfold suggestionFor. destruct (JsMap.get h hs) as [m|]; simpl.
  - intros [= <-]. eauto.
  - discriminate.
Qed.

Lemma winner_is_unique hs f h1 h2 :
  winner_is hs f h1 = true -> winner_is hs f h2 = true -> h1 = h2.
Proof.
  unfold winner_is. destruct (ordered (group_of hs f)); [discriminate|].
  rewrite !String.eqb_eq. congruence.
Qed.

Lemma header_of_field fs hs rows h k :
  schemaField
    (suggestionFor
       (fold_left resolve_step (groupByField (firstPass fs rows hs))
          (firstPass fs rows hs)) h) = Some k ->
  winner_is (firstPass fs rows hs) k h = true.
Proof.
  intros H. apply suggestionFor_field in H. destruct H as (m & G & <-).
  rewrite suggest_get in G.
  destruct (if existsb (String.eqb h) hs then _ else _) as [m'|];
    [|discriminate].
  destruct (winner_is (firstPass fs rows hs) (field m') h) eqn:W;
    [|discriminate].
  now injection G as <-.
Qed.

(** C1, as the code has it.  A column is known by its header string: two
    suggestions with the same non-null [schemaField] carry the same
    [csvHeader], so the suggestion list is injective when no header string
    occurs twice, and a header string that occurs twice gets the same
    suggestion at each of its positions. *)
Theorem suggestions_share_field_only_on_same_header
    (csvHeaders : list string) (schema : SourceSchema)
    (sampleRows : list Row) (i j : nat) (s1 s2 : MappingSuggestion)
    (k : string) :
  nth_error (generateMappingSuggestions csvHeaders schema sampleRows) i
  = Some s1 ->
  nth_error (generateMappingSuggestions csvHeaders schema sampleRows) j
  = Some s2 ->
  schemaField s1 = Some k -> schemaField s2 = Some k ->
  csvHeader s1 = csvHeader s2
  /\ s1 = s2
  /\ (NoDup csvHeaders -> i = j).
Proof.
  unfold generateMappingSuggestions. rewrite !suggestWith_nth.
  intros H1 H2 K1 K2.
  destruct (nth_error csvHeaders i) as [h1|] eqn:N1; [|discriminate].
  destruct (nth_error csvHeaders j) as [h2|] eqn:N2; [|discriminate].
  simpl in H1, H2. injection H1 as <-. injection H2 as <-.
  assert (E : h1 = h2).
  { apply header_of_field in K1, K2. eapply winner_is_unique; eauto. }
  subst h2. split; [reflexivity|]. split; [reflexivity|].
  intros ND. rewrite NoDup_nth_error in ND. apply ND; [|congruence].
  apply nth_error_Some. congruence.
Qed.

(** C4, as the code has it.  A header that normalizes to the key or label
    of a schema field leaves the first pass with an exact match of
    confidence 1 for such a field [f'].  In the list returned, its
    suggestion is that exact match, or else conflict resolution gave the
    field to another header: then the header is unmapped (null field,
    confidence 0, type none) and that other header carries [f'] with type
    exact and confidence 1. *)
Theorem exact_header_is_exact_or_displaced
    (csvHeaders : list string) (schema : SourceSchema)
    (sampleRows : list Row) (h : string) (f : SchemaField) :
  In h csvHeaders -> In f (fields schema) -> exact_for h f = true ->
  exists f',
    In f' (fields schema) /\ exact_for h f' = true
    /\ ((forall i, nth_error csvHeaders i = Some h ->
           nth_error (generateMappingSuggestions csvHeaders schema sampleRows)
             i
           = Some {| csvHeader := h; schemaField := Some (key f');
                     confidence := 1; matchType := MExact |})
        \/ ((forall i, nth_error csvHeaders i = Some h ->
               nth_error
                 (generateMappingSuggestions csvHeaders schema sampleRows) i
               = Some {| csvHeader := h; schemaField := None;
                         confidence := 0; matchType := MNone |})
            /\ exists h',
                 h' <> h
                 /\ In {| csvHeader := h'; schemaField := Some (key f');
                          confidence := 1; matchType := MExact |}
                       (generateMappingSuggestions csvHeaders schema
                          sampleRows))).
Proof.
  intros Hh Hf He. unfold generateMappingSuggestions.
  set (fs := sortFields (fields schema)).
  assert (Hf' : In f fs)
    by (apply (Permutation_in _ (sortFields_perm _)); assumption).
  destruct (bestMatchFor_exact fs sampleRows h f Hf' He)
    as (f' & Hf'' & He' & B).
  exists f'. split.
  { apply (Permutation_in _ (Permutation_sym (sortFields_perm _))).
    assumption. }
  split; [assumption|].
  set (hs0 := firstPass fs sampleRows csvHeaders).
  set (final := fold_left resolve_step (groupByField hs0) hs0).
  assert (Ex : existsb (String.eqb h) csvHeaders = true)
    by now apply existsb_eqb_In.
  assert (G0 : JsMap.get h hs0
               = Some {| field := key f'; mconfidence := 1;
                         mmatchType := MExact |}).
  { unfold hs0. now rewrite firstPass_get, Ex. }
  assert (G : JsMap.get h final
              = if winner_is hs0 (key f') h
                then Some {| field := key f'; mconfidence := 1;
                             mmatchType := MExact |}
                else None).
  { unfold final, hs0. now rewrite suggest_get, Ex, B. }
  destruct (winner_is hs0 (key f') h) eqn:W.
  - left. intros i Hi. rewrite suggestWith_nth, Hi. simpl.
    fold hs0. fold final. unfold suggestionFor. now rewrite G.
  - right. split.
    { intros i Hi. rewrite suggestWith_nth, Hi. simpl.
      fold hs0. fold final. unfold suggestionFor. now rewrite G. }
    pose proof (In_group_of hs0 (key f') h _ G0 eq_refl) as I.
    pose proof (ordered_perm (group_of hs0 (key f'))) as P.
    destruct (ordered (group_of hs0 (key f'))) as [|w r] eqn:O.
    { apply Permutation_sym, Permutation_nil in P. rewrite P in I.
      contradiction. }
    assert (Hw : In w (group_of hs0 (key f'))).
    { apply (Permutation_in _ (Permutation_sym P)). now left. }
    destruct (group_of_In hs0 (key f') w (firstPass_NoDup _ _ _) Hw)
      as (mw & Gw & Fw & Ew).
    assert (Ww : winner_is hs0 (key f') (cheader w) = true).
    { unfold winner_is. rewrite O. apply String.eqb_refl. }
    assert (Ge : 1 <= mconfidence mw).
    { pose proof (ordered_head _ _ _ O _ I) as L. simpl in L.
      rewrite Ew in L. exact L. }
    assert (Exw : existsb (String.eqb (cheader w)) csvHeaders = true
                  /\ bestMatchFor fs sampleRows (cheader w) = Some mw).
    { unfold hs0 in Gw. rewrite firstPass_get in Gw.
      destruct (existsb (String.eqb (cheader w)) csvHeaders);
        [auto | discriminate]. }
    destruct Exw as [Exw Bw].
    destruct (bestMatchFor_Some _ _ _ _ Bw) as (V & _ & _).
    destruct (valid_exact_of_ge_1 mw V Ge) as [C1 T1].
    exists (cheader w). split.
    { intros E. unfold winner_is in W. rewrite O, E in W.
      now rewrite String.eqb_refl in W. }
    unfold suggestWith. fold hs0. fold final.
    apply in_map_iff. exists (cheader w). split.
    + unfold suggestionFor, final, hs0.
      rewrite suggest_get, Exw, Bw. fold hs0. rewrite Fw, Ww.
      now rewrite Fw, C1, T1.
    + now apply existsb_eqb_In.
Qed.

End SuggestionFacts.

(** ** The order in which the schema fields are evaluated *)

Section FieldOrderFacts.
Import JsString Mapper Spec.

Lemma firstPass_ext fs fs' rows hs :
  (forall h, In h hs -> bestMatchFor fs rows h = bestMatchFor fs' rows h) ->
  firstPass fs rows hs = firstPass fs' rows hs.
Proof.
  unfold firstPass. generalize (@nil (string * Match)).
  induction hs as [|x hs IH]; intros acc H; simpl; [reflexivity|].
  rewrite (H x (or_introl eq_refl)). apply IH.
  intros h Hh. apply H. now right.
Qed.

Lemma insert_required x l :
  required x = true ->
  JsSort.insert (fun a b => (required_cmp a b <=? 0)%Z) x l = x :: l.
Proof.
  intros R. destruct l as [|y l]; simpl; [reflexivity|].
  unfold required_cmp. rewrite R. now destruct (required y).
Qed.

Lemma insert_optional x req opt :
  required x = false ->
  Forall (fun f => required f = true) req ->
  Forall (fun f => required f = false) opt ->
  JsSort.insert (fun a b => (required_cmp a b <=? 0)%Z) x (req ++ opt)
  = req ++ x :: opt.
Proof.
  intros R Hreq Hopt. induction Hreq as [|y req Hy _ IH]; simpl.
  - destruct Hopt as [|z opt Hz _]; simpl; [reflexivity|].
    unfold required_cmp. now rewrite R, Hz.
  - unfold required_cmp at 1. rewrite R, Hy. simpl. now rewrite IH.
Qed.

(** The sort is stable: the required fields in their declared order, then
    the optional ones in theirs. *)
Lemma sortFields_partition fs :
  sortFields fs
  = filter required fs ++ filter (fun f => negb (required f)) fs.
Proof.
  unfold sortFields. induction fs as [|x fs IH]; simpl; [reflexivity|].
  rewrite IH. destruct (required x) eqn:R; simpl.
  - now apply insert_required.
  - apply insert_optional; [assumption | |];
      apply Forall_forall; intros f Hf; apply filter_In in Hf;
      destruct Hf as [_ Hf]; [assumption | now apply negb_true_iff].
Qed.

(** Once a match is held, the fold keeps it or ends on a strictly better
    one. *)
Lemma pick_keeps_or_grows l : forall x c,
  fold_left pick l (Some x) = Some c ->
  c = x \/ mconfidence x < mconfidence c.
Proof.
  induction l as [|y l IH]; intros x c H; simpl in H.
  - left. congruence.
  - unfold pick, improves in H.
    destruct (Qltb (mconfidence x) (mconfidence y)) eqn:E.
    + apply Qltb_lt in E. right.
      destruct (IH _ _ H) as [->|L]; [assumption|].
      eapply Qlt_trans; eauto.
    + now apply IH.
Qed.

(** The fold ends on the first candidate that reaches the best
    confidence. *)
Lemma pick_first_reaching l : forall b c,
  fold_left pick l b = Some c ->
  (forall m, b = Some m -> mconfidence m < mconfidence c) ->
  hd_error (filter (reaches c) l) = Some c.
Proof.
  induction l as [|x l IH]; intros b c H Hb; simpl in H.
  - exfalso. exact (Qlt_irrefl _ (Hb c H)).
  - assert (Taken : fold_left pick l (Some x) = Some c ->
                    hd_error (filter (reaches c) (x :: l)) = Some c).
    { intros F. simpl. unfold reaches at 1.
      destruct (pick_keeps_or_grows _ _ _ F) as [->|L].
      - assert (R : Qle_bool (mconfidence x) (mconfidence x) = true)
          by apply Qle_bool_iff, Qle_refl.
        now rewrite R.
      - assert (R : Qle_bool (mconfidence c) (mconfidence x) = false).
        { apply not_true_iff_false. intros R. apply Qle_bool_iff in R.
          exact (Qlt_not_le _ _ L R). }
        rewrite R. apply (IH (Some x)); [assumption|].
        now intros m [= <-]. }
    unfold pick, improves in H. destruct b as [m|]; [|now apply Taken].
    destruct (Qltb (mconfidence m) (mconfidence x)) eqn:E;
      [now apply Taken|].
    apply Qltb_ge in E. simpl. unfold reaches at 1.
    assert (R : Qle_bool (mconfidence c) (mconfidence x) = false).
    { apply not_true_iff_false. intros R. apply Qle_bool_iff in R.
      pose proof (Hb m eq_refl) as L.
      apply (Qlt_not_le _ _ L). eapply Qle_trans; eauto. }
    rewrite R. now apply (IH (Some m)).
Qed.

Lemma filter_flat_map {A B} (p : B -> bool) (g : A -> list B) l :
  filter p (flat_map g l) = flat_map (fun x => filter p (g x)) l.
Proof.
  induction l as [|x l IH]; simpl; [reflexivity|].
  now rewrite filter_app, IH.
Qed.

Lemma flat_map_skip {A B} (p : A -> bool) (g : A -> list B) l :
  (forall x, In x l -> p x = false -> g x = []) ->
  flat_map g l = flat_map g (filter p l).
Proof.
  induction l as [|x l IH]; intros H; simpl; [reflexivity|].
  rewrite IH by (intros y Hy; apply H; now right).
  destruct (p x) eqn:E; simpl; [reflexivity|].
  now rewrite (H x (or_introl eq_refl) E).
Qed.

Lemma flat_map_all_nil {A B} (g : A -> list B) l :
  (forall x, In x l -> g x = []) -> flat_map g l = [].
Proof.
  induction l as [|x l IH]; intros H; simpl; [reflexivity|].
  rewrite (H x (or_introl eq_refl)), IH; [reflexivity|].
  intros y Hy. apply H. now right.
Qed.

(** The candidates that reach a given confidence come in the same order
    from the declared and from the required-first list of fields, unless a
    required and an optional field both have one. *)
Lemma reaching_same_order {B} (g : SchemaField -> list B) fs :
  (forall f1 f2, In f1 fs -> In f2 fs ->
                 required f1 = true -> required f2 = false ->
                 g f1 = [] \/ g f2 = []) ->
  flat_map g fs = flat_map g (sortFields fs).
Proof.
  intros H. rewrite sortFields_partition, flat_map_app.
  destruct (existsb (fun f => required f
                              && match g f with [] => false | _ => true end)
                    fs) eqn:X.
  - apply existsb_exists in X. destruct X as (f1 & Hf1 & X).
    apply andb_true_iff in X. destruct X as [R1 N1].
    assert (B2 : forall f, In f fs -> required f = false -> g f = []).
    { intros f2 Hf2 R2. destruct (H f1 f2 Hf1 Hf2 R1 R2) as [E|E];
        [|assumption]. now rewrite E in N1. }
    rewrite (flat_map_all_nil g (filter (fun f => negb (required f)) fs)),
      ?app_nil_r.
    + now apply flat_map_skip.
    + intros f Hf. apply filter_In in Hf. destruct Hf as [Hf R].
      apply B2; [assumption | now apply negb_true_iff].
  - assert (A1 : forall f, In f fs -> required f = true -> g f = []).
    { intros f Hf R.
      destruct (g f) eqn:E; [reflexivity|]. exfalso.
      apply not_true_iff_false in X. apply X, existsb_exists.
      exists f. split; [assumption|]. now rewrite R, E. }
    rewrite (flat_map_all_nil g (filter required fs)); simpl.
    + apply (flat_map_skip (fun f => negb (required f))).
      intros f Hf R. apply A1; [assumption | now apply negb_false_iff].
    + intros f Hf. apply filter_In in Hf. now apply A1.
Qed.

Lemma bestMatchFor_sorted rows h fs :
  no_cross_tie rows h fs ->
  bestMatchFor (sortFields fs) rows h = bestMatchFor fs rows h.
Proof.
  intros NT. rewrite !bestMatchFor_cands.
  set (l := flat_map (cands rows h) fs).
  set (l' := flat_map (cands rows h) (sortFields fs)).
  pose proof (pick_fold_perm_confidence l l' (cands_perm rows h fs)) as E.
  pose proof (pick_fold_None_start l) as M.
  destruct (fold_left pick l None) as [c|] eqn:F,
           (fold_left pick l' None) as [c'|] eqn:F';
    try contradiction; [|reflexivity].
  destruct M as [Hc Hmax].
  pose proof (pick_first_reaching l None c F) as T.
  pose proof (pick_first_reaching l' None c' F') as T'.
  assert (Same : filter (reaches c') l' = filter (reaches c) l).
  { transitivity (filter (reaches c) l').
    - apply filter_ext. intros x. unfold reaches.
      destruct (Qle_bool (mconfidence c) (mconfidence x)) eqn:R.
      + apply Qle_bool_iff. apply Qle_bool_iff in R. now rewrite <- E.
      + apply not_true_iff_false. intros R'. apply not_true_iff_false in R.
        apply R. apply Qle_bool_iff. apply Qle_bool_iff in R'.
        now rewrite E.
    - unfold l, l'. rewrite !filter_flat_map. symmetry.
      apply reaching_same_order. intros f1 f2 H1 H2 R1 R2.
      destruct (filter (reaches c) (cands rows h f1)) as [|c1 r1] eqn:G1;
        [now left|].
      destruct (filter (reaches c) (cands rows h f2)) as [|c2 r2] eqn:G2;
        [now right|].
      exfalso.
      assert (I1 : In c1 (filter (reaches c) (cands rows h f1)))
        by (rewrite G1; now left).
      assert (I2 : In c2 (filter (reaches c) (cands rows h f2)))
        by (rewrite G2; now left).
      apply filter_In in I1, I2. destruct I1 as [I1 Q1], I2 as [I2 Q2].
      unfold reaches in Q1, Q2. apply Qle_bool_iff in Q1, Q2.
      apply (NT f1 f2 c1 c2 H1 H2 R1 R2 I1 I2); split.
      + apply in_flat_map. eauto.
      + intros x Hx. eapply Qle_trans; [now apply Hmax | exact Q1].
      + apply in_flat_map. eauto.
      + intros x Hx. eapply Qle_trans; [now apply Hmax | exact Q2]. }
  rewrite Same in T'. rewrite T in T'; [|discriminate].
  symmetry. apply T'. discriminate.
Qed.

(** C9, as the code has it.  The required-first order never changes the
    confidence of a header's first-pass match; and unless, for some
    header, a candidate of a required field ties with a candidate of an
    optional field at the best confidence, it changes nothing at all: the
    suggestions are those of the declared order.  Such a tie is decided by
    the order, in favour of the required field. *)
Theorem required_first_order_matters_only_on_ties
    (csvHeaders : list string) (schema : SourceSchema)
    (sampleRows : list Row) :
  (forall h,
     match bestMatchFor (sortFields (fields schema)) sampleRows h,
           bestMatchFor (fields schema) sampleRows h with
     | Some sorted, Some declared =>
         mconfidence sorted == mconfidence declared
     | None, None => True
     | _, _ => False
     end)
  /\ ((forall h, In h csvHeaders ->
         no_cross_tie sampleRows h (fields schema)) ->
      generateMappingSuggestions csvHeaders schema sampleRows
      = generateMappingSuggestions_declared csvHeaders schema sampleRows).
Proof.
  split.
  - intros h. rewrite !bestMatchFor_cands.
    apply pick_fold_perm_confidence, Permutation_sym, cands_perm.
  - intros NT.
    unfold generateMappingSuggestions, generateMappingSuggestions_declared,
      suggestWith.
    rewrite (firstPass_ext (sortFields (fields schema)) (fields schema));
      [reflexivity|].
    intros h Hh. apply bestMatchFor_sorted. now apply NT.
Qed.

End FieldOrderFacts.

Section MapperExamples.
Import JsString Mapper Spec Examples.

(** C1, as stated, fails: a header string that occurs twice yields two
    suggestions with the same non-null [schemaField]. *)
Lemma duplicate_header_shares_field :
  exists s1 s2,
    nth_error (generateMappingSuggestions ["email"; "email"] email_schema [])
      0 = Some s1
    /\ nth_error
         (generateMappingSuggestions ["email"; "email"] email_schema []) 1
       = Some s2
    /\ schemaField s1 = Some "email"
    /\ schemaField s2 = Some "email".
Proof.
  do 2 eexists. repeat split; reflexivity.
Qed.

Lemma suggestions_share_field_witness :
  csvHeader
    {| csvHeader := "Email Address"; schemaField := Some "email";
       confidence := 1; matchType := MExact |}
  = csvHeader
      {| csvHeader := "Email Address"; schemaField := Some "email";
         confidence := 1; matchType := MExact |}
  /\ {| csvHeader := "Email Address"; schemaField := Some "email";
        confidence := 1; matchType := MExact |}
     = {| csvHeader := "Email Address"; schemaField := Some "email";
          confidence := 1; matchType := MExact |}
  /\ (NoDup ["Email Address"; "e-mail"; "Email Address"] -> 0%nat = 2%nat).
Proof.
  apply (suggestions_share_field_only_on_same_header
           ["Email Address"; "e-mail"; "Email Address"]
           (schema_of [text_field "email" "Email Address" true]) []
           0%nat 2%nat _ _ "email");
    reflexivity.
Defined.

(** C4, as stated, fails: ["email"] normalizes to the key of the field,
    but ["Email"] does too and keeps the field; the suggestion for
    ["email"] is unmapped. *)
Lemma exact_header_unmapped_by_conflict :
  exact_for "email" (text_field "email" "Email" true) = true
  /\ nth_error (generateMappingSuggestions ["Email"; "email"] email_schema [])
       1
     = Some {| csvHeader := "email"; schemaField := None; confidence := 0;
               matchType := MNone |}.
Proof.
  split; reflexivity.
Qed.

Lemma exact_header_is_exact_or_displaced_witness :
  exists f',
    In f' (fields email_schema) /\ exact_for "email" f' = true
    /\ ((forall i, nth_error ["Email"; "email"] i = Some "email" ->
           nth_error
             (generateMappingSuggestions ["Email"; "email"] email_schema []) i
           = Some {| csvHeader := "email"; schemaField := Some (key f');
                     confidence := 1; matchType := MExact |})
        \/ ((forall i, nth_error ["Email"; "email"] i = Some "email" ->
               nth_error
                 (generateMappingSuggestions ["Email"; "email"] email_schema
                    []) i
               = Some {| csvHeader := "email"; schemaField := None;
                         confidence := 0; matchType := MNone |})
            /\ exists h',
                 h' <> "email"
                 /\ In {| csvHeader := h'; schemaField := Some (key f');
                          confidence := 1; matchType := MExact |}
                       (generateMappingSuggestions ["Email"; "email"]
                          email_schema []))).
Proof.
  apply (exact_header_is_exact_or_displaced
           ["Email"; "email"] email_schema [] "email"
           (text_field "email" "Email" true)).
  - right. now left.
  - now left.
  - reflexivity.
Defined.

(** C9, as stated, fails: two fields are labelled [Email]; in declared
    order the optional one, met first, takes the header, in required-first
    order the required one does. *)
Lemma required_first_order_changes_field :
  generateMappingSuggestions ["Email"] tie_schema []
  = [{| csvHeader := "Email"; schemaField := Some "email"; confidence := 1;
        matchType := MExact |}]
  /\ generateMappingSuggestions_declared ["Email"] tie_schema []
     = [{| csvHeader := "Email"; schemaField := Some "contact";
           confidence := 1; matchType := MExact |}]
  /\ generateMappingSuggestions ["Email"] tie_schema []
     <> generateMappingSuggestions_declared ["Email"] tie_schema [].
Proof.
  split; [reflexivity|]. split; [reflexivity|].
  intros H. vm_compute in H. discriminate H.
Qed.

(** The example scenario: two alias matches and a similarity match of
    score 2 * 5 / (10 + 5). *)
Lemma payment_scenario :
  map (fun s => (csvHeader s, schemaField s, Qred (confidence s), matchType s))
    (generateMappingSuggestions
       ["Email Address"; "full_name"; "Amount Paid"] payment_schema [])
  = [("Email Address", Some "email", 19 # 20, MAlias);
     ("full_name", Some "name", 19 # 20, MAlias);
     ("Amount Paid", Some "amount", 2 # 3, MSimilarity)].
Proof. reflexivity. Qed.

Lemma required_first_order_witness :
  sortFields (fields two_field_schema) <> fields two_field_schema
  /\ generateMappingSuggestions ["Email"; "Name"] two_field_schema []
     = generateMappingSuggestions_declared ["Email"; "Name"] two_field_schema
         [].
Proof.
  split; [discriminate|].
  apply (proj2 (required_first_order_matters_only_on_ties
                  ["Email"; "Name"] two_field_schema [])).
  assert (E1 : cands [] "Email" (text_field "name" "Name" false) = [])
    by (vm_compute; reflexivity).
  assert (E2 : cands [] "Name" (text_field "email" "Email" true) = [])
    by (vm_compute; reflexivity).
  intros h [<-|[<-|[]]] f1 f2 c1 c2 [<-|[<-|[]]] [<-|[<-|[]]] R1 R2 I1 I2 _ _;
    try discriminate R1; try discriminate R2.
  - rewrite E1 in I2. contradiction.
  - rewrite E2 in I1. contradiction.
Defined.

End MapperExamples.

(** ** Normal forms of text *)

Section TextFacts.
Import JsString Validators TextSpec.

Lemma lower_char_idem c : lower_char (lower_char c) = lower_char c.
Proof.
  destruct c as [[] [] [] [] [] [] [] []]; vm_compute; reflexivity.
Qed.

Lemma is_space_lower c : is_space (lower_char c) = is_space c.
Proof.
  destruct c as [[] [] [] [] [] [] [] []]; vm_compute; reflexivity.
Qed.

Lemma lower_char_keep c : Mapper.keep_char c = true -> lower_char c = c.
Proof.
  destruct c as [[] [] [] [] [] [] [] []]; vm_compute; intros H;
    solve [reflexivity | discriminate H].
Qed.

Lemma keep_space_normal c :
  Mapper.keep_char c = true -> (is_space c = true -> c = " "%char) ->
  normal_char c = true.
Proof.
  unfold Mapper.keep_char, normal_char. intros K S.
  destruct (is_lower c); [reflexivity|].
  destruct (is_digit c); [reflexivity|]. simpl in *.
  rewrite (S K). reflexivity.
Qed.

Lemma toLowerCase_idem s : toLowerCase (toLowerCase s) = toLowerCase s.
Proof.
  unfold toLowerCase. induction s as [|c s IH]; simpl; [reflexivity|].
  now rewrite lower_char_idem, IH.
Qed.

Lemma trimStart_lower s : trimStart (toLowerCase s) = toLowerCase (trimStart s).
Proof.
  unfold toLowerCase. induction s as [|c s IH]; simpl; [reflexivity|].
  rewrite is_space_lower. destruct (is_space c); [exact IH | reflexivity].
Qed.

Lemma map_chars_empty f s : map_chars f s = "" <-> s = "".
Proof. destruct s; simpl; split; congruence. Qed.

Lemma trimEnd_lower s : trimEnd (toLowerCase s) = toLowerCase (trimEnd s).
Proof.
  unfold toLowerCase. induction s as [|c s IH]; simpl; [reflexivity|].
  rewrite is_space_lower, IH.
  assert (E : (map_chars lower_char (trimEnd s) =? "")
              = (trimEnd s =? "")).
  { destruct (trimEnd s); reflexivity. }
  rewrite E. destruct (is_space c && (trimEnd s =? "")); reflexivity.
Qed.

Lemma trim_lower s : trim (toLowerCase s) = toLowerCase (trim s).
Proof. unfold trim. now rewrite trimStart_lower, trimEnd_lower. Qed.

Lemma trimStart_starts_plain s : starts_plain (trimStart s) = true.
Proof.
  induction s as [|c s IH]; simpl; [reflexivity|].
  destruct (is_space c) eqn:E; [exact IH | simpl; now rewrite E].
Qed.

Lemma starts_plain_trimStart s : starts_plain s = true -> trimStart s = s.
Proof.
  destruct s as [|c s]; simpl; [reflexivity|].
  intros H. apply negb_true_iff in H. now rewrite H.
Qed.

Lemma trimEnd_starts_plain s :
  starts_plain s = true -> starts_plain (trimEnd s) = true.
Proof.
  destruct s as [|c s]; simpl; [reflexivity|].
  intros H. apply negb_true_iff in H. rewrite H. simpl. now rewrite H.
Qed.

Lemma trimEnd_ends_plain s : ends_plain (trimEnd s) = true.
Proof.
  induction s as [|c s IH]; simpl; [reflexivity|].
  destruct (trimEnd s) as [|d r] eqn:E.
  - rewrite andb_true_r. destruct (is_space c) eqn:S; simpl;
      [reflexivity | now rewrite S].
  - rewrite andb_false_r. exact IH.
Qed.

Lemma ends_plain_trimEnd s : ends_plain s = true -> trimEnd s = s.
Proof.
  induction s as [|c s IH]; simpl; [reflexivity|].
  destruct s as [|d r].
  - intros H. apply negb_true_iff in H. simpl. now rewrite H.
  - intros H. rewrite (IH H). now rewrite andb_false_r.
Qed.

Lemma trim_starts_plain s : starts_plain (trim s) = true.
Proof. apply trimEnd_starts_plain, trimStart_starts_plain. Qed.

Lemma trim_ends_plain s : ends_plain (trim s) = true.
Proof. apply trimEnd_ends_plain. Qed.

Lemma trim_fixed s :
  starts_plain s = true -> ends_plain s = true -> trim s = s.
Proof.
  intros A B. unfold trim. rewrite (starts_plain_trimStart _ A).
  now apply ends_plain_trimEnd.
Qed.

Lemma trim_idem s : trim (trim s) = trim s.
Proof. apply trim_fixed; [apply trim_starts_plain | apply trim_ends_plain]. Qed.

Lemma all_chars_filter p s : all_chars p (filter_chars p s) = true.
Proof.
  induction s as [|c s IH]; simpl; [reflexivity|].
  destruct (p c) eqn:E; simpl; [now rewrite E | exact IH].
Qed.

Lemma filter_chars_all p s : all_chars p s = true -> filter_chars p s = s.
Proof.
  induction s as [|c s IH]; simpl; [reflexivity|].
  intros H. apply andb_true_iff in H. destruct H as [-> H].
  now rewrite IH.
Qed.

Lemma map_chars_fixed f p s :
  (forall c, p c = true -> f c = c) -> all_chars p s = true ->
  map_chars f s = s.
Proof.
  intros F. induction s as [|c s IH]; simpl; [reflexivity|].
  intros H. apply andb_true_iff in H. destruct H as [Hc H].
  now rewrite (F c Hc), IH.
Qed.

Lemma all_chars_collapse b s :
  all_chars Mapper.keep_char s = true ->
  all_chars Mapper.keep_char (collapse_spaces b s) = true.
Proof.
  revert b. induction s as [|c s IH]; intros b; simpl; [reflexivity|].
  intros H. apply andb_true_iff in H. destruct H as [Hc H].
  destruct (is_space c); [destruct b|].
  - now apply IH.
  - change (all_chars Mapper.keep_char (collapse_spaces true s) = true).
    now apply IH.
  - simpl. rewrite Hc. now apply IH.
Qed.

Lemma all_chars_trimStart p s :
  all_chars p s = true -> all_chars p (trimStart s) = true.
Proof.
  induction s as [|c s IH]; simpl; [reflexivity|].
  intros H. destruct (is_space c); [|exact H].
  apply andb_true_iff in H. now apply IH.
Qed.

Lemma all_chars_trimEnd p s :
  all_chars p s = true -> all_chars p (trimEnd s) = true.
Proof.
  induction s as [|c s IH]; simpl; [reflexivity|].
  intros H. apply andb_true_iff in H. destruct H as [Hc H].
  destruct (is_space c && (trimEnd s =? "")); simpl; [reflexivity|].
  rewrite Hc. now apply IH.
Qed.

Lemma all_chars_trim p s : all_chars p s = true -> all_chars p (trim s) = true.
Proof. intros H. now apply all_chars_trimEnd, all_chars_trimStart. Qed.

Lemma single_spaced_collapse s : forall b,
  single_spaced b (collapse_spaces b s) = true.
Proof.
  induction s as [|c s IH]; intros b; simpl; [reflexivity|].
  destruct (is_space c) eqn:E.
  - destruct b; [apply IH|]. simpl. apply IH.
  - simpl. rewrite E. apply IH.
Qed.

Lemma collapse_single_spaced s : forall b,
  single_spaced b s = true -> collapse_spaces b s = s.
Proof.
  induction s as [|c s IH]; intros b; simpl; [reflexivity|].
  destruct (is_space c).
  - intros H. apply andb_true_iff in H. destruct H as [H Hs].
    apply andb_true_iff in H. destruct H as [Hc Hb].
    apply negb_true_iff in Hb. subst b.
    apply Ascii.eqb_eq in Hc. subst c. now rewrite (IH true Hs).
  - intros H. now rewrite (IH false H).
Qed.

Lemma single_spaced_weaken s : forall b,
  single_spaced b s = true -> single_spaced false s = true.
Proof.
  destruct s as [|c s]; intros b; simpl; [reflexivity|].
  destruct (is_space c); [|auto].
  intros H. apply andb_true_iff in H. destruct H as [H Hs].
  apply andb_true_iff in H. destruct H as [-> _]. exact Hs.
Qed.

Lemma single_spaced_trimStart s : forall b,
  single_spaced b s = true -> single_spaced false (trimStart s) = true.
Proof.
  induction s as [|c s IH]; intros b; simpl; [reflexivity|].
  destruct (is_space c) eqn:E.
  - intros H. apply andb_true_iff in H. destruct H as [_ Hs].
    now apply (IH true).
  - intros H. simpl. now rewrite E.
Qed.

Lemma single_spaced_trimEnd s : forall b,
  single_spaced b s = true -> single_spaced b (trimEnd s) = true.
Proof.
  induction s as [|c s IH]; intros b; simpl; [reflexivity|].
  destruct (is_space c) eqn:E; simpl.
  - intros H. apply andb_true_iff in H. destruct H as [H Hs].
    destruct (trimEnd s =? ""); [reflexivity|]. simpl.
    rewrite E, H. now apply IH.
  - intros H. rewrite E. now apply IH.
Qed.

Lemma single_spaced_normal s : forall b,
  single_spaced b s = true -> all_chars Mapper.keep_char s = true ->
  all_chars normal_char s = true.
Proof.
  induction s as [|c s IH]; intros b; simpl; [reflexivity|].
  intros H K. apply andb_true_iff in K. destruct K as [Kc K].
  destruct (is_space c) eqn:E.
  - apply andb_true_iff in H. destruct H as [H Hs].
    apply andb_true_iff in H. destruct H as [Hc _].
    apply Ascii.eqb_eq in Hc. subst c. simpl. now apply (IH true).
  - rewrite (keep_space_normal c Kc); [|congruence]. now apply (IH false).
Qed.

Lemma normalizeHeader_keep h :
  all_chars Mapper.keep_char (Mapper.normalizeHeader h) = true.
Proof.
  unfold Mapper.normalizeHeader.
  apply all_chars_trim, all_chars_collapse, all_chars_filter.
Qed.

Lemma normalizeHeader_single_spaced h :
  single_spaced false (Mapper.normalizeHeader h) = true.
Proof.
  unfold Mapper.normalizeHeader, trim.
  apply single_spaced_trimEnd, (single_spaced_trimStart _ false),
    single_spaced_collapse.
Qed.

(** X1.  The result of [normalizeHeader] holds only [a-z], [0-9] and single
    spaces, and neither begins nor ends with a space. *)
Theorem normalizeHeader_normal_form h :
  all_chars normal_char (Mapper.normalizeHeader h) = true
  /\ single_spaced false (Mapper.normalizeHeader h) = true
  /\ starts_plain (Mapper.normalizeHeader h) = true
  /\ ends_plain (Mapper.normalizeHeader h) = true.
Proof.
  split; [|split; [|split]].
  - apply (single_spaced_normal _ false);
      [apply normalizeHeader_single_spaced | apply normalizeHeader_keep].
  - apply normalizeHeader_single_spaced.
  - apply trim_starts_plain.
  - apply trim_ends_plain.
Qed.

(** X2.  Normalizing a normalized header changes nothing. *)
Theorem normalizeHeader_idempotent h :
  Mapper.normalizeHeader (Mapper.normalizeHeader h) = Mapper.normalizeHeader h.
Proof.
  assert (L : toLowerCase (Mapper.normalizeHeader h)
              = Mapper.normalizeHeader h).
  { apply (map_chars_fixed _ Mapper.keep_char);
      [apply lower_char_keep | apply normalizeHeader_keep]. }
  assert (T : trim (Mapper.normalizeHeader h) = Mapper.normalizeHeader h).
  { apply trim_idem. }
  unfold Mapper.normalizeHeader at 1.
  rewrite L, (filter_chars_all _ _ (normalizeHeader_keep h)).
  rewrite (collapse_single_spaced _ _ (normalizeHeader_single_spaced h)).
  exact T.
Qed.

End TextFacts.

(** ** Status normalization, again *)

Section NormalizerIdempotence.
Import JsString Normalizers.

Lemma clean_fixed v : trim (toLowerCase (trim (toLowerCase v)))
                      = trim (toLowerCase v).
Proof. now rewrite <- trim_lower, toLowerCase_idem, trim_idem. Qed.

Lemma table_value_fixed (table : JsMap.t string) k v :
  forallb (fun e => (trim (toLowerCase (snd e)) =? snd e)
                    && (lookup_or table (snd e) =? snd e)) table = true ->
  JsMap.get k table = Some v ->
  trim (toLowerCase v) = v /\ lookup_or table v = v.
Proof.
  intros F G. apply get_In in G.
  rewrite forallb_forall in F. specialize (F _ G). simpl in F.
  apply andb_true_iff in F. destruct F as [A B].
  apply String.eqb_eq in A. apply String.eqb_eq in B. now split.
Qed.

Lemma lookup_or_idem (table : JsMap.t string) v :
  forallb (fun e => (trim (toLowerCase (snd e)) =? snd e)
                    && (lookup_or table (snd e) =? snd e)) table = true ->
  lookup_or table
    (trim (toLowerCase (lookup_or table (trim (toLowerCase v)))))
  = lookup_or table (trim (toLowerCase v)).
Proof.
  intros F.
  assert (E : lookup_or table (trim (toLowerCase v))
              = match JsMap.get (trim (toLowerCase v)) table with
                | Some c => c
                | None => trim (toLowerCase v)
                end) by reflexivity.
  destruct (JsMap.get (trim (toLowerCase v)) table) as [c|] eqn:G;
    rewrite E.
  - destruct (table_value_fixed table _ _ F G) as [A B]. now rewrite A.
  - rewrite clean_fixed. exact E.
Qed.

(** On the tables' own entries, a status that has been normalized is left
    as it is by a second normalization for the same source. *)
Lemma normalizeStatus_idempotent value source :
  normalizeStatus (normalizeStatus value source) source
  = normalizeStatus value source.
Proof.
  unfold normalizeStatus.
  destruct (source =? "stripe").
  - apply lookup_or_idem. vm_compute. reflexivity.
  - destruct (source =? "calendly").
    + apply lookup_or_idem. vm_compute. reflexivity.
    + apply clean_fixed.
Qed.

(** *** The tables as plain objects *)

Lemma normalized_lower v :
  toLowerCase (trim (toLowerCase v)) = trim (toLowerCase v).
Proof. rewrite trim_lower. apply toLowerCase_idem. Qed.

Lemma lower_names_only k names :
  toLowerCase k = k ->
  existsb (String.eqb k) names
  = existsb (String.eqb k) (filter (fun u => toLowerCase u =? u) names).
Proof.
  intros L. induction names as [|u names IH]; simpl; [reflexivity|].
  destruct (toLowerCase u =? u) eqn:E; simpl; [now rewrite IH|].
  rewrite IH. destruct (k =? u) eqn:K; [|reflexivity].
  apply String.eqb_eq in K. subst u.
  rewrite L, String.eqb_refl in E. discriminate E.
Qed.

(** The inherited names that a lowercased key can reach. *)
Lemma inherited_lower k :
  toLowerCase k = k ->
  existsb (String.eqb k) ObjectLookup.Object_prototype
  = (k =? "constructor") || (k =? "__proto__").
Proof.
  intros L. rewrite (lower_names_only k _ L).
  assert (E : filter (fun u => toLowerCase u =? u)
                ObjectLookup.Object_prototype
              = ["constructor"; "__proto__"]) by (vm_compute; reflexivity).
  rewrite E. cbn [existsb]. now rewrite orb_false_r.
Qed.

Lemma object_lookup_or (table : JsMap.t string) k :
  toLowerCase k = k ->
  JsMap.get "constructor" table = None ->
  JsMap.get "__proto__" table = None ->
  ObjectLookup.lookup_or table k
  = if (k =? "constructor") || (k =? "__proto__")
    then ObjectLookup.Member k
    else ObjectLookup.Str (lookup_or table k).
Proof.
  intros L G1 G2.
  unfold ObjectLookup.lookup_or, ObjectLookup.member, lookup_or.
  destruct (JsMap.get k table) as [c|] eqn:G.
  - destruct (k =? "constructor") eqn:E1;
      [apply String.eqb_eq in E1; congruence|].
    destruct (k =? "__proto__") eqn:E2;
      [apply String.eqb_eq in E2; congruence|].
    reflexivity.
  - rewrite (inherited_lower k L).
    now destruct ((k =? "constructor") || (k =? "__proto__")).
Qed.

(** The plain-object lookup and the lookup in the own entries differ on
    the two inherited names only. *)
Lemma object_normalizeStatus value source :
  ObjectLookup.normalizeStatus value source
  = if ((source =? "stripe") || (source =? "calendly"))
       && ((trim (toLowerCase value) =? "constructor")
           || (trim (toLowerCase value) =? "__proto__"))
    then ObjectLookup.Member (trim (toLowerCase value))
    else ObjectLookup.Str (normalizeStatus value source).
Proof.
  unfold ObjectLookup.normalizeStatus, normalizeStatus. cbv zeta.
  pose proof (normalized_lower value) as L.
  destruct (source =? "stripe"); cbn [orb andb].
  - now rewrite (object_lookup_or PAYMENT_STATUS_MAP _ L eq_refl eq_refl).
  - destruct (source =? "calendly"); cbn [orb andb].
    + now rewrite (object_lookup_or BOOKING_STATUS_MAP _ L eq_refl eq_refl).
    + reflexivity.
Qed.

(** A string that [normalizeStatus] returns is in normal form and is none
    of the inherited names when the source has a table. *)
Lemma lookup_or_not_inherited (table : JsMap.t string) k :
  forallb (fun e => (trim (toLowerCase (snd e)) =? snd e)
                    && negb ((snd e =? "constructor")
                             || (snd e =? "__proto__"))) table = true ->
  trim (toLowerCase k) = k ->
  (k =? "constructor") || (k =? "__proto__") = false ->
  trim (toLowerCase (lookup_or table k)) = lookup_or table k
  /\ (lookup_or table k =? "constructor")
     || (lookup_or table k =? "__proto__") = false.
Proof.
  intros F Nk Ik. unfold lookup_or.
  destruct (JsMap.get k table) as [c|] eqn:G; [|now split].
  apply get_In in G. rewrite forallb_forall in F.
  specialize (F _ G). cbn [snd] in F.
  apply andb_true_iff in F. destruct F as [A B].
  apply String.eqb_eq in A. apply negb_true_iff in B. now split.
Qed.

(** X19.  [normalizeStatus] returns a string except when the source has
    a table (stripe, calendly) and the lowercased, trimmed value is
    [constructor] or [__proto__]: it then returns the member that the
    table inherits under that name, and normalizing that result again
    raises a [TypeError].  A string that it returns is the one computed
    on the table's own entries, and a second normalization for the same
    source returns it unchanged. *)
Theorem normalizeStatus_fixes_its_string_results
    (value : string) (source : string) :
  match ObjectLookup.normalizeStatus value source with
  | ObjectLookup.Str s =>
      s = normalizeStatus value source
      /\ ObjectLookup.normalizeStatus s source = ObjectLookup.Str s
      /\ ObjectLookup.normalizeStatus_twice value source
         = Some (ObjectLookup.Str s)
  | ObjectLookup.Member k =>
      k = trim (toLowerCase value)
      /\ (k = "constructor" \/ k = "__proto__")
      /\ (source = "stripe" \/ source = "calendly")
      /\ ObjectLookup.normalizeStatus_twice value source = None
  end
  /\ ((source = "stripe" \/ source = "calendly") ->
      (trim (toLowerCase value) = "constructor"
       \/ trim (toLowerCase value) = "__proto__") ->
      ObjectLookup.normalizeStatus value source
      = ObjectLookup.Member (trim (toLowerCase value))).
Proof.
  pose proof (object_normalizeStatus value source) as E.
  set (k := trim (toLowerCase value)) in *.
  split.
  - unfold ObjectLookup.normalizeStatus_twice.
    destruct ((source =? "stripe") || (source =? "calendly")) eqn:T;
      destruct ((k =? "constructor") || (k =? "__proto__")) eqn:I;
      cbn [andb] in E; rewrite E.
    + split; [reflexivity|]. split; [|split; [|reflexivity]].
      * apply orb_true_iff in I.
        destruct I as [I|I]; apply String.eqb_eq in I; auto.
      * apply orb_true_iff in T.
        destruct T as [T|T]; apply String.eqb_eq in T; auto.
    + assert (R : ObjectLookup.normalizeStatus (normalizeStatus value source)
                    source
                  = ObjectLookup.Str (normalizeStatus value source)).
      { rewrite object_normalizeStatus, normalizeStatus_idempotent, T.
        cbn [andb].
        assert (N : (trim (toLowerCase (normalizeStatus value source))
                     =? "constructor")
                    || (trim (toLowerCase (normalizeStatus value source))
                        =? "__proto__") = false).
        { unfold normalizeStatus. cbv zeta. fold k.
          pose proof (clean_fixed value) as Nk. fold k in Nk.
          destruct (source =? "stripe").
          - destruct (lookup_or_not_inherited PAYMENT_STATUS_MAP k)
              as [A B]; [vm_compute; reflexivity | exact Nk | exact I |].
            now rewrite A.
          - destruct (source =? "calendly"); [|discriminate T].
            destruct (lookup_or_not_inherited BOOKING_STATUS_MAP k)
              as [A B]; [vm_compute; reflexivity | exact Nk | exact I |].
            now rewrite A. }
        now rewrite N. }
      split; [reflexivity|]. split; [exact R | now rewrite R].
    + assert (R : ObjectLookup.normalizeStatus (normalizeStatus value source)
                    source
                  = ObjectLookup.Str (normalizeStatus value source)).
      { rewrite object_normalizeStatus, normalizeStatus_idempotent, T.
        reflexivity. }
      split; [reflexivity|]. split; [exact R | now rewrite R].
    + assert (R : ObjectLookup.normalizeStatus (normalizeStatus value source)
                    source
                  = ObjectLookup.Str (normalizeStatus value source)).
      { rewrite object_normalizeStatus, normalizeStatus_idempotent, T.
        reflexivity. }
      split; [reflexivity|]. split; [exact R | now rewrite R].
  - intros Hs Hk. rewrite E.
    assert (T : (source =? "stripe") || (source =? "calendly") = true).
    { apply orb_true_iff. destruct Hs as [->| ->]; [left | right];
        reflexivity. }
    assert (I : (k =? "constructor") || (k =? "__proto__") = true).
    { apply orb_true_iff. destruct Hk as [Hk|Hk]; rewrite Hk;
        [left | right]; reflexivity. }
    now rewrite T, I.
Qed.

End NormalizerIdempotence.

(** ** The shape of the suggestions *)

Section SuggestionShape.
Import JsString Mapper Spec SuggestionSpec.

Lemma cands_band rows h f c :
  In c (cands rows h f) ->
  field c = key f /\ confidence_band (mmatchType c) (mconfidence c).
Proof.
  unfold cands.
  destruct ((normalizeHeader h =? normalizeHeader (key f))
            || (normalizeHeader h =? normalizeHeader (label f))).
  { intros [<-|[]]. simpl. auto. }
  destruct (existsb (fun alias => normalizeHeader alias =? normalizeHeader h)
              (aliases f)).
  { intros [<-|[]]. simpl. auto. }
  intros H. apply in_app_or in H. destruct H as [H|H].
  - destruct (Qltb (6 # 10) (maxSim (normalizeHeader h) f)) eqn:E;
      [|contradiction].
    destruct H as [<-|[]]. simpl. split; [reflexivity|].
    apply Qltb_lt in E. split.
    + apply Q.min_glb_lt; [assumption | reflexivity].
    + apply Q.le_min_r.
  - destruct (samplePattern f) as [pattern|]; [|contradiction].
    destruct (Qltb (3 # 10) (checkSamplePattern rows h pattern)) eqn:E;
      [|contradiction].
    destruct H as [<-|[]]. simpl. split; [reflexivity|].
    apply Qltb_lt in E. split; [assumption | apply checkSamplePattern_le].
Qed.

Lemma resolved_from_first_pass fs hs rows h m :
  JsMap.get h
    (fold_left resolve_step (groupByField (firstPass fs rows hs))
       (firstPass fs rows hs)) = Some m ->
  In h hs /\ bestMatchFor fs rows h = Some m
  /\ winner_is (firstPass fs rows hs) (field m) h = true.
Proof.
  rewrite suggest_get.
  destruct (existsb (String.eqb h) hs) eqn:Ex; [|discriminate].
  destruct (bestMatchFor fs rows h) as [m'|]; [|discriminate].
  destruct (winner_is (firstPass fs rows hs) (field m') h) eqn:W;
    [|discriminate].
  intros [= <-]. split; [|auto].
  apply existsb_exists in Ex. destruct Ex as (x & Hx & E).
  apply String.eqb_eq in E. now subst.
Qed.

Lemma suggestion_well_shaped csvHeaders schema sampleRows s :
  In s (generateMappingSuggestions csvHeaders schema sampleRows) ->
  well_shaped schema s.
Proof.
  unfold generateMappingSuggestions, suggestWith. intros Hs.
  apply in_map_iff in Hs.
  destruct Hs as (h & <- & Hh). unfold well_shaped, suggestionFor.
  destruct (JsMap.get h _) as [m|] eqn:G; simpl; [|auto].
  apply resolved_from_first_pass in G. destruct G as (_ & B & _).
  destruct (bestMatchFor_Some _ _ _ _ B) as (_ & (f & Hf & Hc) & _).
  destruct (cands_band _ _ _ _ Hc) as [Fk Bd]. split; [|exact Bd].
  exists f. split; [|exact Fk].
  apply (Permutation_in _ (Permutation_sym (sortFields_perm _))).
  assumption.
Qed.

(** X5.  The suggestions come one per header, in the order of the headers;
    each one is unmapped with confidence 0, or names a field of the schema
    with a confidence in the band of its match type: 1 for an exact match,
    0.95 for an alias, above 0.6 and at most 0.9 for a similarity, above
    0.3 and at most 0.85 for a sample pattern. *)
Theorem suggestions_follow_headers_and_bands
    (csvHeaders : list string) (schema : SourceSchema)
    (sampleRows : list Row) :
  map csvHeader (generateMappingSuggestions csvHeaders schema sampleRows)
  = csvHeaders
  /\ Forall (well_shaped schema)
       (generateMappingSuggestions csvHeaders schema sampleRows).
Proof.
  split.
  - unfold generateMappingSuggestions, suggestWith.
    rewrite map_map. rewrite <- (map_id csvHeaders) at 2.
    apply map_ext. intros h. apply suggestionFor_header.
  - apply Forall_forall. intros s. apply suggestion_well_shaped.
Qed.

Lemma field_has_winner fs hs rows h m :
  In h hs -> bestMatchFor fs rows h = Some m ->
  exists h' m',
    In h' hs /\ bestMatchFor fs rows h' = Some m' /\ field m' = field m
    /\ mconfidence m <= mconfidence m'
    /\ winner_is (firstPass fs rows hs) (field m) h' = true.
Proof.
  intros Hh B. set (hs0 := firstPass fs rows hs).
  assert (G0 : JsMap.get h hs0 = Some m).
  { unfold hs0. rewrite firstPass_get.
    now rewrite (proj2 (existsb_eqb_In h hs) Hh). }
  pose proof (In_group_of hs0 (field m) h _ G0 eq_refl) as I.
  pose proof (ordered_perm (group_of hs0 (field m))) as P.
  destruct (ordered (group_of hs0 (field m))) as [|w r] eqn:O.
  { apply Permutation_sym, Permutation_nil in P. rewrite P in I.
    contradiction. }
  assert (Hw : In w (group_of hs0 (field m))).
  { apply (Permutation_in _ (Permutation_sym P)). now left. }
  destruct (group_of_In hs0 (field m) w (firstPass_NoDup _ _ _) Hw)
    as (mw & Gw & Fw & Ew).
  exists (cheader w), mw.
  unfold hs0 in Gw. rewrite firstPass_get in Gw.
  destruct (existsb (String.eqb (cheader w)) hs) eqn:Ex; [|discriminate].
  repeat split; try assumption.
  - apply existsb_exists in Ex. destruct Ex as (x & Hx & E).
    apply String.eqb_eq in E. now subst.
  - pose proof (ordered_head _ _ _ O _ I) as L. simpl in L.
    rewrite Ew in L. exact L.
  - unfold winner_is. fold hs0. rewrite O. apply String.eqb_refl.
Qed.

(** X6.  Conflict resolution loses no field and keeps the best header: when
    the first pass matches a header to a field, the returned list has a
    suggestion for that field whose confidence is at least that of the
    header's match. *)
Theorem matched_field_stays_mapped
    (csvHeaders : list string) (schema : SourceSchema)
    (sampleRows : list Row) (h : string) (m : Match) :
  In h csvHeaders ->
  bestMatchFor (sortFields (fields schema)) sampleRows h = Some m ->
  exists s,
    In s (generateMappingSuggestions csvHeaders schema sampleRows)
    /\ schemaField s = Some (field m)
    /\ mconfidence m <= confidence s.
Proof.
  intros Hh B.
  destruct (field_has_winner _ _ _ _ _ Hh B)
    as (h' & m' & Hh' & B' & F & L & W).
  unfold generateMappingSuggestions, suggestWith.
  eexists. split; [apply in_map; exact Hh'|].
  unfold suggestionFor. rewrite suggest_get.
  rewrite (proj2 (existsb_eqb_In h' csvHeaders) Hh'), B', F, W. simpl.
  now rewrite F.
Qed.

End SuggestionShape.

(** ** From suggestions to a mapping *)

Section MappingOfSuggestions.
Import JsString Mapper Spec SuggestionSpec.

Lemma suggestionsToMapping_fold (F : string -> MappingSuggestion) l :
  (forall s, In s l -> s = F (csvHeader s)) ->
  forall acc h,
    JsMap.get h
      (fold_left
         (fun mapping s =>
            match schemaField s with
            | Some f => if truthy f then JsMap.set (csvHeader s) f mapping
                        else mapping
            | None => mapping
            end) l acc)
    = if existsb (fun s => csvHeader s =? h) l
      then match mapping_entry (F h) with
           | Some k => Some k
           | None => JsMap.get h acc
           end
      else JsMap.get h acc.
Proof.
  induction l as [|s l IH]; intros HF acc h; simpl; [reflexivity|].
  rewrite IH by (intros x Hx; apply HF; now right).
  assert (Es : s = F (csvHeader s)) by (apply HF; now left).
  destruct (csvHeader s =? h) eqn:E; simpl.
  - apply String.eqb_eq in E. rewrite E in Es.
    assert (A : JsMap.get h
                  match schemaField s with
                  | Some f => if truthy f then JsMap.set (csvHeader s) f acc
                              else acc
                  | None => acc
                  end
                = match mapping_entry (F h) with
                  | Some k => Some k
                  | None => JsMap.get h acc
                  end).
    { rewrite <- Es. unfold mapping_entry.
      destruct (schemaField s) as [f|]; [|reflexivity].
      destruct (truthy f); [|reflexivity].
      rewrite E. apply get_set_eq. }
    rewrite A.
    destruct (existsb (fun s0 => csvHeader s0 =? h) l); [|reflexivity].
    now destruct (mapping_entry (F h)).
  - apply String.eqb_neq in E.
    assert (A : JsMap.get h
                  match schemaField s with
                  | Some f => if truthy f then JsMap.set (csvHeader s) f acc
                              else acc
                  | None => acc
                  end
                = JsMap.get h acc).
    { destruct (schemaField s) as [f|]; [|reflexivity].
      destruct (truthy f); [|reflexivity].
      now apply get_set_neq. }
    now rewrite A.
Qed.

Lemma existsb_header_map (G : string -> MappingSuggestion) h l :
  (forall x, csvHeader (G x) = x) ->
  existsb (fun s => csvHeader s =? h) (map G l) = existsb (String.eqb h) l.
Proof.
  intros HG. induction l as [|x l IH]; simpl; [reflexivity|].
  now rewrite HG, (String.eqb_sym x h), IH.
Qed.

Lemma mapping_of_suggestions_get fs hs rows h :
  JsMap.get h (suggestionsToMapping (suggestWith fs hs rows))
  = if existsb (String.eqb h) hs
    then mapping_entry
           (suggestionFor
              (fold_left resolve_step (groupByField (firstPass fs rows hs))
                 (firstPass fs rows hs)) h)
    else None.
Proof.
  unfold suggestionsToMapping, suggestWith.
  rewrite (suggestionsToMapping_fold
             (suggestionFor
                (fold_left resolve_step
                   (groupByField (firstPass fs rows hs))
                   (firstPass fs rows hs)))).
  - assert (E : existsb (fun s => csvHeader s =? h)
                  (map (suggestionFor
                          (fold_left resolve_step
                             (groupByField (firstPass fs rows hs))
                             (firstPass fs rows hs))) hs)
                = existsb (String.eqb h) hs).
    { apply existsb_header_map. apply suggestionFor_header. }
    rewrite E. destruct (existsb (String.eqb h) hs); [|reflexivity].
    now destruct (mapping_entry _).
  - intros s Hs. apply in_map_iff in Hs. destruct Hs as (x & <- & _).
    now rewrite suggestionFor_header.
Qed.

(** X8.  The mapping built from the suggestions gives each header the field
    of its suggestion, has no entry for any other header, and never sends
    two headers to the same field. *)
Theorem suggestionsToMapping_of_suggestions
    (csvHeaders : list string) (schema : SourceSchema)
    (sampleRows : list Row) :
  (forall s,
     In s (generateMappingSuggestions csvHeaders schema sampleRows) ->
     JsMap.get (csvHeader s)
       (suggestionsToMapping
          (generateMappingSuggestions csvHeaders schema sampleRows))
     = mapping_entry s)
  /\ (forall h,
        ~ In h csvHeaders ->
        JsMap.get h
          (suggestionsToMapping
             (generateMappingSuggestions csvHeaders schema sampleRows))
        = None)
  /\ (forall h1 h2 k,
        JsMap.get h1
          (suggestionsToMapping
             (generateMappingSuggestions csvHeaders schema sampleRows))
        = Some k ->
        JsMap.get h2
          (suggestionsToMapping
             (generateMappingSuggestions csvHeaders schema sampleRows))
        = Some k ->
        h1 = h2).
Proof.
  unfold generateMappingSuggestions.
  set (fs := sortFields (fields schema)).
  split; [|split].
  - intros s Hs. unfold suggestWith in Hs. apply in_map_iff in Hs.
    destruct Hs as (h & <- & Hh).
    rewrite suggestionFor_header, mapping_of_suggestions_get.
    now rewrite (proj2 (existsb_eqb_In h csvHeaders) Hh).
  - intros h Hh. rewrite mapping_of_suggestions_get.
    destruct (existsb (String.eqb h) csvHeaders) eqn:E; [|reflexivity].
    apply existsb_eqb_In in E. contradiction.
  - assert (W : forall h k,
               JsMap.get h
                 (suggestionsToMapping (suggestWith fs csvHeaders sampleRows))
               = Some k ->
               winner_is (firstPass fs sampleRows csvHeaders) k h = true).
    { intros h k G. rewrite mapping_of_suggestions_get in G.
      destruct (existsb (String.eqb h) csvHeaders); [|discriminate].
      unfold mapping_entry in G.
      destruct (schemaField (suggestionFor _ h)) as [f|] eqn:S;
        [|discriminate].
      destruct (truthy f); [|discriminate]. injection G as ->.
      now apply header_of_field in S. }
    intros h1 h2 k G1 G2.
    exact (winner_is_unique _ _ _ _ (W _ _ G1) (W _ _ G2)).
Qed.

End MappingOfSuggestions.

(** ** The sample-pattern score *)

Section SamplePatternFacts.
Import JsString Mapper SampleSpec.

Lemma sample_fold pattern h rows : forall m t,
  fold_left (sample_step pattern h) rows (m, t)
  = ((m + List.length (filter pattern (sample_values rows h)))%nat,
     (t + List.length (sample_values rows h))%nat).
Proof.
  induction rows as [|row rows IH]; intros m t.
  - simpl. now rewrite !Nat.add_0_r.
  - change (fold_left (sample_step pattern h) (row :: rows) (m, t))
      with (fold_left (sample_step pattern h) rows
              (sample_step pattern h (m, t) row)).
    unfold sample_values. simpl flat_map. fold (sample_values rows h).
    unfold sample_step. destruct (JsMap.get h row) as [s|]; simpl.
    + destruct (truthy (trim s)); simpl.
      * destruct (pattern (trim s)); rewrite IH; simpl; f_equal; lia.
      * apply IH.
    + apply IH.
Qed.

(** X4.  The score of a sample pattern is 0.85 times the share of the
    non-empty sampled cells of the column that the pattern accepts, and 0
    when the column has no non-empty sampled cell; so it lies between 0 and
    0.85. *)
Theorem checkSamplePattern_is_share_of_matches
    (sampleRows : list Row) (csvHeader : string) (pattern : string -> bool) :
  checkSamplePattern sampleRows csvHeader pattern
  = (if (List.length (sample_values sampleRows csvHeader) =? 0)%nat then 0
     else Qnat (List.length
                  (filter pattern (sample_values sampleRows csvHeader)))
          / Qnat (List.length (sample_values sampleRows csvHeader))
          * (85 # 100))
  /\ 0 <= checkSamplePattern sampleRows csvHeader pattern
  /\ checkSamplePattern sampleRows csvHeader pattern <= 85 # 100.
Proof.
  assert (E : checkSamplePattern sampleRows csvHeader pattern
              = (if (List.length (sample_values sampleRows csvHeader) =? 0)%nat
                 then 0
                 else Qnat (List.length
                              (filter pattern
                                 (sample_values sampleRows csvHeader)))
                      / Qnat (List.length
                                (sample_values sampleRows csvHeader))
                      * (85 # 100))).
  { unfold checkSamplePattern. destruct sampleRows as [|r rows];
      [reflexivity|].
    rewrite sample_fold. reflexivity. }
  split; [exact E|]. split; [|apply checkSamplePattern_le].
  rewrite E.
  destruct (List.length (sample_values sampleRows csvHeader) =? 0)%nat eqn:Z;
    [apply Qle_refl|].
  apply Nat.eqb_neq in Z.
  assert (B : 0 <= Qnat (List.length
                           (filter pattern
                              (sample_values sampleRows csvHeader)))
                   / Qnat (List.length (sample_values sampleRows csvHeader))
              <= 1).
  { apply Qnat_ratio_bounds; [lia | apply filter_length_le]. }
  apply Qmult_le_0_compat; [apply B | discriminate].
Qed.

End SamplePatternFacts.

(** ** Source detection *)

Section DetectionFacts.
Import Detect.

Lemma StronglySorted_weaken {A} (R R' : A -> A -> Prop) l :
  (forall a b, R a b -> R' a b) -> StronglySorted R l -> StronglySorted R' l.
Proof.
  intros W. induction 1 as [|x l S IH F]; constructor; [assumption|].
  rewrite Forall_forall in *. auto.
Qed.

Lemma detection_order_total (a b : DetectionResult) :
  Qle_bool (confidence b - confidence a) 0 = true
  \/ Qle_bool (confidence a - confidence b) 0 = true.
Proof.
  rewrite !cmp_le_iff.
  destruct (Qlt_le_dec (confidence a) (confidence b));
    [right; lra | left; assumption].
Qed.

Lemma detection_order_trans (a b c : DetectionResult) :
  Qle_bool (confidence b - confidence a) 0 = true ->
  Qle_bool (confidence c - confidence b) 0 = true ->
  Qle_bool (confidence c - confidence a) 0 = true.
Proof. rewrite !cmp_le_iff. intros; lra. Qed.

Lemma detectSource_sorted SCHEMAS headers sampleRows :
  StronglySorted (fun a b => confidence b <= confidence a)
    (detectSource SCHEMAS headers sampleRows).
Proof.
  unfold detectSource.
  eapply StronglySorted_weaken;
    [|apply sort_sorted;
      [exact detection_order_total | exact detection_order_trans]].
  intros a b H. now apply cmp_le_iff in H.
Qed.

Lemma detectSource_In SCHEMAS headers sampleRows r :
  In r (detectSource SCHEMAS headers sampleRows) ->
  exists entry, In entry SCHEMAS /\ r = detect_one headers sampleRows entry.
Proof.
  unfold detectSource. intros H.
  apply (Permutation_in _ (Permutation_sym (sort_perm _ _))) in H.
  apply in_map_iff in H. destruct H as (e & <- & He). now exists e.
Qed.

(** X9.  [detectSource] returns one result per registered schema, best
    first: the results are those of the schemas in some order, and no
    result has a greater confidence than one that comes before it. *)
Theorem detectSource_one_result_per_schema_best_first
    (SCHEMAS : list (Db.SourceType * SourceSchema))
    (headers : list string) (sampleRows : list Row) :
  Permutation (map (detect_one headers sampleRows) SCHEMAS)
    (detectSource SCHEMAS headers sampleRows)
  /\ List.length (detectSource SCHEMAS headers sampleRows)
     = List.length SCHEMAS
  /\ StronglySorted (fun a b => confidence b <= confidence a)
       (detectSource SCHEMAS headers sampleRows).
Proof.
  split; [apply sort_perm|]. split; [|apply detectSource_sorted].
  unfold detectSource.
  rewrite <- (Permutation_length (sort_perm _ _)). apply length_map.
Qed.

(** X10.  On the results of [detectSource] the confidence gate holds
    exactly when the best schema has a confidence of at least 0.5, every
    one of its required fields is mapped, and it is ahead of every other
    schema by at least 0.15. *)
Theorem confident_detection_beats_every_schema
    (SCHEMAS : list (Db.SourceType * SourceSchema))
    (headers : list string) (sampleRows : list Row) :
  isConfidentDetection (detectSource SCHEMAS headers sampleRows) = true
  <-> exists top rest,
        detectSource SCHEMAS headers sampleRows = top :: rest
        /\ 5 # 10 <= confidence top
        /\ requiredMapped top = requiredTotal top
        /\ Forall (fun r => confidence r + (15 # 100) <= confidence top) rest.
Proof.
  pose proof (detectSource_sorted SCHEMAS headers sampleRows) as S.
  assert (I : forall r, In r (detectSource SCHEMAS headers sampleRows) ->
                        (requiredMapped r <= requiredTotal r)%nat).
  { intros r Hr. apply detectSource_In in Hr.
    destruct Hr as (e & _ & ->). apply detect_one_required_le. }
  destruct (detectSource SCHEMAS headers sampleRows) as [|top rest].
  { simpl. split; [discriminate | intros (t & r & E & _); discriminate]. }
  specialize (I top (or_introl eq_refl)).
  simpl. split.
  - intros H. exists top, rest. split; [reflexivity|].
    destruct (Qltb (confidence top) (5 # 10)) eqn:E1; [discriminate|].
    apply Qltb_ge in E1.
    destruct (requiredMapped top <? requiredTotal top)%nat eqn:E2;
      [discriminate|].
    apply Nat.ltb_ge in E2.
    split; [assumption|]. split; [lia|].
    destruct rest as [|runnerUp rest']; [constructor|].
    destruct (Qltb (confidence top - confidence runnerUp) (15 # 100)) eqn:E3;
      [discriminate|].
    apply Qltb_ge in E3.
    inversion S as [|? ? S' _]; subst.
    inversion S' as [|? ? _ F]; subst.
    constructor; [lra|].
    rewrite Forall_forall in *. intros r Hr. specialize (F r Hr). lra.
  - intros (t & r & E & C & R & F). injection E as <- <-.
    destruct (Qltb (confidence top) (5 # 10)) eqn:E1.
    { apply Qltb_lt in E1. lra. }
    rewrite R, Nat.ltb_irrefl.
    destruct rest as [|runnerUp rest']; [reflexivity|].
    inversion F as [|? ? Fr _]; subst.
    destruct (Qltb (confidence top - confidence runnerUp) (15 # 100)) eqn:E3;
      [|reflexivity].
    apply Qltb_lt in E3. lra.
Qed.

End DetectionFacts.

(** ** The range of the detection confidence *)

Section DetectionRange.
Import Mapper Spec SuggestionSpec.

Lemma Qnat_S n : Qnat (S n) == Qnat n + 1.
Proof.
  unfold Qnat. rewrite Nat2Z.inj_succ. unfold Z.succ.
  now rewrite inject_Z_plus.
Qed.

Lemma band_range mt q : confidence_band mt q -> 0 <= q /\ q <= 1.
Proof.
  destruct mt; simpl; try (intros ->; split; discriminate);
    try (intros [A B]; split; lra).
  contradiction.
Qed.

Lemma well_shaped_range schema s :
  well_shaped schema s -> 0 <= Csv.confidence s /\ Csv.confidence s <= 1.
Proof.
  unfold well_shaped. destruct (schemaField s).
  - intros [_ B]. exact (band_range _ _ B).
  - intros [-> _]. split; discriminate.
Qed.

Lemma sum_confidence_range (l : list MappingSuggestion) :
  (forall s, In s l -> 0 <= Csv.confidence s /\ Csv.confidence s <= 1) ->
  forall acc,
    acc <= fold_left (fun sum s => sum + Csv.confidence s) l acc
    /\ fold_left (fun sum s => sum + Csv.confidence s) l acc
       <= acc + Qnat (List.length l).
Proof.
  induction l as [|s l IH]; intros H acc.
  - simpl. change (Qnat 0) with 0. split; lra.
  - change (fold_left (fun sum s0 => sum + Csv.confidence s0) (s :: l) acc)
      with (fold_left (fun sum s0 => sum + Csv.confidence s0) l
              (acc + Csv.confidence s)).
    destruct (IH (fun x Hx => H x (or_intror Hx)) (acc + Csv.confidence s))
      as [A B].
    destruct (H s (or_introl eq_refl)) as [C D].
    change (List.length (s :: l)) with (S (List.length l)).
    rewrite Qnat_S. split; lra.
Qed.

Lemma mapped_fields_NoDup fs hs rows (l : list string) :
  NoDup l ->
  NoDup
    (map schemaField
       (filter Detect.is_mapped
          (map (suggestionFor
                  (fold_left resolve_step
                     (groupByField (firstPass fs rows hs))
                     (firstPass fs rows hs))) l))).
Proof.
  induction 1 as [|x l Hx ND IH]; simpl; [constructor|].
  destruct (Detect.is_mapped (suggestionFor _ x)) eqn:M; [|exact IH].
  simpl. constructor; [|exact IH].
  intros I. apply in_map_iff in I. destruct I as (s & E & Hs).
  apply filter_In in Hs. destruct Hs as [Hs _].
  apply in_map_iff in Hs. destruct Hs as (y & <- & Hy).
  unfold Detect.is_mapped in M.
  destruct (schemaField (suggestionFor _ x)) as [k|] eqn:Sx; [|discriminate].
  apply header_of_field in Sx. apply header_of_field in E.
  apply Hx. now rewrite (winner_is_unique _ _ _ _ Sx E).
Qed.

Lemma mapped_count_le csvHeaders schema sampleRows :
  NoDup csvHeaders ->
  (List.length
     (filter Detect.is_mapped
        (generateMappingSuggestions csvHeaders schema sampleRows))
   <= List.length (fields schema))%nat.
Proof.
  intros ND.
  rewrite <- (length_map schemaField),
    <- (length_map (fun f => Some (key f)) (fields schema)).
  apply NoDup_incl_length.
  - unfold generateMappingSuggestions, suggestWith.
    now apply mapped_fields_NoDup.
  - intros o Ho. apply in_map_iff in Ho. destruct Ho as (s & <- & Hs).
    apply filter_In in Hs. destruct Hs as [Hs M].
    apply suggestion_well_shaped in Hs. unfold well_shaped in Hs.
    unfold Detect.is_mapped in M.
    destruct (schemaField s) as [k|]; [|discriminate].
    destruct Hs as [(f & Hf & ->) _].
    apply in_map_iff. now exists f.
Qed.

(** X11.  For a file whose headers are distinct and a schema that has at
    least one field, the confidence that [detectSource] computes lies
    between 0 and 1, and no more columns are mapped than the schema has
    fields. *)
Theorem detection_confidence_in_unit_interval
    (headers : list string) (sampleRows : list Row)
    (entry : Db.SourceType * SourceSchema) :
  NoDup headers -> fields (snd entry) <> [] ->
  0 <= Detect.confidence (Detect.detect_one headers sampleRows entry)
  /\ Detect.confidence (Detect.detect_one headers sampleRows entry) <= 1
  /\ (Detect.mappedCount (Detect.detect_one headers sampleRows entry)
      <= List.length (fields (snd entry)))%nat.
Proof.
  destruct entry as [k schema]. simpl snd. intros ND NE.
  pose proof (mapped_count_le headers schema sampleRows ND) as LE.
  assert (R : forall s,
             In s (filter Detect.is_mapped
                     (generateMappingSuggestions headers schema sampleRows)) ->
             0 <= Csv.confidence s /\ Csv.confidence s <= 1).
  { intros s Hs. apply filter_In in Hs. destruct Hs as [Hs _].
    eapply well_shaped_range, suggestion_well_shaped, Hs. }
  pose proof (sum_confidence_range _ R 0) as SUM.
  unfold Detect.detect_one. simpl.
  set (mapped := filter Detect.is_mapped
                   (generateMappingSuggestions headers schema sampleRows))
    in *.
  set (total := fold_left (fun sum s => sum + Csv.confidence s) mapped 0)
    in *.
  set (requiredFields := filter required (fields schema)).
  set (rm := List.length
               (filter (fun f => existsb (fun s => Detect.field_is s (key f))
                                   mapped) requiredFields)).
  assert (Lf : (0 < List.length (fields schema))%nat).
  { destruct (fields schema); [congruence | simpl; lia]. }
  assert (Cov : 0 <= Qnat (List.length mapped)
                     / Qnat (List.length (fields schema)) <= 1)
    by (apply Qnat_ratio_bounds; assumption).
  assert (Avg : 0 <= (if (0 <? List.length mapped)%nat
                      then total / Qnat (List.length mapped) else 0)
                /\ (if (0 <? List.length mapped)%nat
                    then total / Qnat (List.length mapped) else 0) <= 1).
  { destruct (0 <? List.length mapped)%nat eqn:E; [|split; discriminate].
    apply Nat.ltb_lt in E. pose proof (Qnat_pos _ E) as P. split.
    - apply Qle_shift_div_l; [assumption|]. lra.
    - apply Qle_shift_div_r; [assumption|]. lra. }
  assert (Rc : 0 <= (if (0 <? List.length requiredFields)%nat
                     then Qnat rm / Qnat (List.length requiredFields) else 1)
               /\ (if (0 <? List.length requiredFields)%nat
                   then Qnat rm / Qnat (List.length requiredFields) else 1)
                  <= 1).
  { destruct (0 <? List.length requiredFields)%nat eqn:E;
      [|split; discriminate].
    apply Nat.ltb_lt in E.
    apply Qnat_ratio_bounds; [assumption | apply filter_length_le]. }
  repeat split; [lra | lra | exact LE].
Qed.

End DetectionRange.

(** ** Mapped rows and their validation *)

Section MappedRowFacts.
Import JsString Validators RowSpec.

Lemma applyMapping_fold_None rawRow (l : JsMap.t string) : forall acc k,
  JsMap.get k
    (fold_left
       (fun mapped e =>
          JsMap.set (snd e)
            match JsMap.get (fst e) rawRow with
            | Some s => if truthy (trim s) then Some (trim s) else None
            | None => None
            end mapped) l acc) = None
  <-> JsMap.get k acc = None /\ ~ In k (map snd l).
Proof.
  induction l as [|[h t] l IH]; intros acc k; simpl; [tauto|].
  rewrite IH. simpl.
  destruct (string_dec t k) as [->|N].
  - rewrite get_set_eq. split; [intros [H _]; discriminate | tauto].
  - rewrite (get_set_neq _ _ _ _ N). tauto.
Qed.

Lemma applyMapping_fold_Some rawRow (l : JsMap.t string) : forall acc k v,
  JsMap.get k
    (fold_left
       (fun mapped e =>
          JsMap.set (snd e)
            match JsMap.get (fst e) rawRow with
            | Some s => if truthy (trim s) then Some (trim s) else None
            | None => None
            end mapped) l acc) = Some v ->
  (JsMap.get k acc = Some v /\ ~ In k (map snd l))
  \/ exists h, In (h, k) l /\ v = cell rawRow h.
Proof.
  induction l as [|[h t] l IH]; intros acc k v; simpl; [tauto|].
  intros G. apply IH in G. destruct G as [[G N]|(h' & I & E)].
  - simpl in G. destruct (string_dec t k) as [->|D].
    + rewrite get_set_eq in G. injection G as <-. right. exists h.
      split; [now left | reflexivity].
    + rewrite (get_set_neq _ _ _ _ D) in G. left. split; [assumption|].
      intros [?|?]; [contradiction | contradiction].
  - right. exists h'. split; [now right | assumption].
Qed.

Lemma cell_normal rawRow h t :
  cell rawRow h = Some t -> t <> "" /\ trim t = t.
Proof.
  unfold cell. destruct (JsMap.get h rawRow) as [s|]; [|discriminate].
  destruct (truthy (trim s)) eqn:T; [|discriminate].
  intros [= <-]. split; [now apply truthy_true | apply trim_idem].
Qed.

(** X15.  The mapped row has an entry exactly for the fields that the
    mapping targets; each entry is the cell of a header mapped to the
    field, and a cell is kept trimmed and is [null] instead of blank. *)
Theorem applyMapping_entries (rawRow : Row) (mapping : JsMap.t string) :
  (forall k,
     JsMap.get k (applyMapping rawRow mapping) = None
     <-> ~ In k (map snd mapping))
  /\ (forall k v,
        JsMap.get k (applyMapping rawRow mapping) = Some v ->
        exists h, In (h, k) mapping /\ v = cell rawRow h)
  /\ (forall k t,
        JsMap.get k (applyMapping rawRow mapping) = Some (Some t) ->
        t <> "" /\ trim t = t).
Proof.
  unfold applyMapping. split; [|split].
  - intros k. rewrite applyMapping_fold_None. simpl. tauto.
  - intros k v G. apply applyMapping_fold_Some in G.
    destruct G as [[G _]|G]; [discriminate | exact G].
  - intros k t G. apply applyMapping_fold_Some in G.
    destruct G as [[G _]|(h & _ & E)]; [discriminate|].
    symmetry in E. now apply cell_normal in E.
Qed.

Lemma applyMapping_get_unique rawRow (mapping : JsMap.t string) h k :
  NoDup (map snd mapping) -> In (h, k) mapping ->
  JsMap.get k (applyMapping rawRow mapping) = Some (cell rawRow h).
Proof.
  intros ND I.
  destruct (JsMap.get k (applyMapping rawRow mapping)) as [v|] eqn:G.
  - apply applyMapping_fold_Some in G.
    destruct G as [[G _]|(h' & I' & ->)]; [discriminate|].
    f_equal. f_equal.
    clear -ND I I'. induction mapping as [|[a b] l IH]; [contradiction|].
    simpl in ND. inversion ND as [|? ? Hn ND']; subst.
    destruct I as [E|I], I' as [E'|I'].
    + congruence.
    + injection E as -> ->. exfalso. apply Hn.
      change k with (snd (h', k)). now apply in_map.
    + injection E' as -> ->. exfalso. apply Hn.
      change k with (snd (h, k)). now apply in_map.
    + now apply IH.
  - apply applyMapping_fold_None in G. destruct G as [_ N].
    exfalso. apply N. change k with (snd (h, k)). now apply in_map.
Qed.

(** X16.  When the mapping sends one header only to a field, validation
    reads for that field the trimmed cell of the header, and the empty
    string when the row has no such cell. *)
Theorem validation_reads_the_mapped_cell
    (rawRow : Row) (mapping : JsMap.t string) (h : string)
    (f : SchemaField) :
  NoDup (map snd mapping) -> In (h, key f) mapping ->
  field_value (applyMapping rawRow mapping) f
  = match JsMap.get h rawRow with
    | Some s => trim s
    | None => ""
    end.
Proof.
  intros ND I. unfold field_value.
  rewrite (applyMapping_get_unique rawRow mapping h (key f) ND I).
  unfold cell. destruct (JsMap.get h rawRow) as [s|]; [|reflexivity].
  destruct (truthy (trim s)) eqn:T; [apply trim_idem|].
  unfold truthy in T. apply negb_false_iff, String.eqb_eq in T.
  now rewrite T.
Qed.

End MappedRowFacts.

Section ValidationShape.
Import JsString Validators RowSpec.

Variable Date_parse : string -> option string.
Variable Date_local : Z -> Z -> Z -> option string.
Variable match_date : string -> option (string * string * string).

Lemma validateField_shape r rowIndex f :
  validateField Date_parse Date_local match_date r rowIndex f = []
  \/ exists msg,
       validateField Date_parse Date_local match_date r rowIndex f
       = [{| row := rowIndex; field := key f; message := msg;
             value := Some (field_value r f) |}].
Proof.
  unfold validateField.
  destruct (truthy (field_value r f)) eqn:T.
  - rewrite andb_false_r. simpl.
    destruct (type f); try (now left);
      try (match goal with
           | |- context [if ?c then _ else _] => destruct c
           end; [right; eexists; reflexivity | now left]).
    destruct (enumValues f); [|now left].
    destruct (negb _); [right; eexists; reflexivity | now left].
  - unfold truthy in T. apply negb_false_iff, String.eqb_eq in T.
    rewrite T. simpl. rewrite andb_true_r.
    destruct (required f); [right; eexists; reflexivity | now left].
Qed.

Lemma validateField_In r rowIndex f e :
  In e (validateField Date_parse Date_local match_date r rowIndex f) ->
  row e = rowIndex /\ field e = key f /\ value e = Some (field_value r f).
Proof.
  destruct (validateField_shape r rowIndex f) as [->|(msg & ->)];
    [intros []|].
  intros [<-|[]]. auto.
Qed.

Lemma validateField_length r rowIndex f :
  (List.length (validateField Date_parse Date_local match_date r rowIndex f)
   <= 1)%nat.
Proof.
  destruct (validateField_shape r rowIndex f) as [->|(msg & ->)]; simpl; lia.
Qed.

(** X17.  Validation reports at most one error per field of the schema;
    every error carries the row index it was given, the key of a field of
    the schema and the trimmed value of that field; and when the keys of
    the schema are distinct, no field is reported twice. *)
Theorem validateMappedRow_one_error_per_field
    (r : JsMap.t (option string)) (schema : SourceSchema) (rowIndex : nat) :
  (List.length
     (validateMappedRow Date_parse Date_local match_date r schema rowIndex)
   <= List.length (fields schema))%nat
  /\ (forall e,
        In e (validateMappedRow Date_parse Date_local match_date r schema
                rowIndex) ->
        row e = rowIndex
        /\ exists f, In f (fields schema) /\ field e = key f
                     /\ value e = Some (field_value r f))
  /\ (NoDup (map key (fields schema)) ->
      NoDup (map field
               (validateMappedRow Date_parse Date_local match_date r schema
                  rowIndex))).
Proof.
  unfold validateMappedRow. split; [|split].
  - induction (fields schema) as [|f fs IH]; simpl; [lia|].
    rewrite length_app.
    pose proof (validateField_length r rowIndex f). lia.
  - intros e He. apply in_flat_map in He. destruct He as (f & Hf & He).
    apply validateField_In in He. destruct He as (A & B & C).
    split; [assumption|]. now exists f.
  - induction (fields schema) as [|f fs IH]; simpl; [constructor|].
    intros ND. inversion ND as [|? ? Hn ND']; subst.
    rewrite map_app.
    destruct (validateField_shape r rowIndex f) as [->|(msg & ->)]; simpl;
      [now apply IH|].
    constructor; [|now apply IH].
    intros I. apply in_map_iff in I. destruct I as (e & E & He).
    apply in_flat_map in He. destruct He as (g & Hg & He).
    apply validateField_In in He. destruct He as (_ & B & _).
    apply Hn. rewrite <- E, B. now apply in_map.
Qed.

Lemma unmapped_required_field_error
    (rawRow : Row) (mapping : JsMap.t string) (rowIndex : nat)
    (f : SchemaField) :
  required f = true -> ~ In (key f) (map snd mapping) ->
  validateField Date_parse Date_local match_date
    (applyMapping rawRow mapping) rowIndex f
  = [required_error rowIndex f].
Proof.
  intros R N. unfold validateField, field_value.
  assert (G : JsMap.get (key f) (applyMapping rawRow mapping) = None).
  { unfold applyMapping. apply applyMapping_fold_None. simpl. tauto. }
  rewrite G, R. reflexivity.
Qed.

(** X18.  A required field that the upload screen lists as missing, because
    the mapping sends no header to it, is reported as empty on every row,
    whatever the row holds. *)
Theorem missing_required_field_fails_every_row
    (rawRow : Row) (mapping : JsMap.t string) (schema : SourceSchema)
    (rowIndex : nat) (f : SchemaField) :
  In f (UploadMapper.missingRequired schema mapping) ->
  In f (fields schema)
  /\ validateField Date_parse Date_local match_date
       (applyMapping rawRow mapping) rowIndex f
     = [required_error rowIndex f]
  /\ In (required_error rowIndex f)
       (validateMappedRow Date_parse Date_local match_date
          (applyMapping rawRow mapping) schema rowIndex).
Proof.
  unfold UploadMapper.missingRequired, UploadMapper.usedFields.
  intros H. apply filter_In in H. destruct H as [H N].
  apply filter_In in H. destruct H as [Hf R].
  apply negb_true_iff in N.
  assert (U : ~ In (key f) (map snd mapping)).
  { intros I. apply (proj2 (existsb_eqb_In (key f) (map snd mapping))) in I.
    congruence. }
  pose proof (unmapped_required_field_error rawRow mapping rowIndex f R U)
    as E.
  split; [assumption|]. split; [exact E|].
  unfold validateMappedRow. apply in_flat_map. exists f.
  split; [assumption|]. rewrite E. now left.
Qed.

End ValidationShape.

(** ** What the validators accept *)

Section AcceptFacts.
Import JsString Validators AcceptSpec.

Lemma all_chars_app p a b :
  all_chars p (a ++ b)%string = all_chars p a && all_chars p b.
Proof.
  induction a as [|c a IH]; simpl; [reflexivity|].
  now rewrite IH, andb_assoc.
Qed.

Lemma split_at_sign_Some v l r :
  split_at_sign v = Some (l, r) -> v = (l ++ "@" ++ r)%string.
Proof.
  revert l. induction v as [|c v IH]; intros l; simpl; [discriminate|].
  destruct (c =? "@")%char eqn:E.
  - apply Ascii.eqb_eq in E. subst c. intros [= <- <-]. reflexivity.
  - destruct (split_at_sign v) as [[l' r']|]; [|discriminate].
    intros [= <- <-]. simpl. f_equal. now apply IH.
Qed.

Lemma split_at_sign_plain l r :
  all_chars plain_char l = true ->
  split_at_sign (l ++ "@" ++ r)%string = Some (l, r).
Proof.
  induction l as [|c l IH]; simpl; [reflexivity|].
  intros H. apply andb_true_iff in H. destruct H as [Hc H].
  unfold plain_char in Hc. apply andb_true_iff in Hc.
  destruct Hc as [_ Hc]. apply negb_true_iff in Hc. rewrite Hc.
  specialize (IH H). simpl in IH. now rewrite IH.
Qed.

Lemma dot_inside_split s :
  dot_inside s = true ->
  exists a t, s = (a ++ "." ++ t)%string /\ t <> "".
Proof.
  induction s as [|c s IH]; simpl; [discriminate|].
  intros H. apply orb_true_iff in H. destruct H as [H|H].
  - apply andb_true_iff in H. destruct H as [Hc Ht].
    apply Ascii.eqb_eq in Hc. subst c. exists "", s.
    split; [reflexivity | now apply truthy_true].
  - destruct (IH H) as (a & t & -> & Ht). exists (String c a), t.
    split; [reflexivity | assumption].
Qed.

Lemma dot_inside_app a t :
  t <> "" -> dot_inside (a ++ "." ++ t)%string = true.
Proof.
  intros Ht. induction a as [|c a IH]; simpl.
  - apply truthy_true in Ht. now rewrite Ht.
  - simpl in IH. rewrite IH. apply orb_true_r.
Qed.

(** X13.  [EMAIL_REGEX] accepts exactly the values made of three non-empty
    parts, without white space or [@], joined as [local@domain.tail]. *)
Theorem EMAIL_REGEX_accepts_local_at_domain_dot_tail (v : string) :
  EMAIL_REGEX_test v = true
  <-> exists l d t,
        v = (l ++ "@" ++ d ++ "." ++ t)%string
        /\ l <> "" /\ d <> "" /\ t <> ""
        /\ all_chars plain_char l = true
        /\ all_chars plain_char d = true
        /\ all_chars plain_char t = true.
Proof.
  unfold EMAIL_REGEX_test. split.
  - destruct (split_at_sign v) as [[l dom]|] eqn:S; [|discriminate].
    apply split_at_sign_Some in S. intros H.
    apply andb_true_iff in H. destruct H as [H Hdot].
    apply andb_true_iff in H. destruct H as [H Hdom].
    apply andb_true_iff in H. destruct H as [Hl Hpl].
    destruct dom as [|x r]; [discriminate|].
    destruct (dot_inside_split r Hdot) as (a & t & -> & Ht).
    exists l, (String x a), t.
    change (String x (a ++ "." ++ t))%string
      with (String x a ++ "." ++ t)%string in *.
    rewrite !all_chars_app in Hdom.
    apply andb_true_iff in Hdom. destruct Hdom as [Hd Hrest].
    apply andb_true_iff in Hrest. destruct Hrest as [_ Htl].
    repeat split; try assumption; [now apply truthy_true | discriminate].
  - intros (l & d & t & -> & Hl & Hd & Ht & Pl & Pd & Pt).
    rewrite (split_at_sign_plain _ _ Pl).
    assert (A : all_chars plain_char (d ++ "." ++ t)%string = true).
    { rewrite all_chars_app, Pd. simpl. exact Pt. }
    apply truthy_true in Hl. rewrite Hl, Pl, A.
    destruct d as [|x a]; [congruence|].
    exact (dot_inside_app a t Ht).
Qed.

Lemma negate_NaN n : negate n = NaN <-> n = NaN.
Proof. destruct n; simpl; split; congruence. Qed.

Lemma parse_unsigned_NaN s :
  parse_unsigned s = NaN <-> numeric_start s = false.
Proof.
  unfold parse_unsigned, numeric_start.
  destruct (String.prefix "Infinity" s); [split; discriminate|].
  rewrite orb_false_l.
  destruct s as [|c r]; [simpl; tauto|].
  destruct (is_digit c) eqn:D.
  - simpl. rewrite D. destruct (span_digits r) as [ds r1].
    split; [|discriminate].
    destruct (match r1 with
              | String "." r0 => span_digits r0
              | _ => ([], r1)
              end); discriminate.
  - assert (E : span_digits (String c r) = ([], String c r))
      by (simpl; now rewrite D).
    rewrite E, orb_false_l.
    destruct (Ascii.eqb_spec c ".") as [->|N].
    + destruct r as [|d r']; [simpl; tauto|].
      simpl. destruct (is_digit d).
      * destruct (span_digits r'). split; discriminate.
      * tauto.
    + simpl andb.
      assert (M : match String c r with
                  | String "." r0 => span_digits r0
                  | _ => ([], String c r)
                  end = ([], String c r)).
      { destruct c as [[] [] [] [] [] [] [] []]; try reflexivity.
        exfalso. now apply N. }
      rewrite M. tauto.
Qed.

Lemma parseFloat_NaN s :
  parseFloat s = NaN <-> numeric_start (unsigned_part s) = false.
Proof.
  unfold parseFloat, unsigned_part.
  destruct (trimStart s) as [|c r]; [apply parse_unsigned_NaN|].
  destruct c as [[] [] [] [] [] [] [] []];
    first [ apply parse_unsigned_NaN
          | rewrite negate_NaN; apply parse_unsigned_NaN ].
Qed.

(** X14.  A number or a currency amount is rejected exactly when, once
    commas and white space (and [$] for an amount) are removed and one sign
    is skipped, the text does not begin with a digit, with a dot and a
    digit, or with [Infinity]; what follows such a beginning is ignored. *)
Theorem numbers_are_accepted_by_their_beginning (v : string) :
  (parseNumber v = None
   <-> numeric_start (unsigned_part (strip_number v)) = false)
  /\ (parseCurrency v = None
      <-> numeric_start (unsigned_part (strip_currency v)) = false).
Proof.
  unfold parseNumber, parseCurrency. split.
  - rewrite <- parseFloat_NaN.
    destruct (parseFloat (strip_number v)); simpl; split; congruence.
  - rewrite <- parseFloat_NaN.
    destruct (parseFloat (strip_currency v)); simpl; split; congruence.
Qed.

End AcceptFacts.

(** ** What a stitching call writes *)

Section StitchingEffects.
Import JsString Stitching StitchSpec.
Local Open Scope nat_scope.

Lemma has_customer_same s s' i :
  customers s' = customers s -> has_customer s' i = has_customer s i.
Proof. unfold has_customer. now intros ->. Qed.

Lemma link_customers s cid src ext e n :
  customers (linkSourceToCustomer s cid src ext e n) = customers s.
Proof.
  unfold linkSourceToCustomer. now destruct (has_customer s cid).
Qed.

Lemma link_conflicts s cid src ext e n :
  stitching_conflicts (linkSourceToCustomer s cid src ext e n)
  = stitching_conflicts s.
Proof.
  unfold linkSourceToCustomer. now destruct (has_customer s cid).
Qed.

Lemma flag_customers s a b f v c i :
  customers (flagConflict s a b f v c i) = customers s.
Proof.
  unfold flagConflict. now destruct (has_customer s a && has_customer s b).
Qed.

Lemma upsert_other r rows src ext :
  source_key r <> (src, ext) ->
  filter (same_key src ext) (upsert r rows) = filter (same_key src ext) rows.
Proof.
  intros N.
  assert (F : same_key src ext r = false).
  { destruct (same_key src ext r) eqn:E; [|reflexivity].
    apply same_key_true in E. contradiction. }
  induction rows as [|r' rows IH]; simpl.
  - now rewrite F.
  - destruct (same_key (source r) (external_id r) r') eqn:K; simpl.
    + rewrite F. apply same_key_true in K.
      destruct (same_key src ext r') eqn:K'; [|reflexivity].
      apply same_key_true in K'. exfalso. apply N.
      unfold source_key in *. congruence.
    + now rewrite IH.
Qed.

Lemma link_other_links s cid src ext e n src' ext' :
  (src', ext') <> (src, ext) ->
  links_of (linkSourceToCustomer s cid src ext e n) src' ext'
  = links_of s src' ext'.
Proof.
  intros N. unfold linkSourceToCustomer, links_of.
  destruct (has_customer s cid); [|reflexivity]. simpl.
  apply upsert_other. simpl. unfold source_key. simpl. congruence.
Qed.

(** The four ways in which a call returns. *)
Lemma stitchIdentity_cases s src externalId e n r s1 :
  stitchIdentity s src externalId e n = Ok (r, s1) ->
  (byExternalId s src externalId = Some r /\ s1 = s)
  \/ (exists cid,
        r = {| customerId := cid; isNew := false; matchedBy := ByEmail |}
        /\ s1 = linkSourceToCustomer s cid src externalId e n
        /\ ((exists c, In c (customers s) /\ id c = cid)
            \/ exists row, In row (customer_sources s)
                           /\ customer_id row = cid))
  \/ (exists i s' existing by_,
        createCustomer s e n = Ok (i, s')
        /\ r = {| customerId := i; isNew := true; matchedBy := by_ |}
        /\ (s1 = linkSourceToCustomer s' i src externalId e n
            \/ s1 = flagConflict
                      (linkSourceToCustomer s' i src externalId e n)
                      existing i "name" n (6 # 10)%Q None)).
Proof.
  unfold stitchIdentity.
  destruct (byExternalId s src externalId) as [r0|] eqn:B1.
  { intros [= <- <-]. now left. }
  destruct (byEmail s src externalId e n) as [[r0 s0]|] eqn:B2.
  { intros [= <- <-]. right. left.
    unfold byEmail in B2. destruct e as [em|]; [|discriminate].
    destruct (truthy em); [|discriminate].
    destruct (findCustomerByEmail s em) as [c|] eqn:F.
    - injection B2 as <- <-. exists (id c). repeat split. left. exists c.
      split; [|reflexivity].
      unfold findCustomerByEmail in F. apply maybeSingle_Some in F.
      assert (I : In c (filter (fun c0 => in_org c0 && col_eq (email c0) em)
                          (customers s))) by (rewrite F; now left).
      now apply filter_In in I.
    - destruct (findSourceByExternalEmail s em) as [row|] eqn:F2;
        [|discriminate].
      injection B2 as <- <-. exists (customer_id row). repeat split.
      right. exists row. split; [|reflexivity].
      unfold findSourceByExternalEmail in F2. now apply find_some in F2. }
  destruct (byName s src externalId e n) as [o|] eqn:B3.
  - unfold byName in B3. destruct n as [nm|]; [|discriminate].
    destruct (truthy nm); [|discriminate].
    destruct (findCustomersByName s nm) as [[|x [|y l]]|]; try discriminate.
    destruct (emails_differ (email x) e); [|discriminate].
    injection B3 as <-. unfold bind.
    destruct (createCustomer s e (Some nm)) as [[i s']|m] eqn:C;
      [|discriminate].
    intros [= <- <-]. right. right. exists i, s', (id x), ByName.
    split; [reflexivity|]. split; [reflexivity|]. now right.
  - unfold bind.
    destruct (createCustomer s e n) as [[i s']|m] eqn:C; [|discriminate].
    intros [= <- <-]. right. right. exists i, s', 0, ByNone.
    split; [reflexivity|]. split; [reflexivity|]. now left.
Qed.

(** X20.  A call that returns leaves a store that satisfies the constraints
    of the schema, and the customer id it returns is that of a customer of
    this store. *)
Theorem stitchIdentity_returns_an_existing_customer
    s src externalId e n r s1 :
  wf_store s -> stitchIdentity s src externalId e n = Ok (r, s1) ->
  wf_store s1 /\ has_customer s1 (customerId r) = true.
Proof.
  intros WF H. split; [eapply stitchIdentity_preserves_wf; eauto|].
  apply stitchIdentity_cases in H.
  destruct H as [[B ->]|[(cid & -> & -> & I)|(i & s' & ex & by_ & C & -> & S)]].
  - unfold byExternalId in B. destruct (truthy externalId); [|discriminate].
    destruct (findSourceByExternalId s src externalId) as [row|] eqn:F;
      [|discriminate].
    injection B as <-. simpl. apply (wf_fk s WF).
    unfold findSourceByExternalId in F. apply maybeSingle_Some in F.
    assert (I : In row (filter (same_key src externalId) (customer_sources s)))
      by (rewrite F; now left).
    now apply filter_In in I.
  - simpl. rewrite (has_customer_same s _ _ (link_customers _ _ _ _ _ _)).
    destruct I as [(c & Hc & <-)|(row & Hr & <-)].
    + now apply has_customer_In.
    + now apply (wf_fk s WF).
  - simpl. apply createCustomer_has in C.
    destruct S as [->| ->].
    + now rewrite (has_customer_same s' _ _ (link_customers _ _ _ _ _ _)).
    + rewrite (has_customer_same _ _ _ (flag_customers _ _ _ _ _ _ _)).
      now rewrite (has_customer_same s' _ _ (link_customers _ _ _ _ _ _)).
Qed.

(** X21.  A call only appends: the customers are those it found, followed
    by the new customer when it reports one; at most one conflict is added
    after those it found; and the links of every other external record are
    as they were. *)
Theorem stitchIdentity_only_appends s src externalId e n r s1 :
  stitchIdentity s src externalId e n = Ok (r, s1) ->
  customers s1
  = customers s
    ++ (if isNew r
        then [{| id := customerId r; org_id := DEFAULT_ORG_ID; name := n;
                 email := e |}]
        else [])
  /\ (exists added,
        stitching_conflicts s1 = stitching_conflicts s ++ added
        /\ List.length added <= 1)
  /\ (forall src' ext',
        (src', ext') <> (src, externalId) ->
        links_of s1 src' ext' = links_of s src' ext').
Proof.
  intros H. apply stitchIdentity_cases in H.
  destruct H as [[B ->]|[(cid & -> & -> & _)|(i & s' & ex & by_ & C & -> & S)]].
  - assert (N : isNew r = false).
    { unfold byExternalId in B. destruct (truthy externalId); [|discriminate].
      destruct (findSourceByExternalId s src externalId); [|discriminate].
      now injection B as <-. }
    rewrite N, app_nil_r. split; [reflexivity|]. split; [|reflexivity].
    exists []. rewrite app_nil_r. simpl. split; [reflexivity | lia].
  - simpl. rewrite link_customers, link_conflicts, app_nil_r.
    split; [reflexivity|]. split.
    + exists []. rewrite app_nil_r. simpl. split; [reflexivity | lia].
    + intros src' ext' N. now apply link_other_links.
  - simpl. apply createCustomer_Ok in C.
    destruct C as (_ & Cc & Cs & Cf & _).
    destruct S as [->| ->].
    + rewrite link_customers, link_conflicts, Cc, Cf.
      split; [reflexivity|]. split.
      * exists []. rewrite app_nil_r. simpl. split; [reflexivity | lia].
      * intros src' ext' N. rewrite (link_other_links _ _ _ _ _ _ _ _ N).
        unfold links_of. now rewrite Cs.
    + rewrite flag_customers, link_customers, Cc.
      split; [reflexivity|]. split.
      * unfold flagConflict.
        destruct (has_customer _ ex && has_customer _ i); simpl.
        -- rewrite link_conflicts, Cf. eexists. split; [reflexivity|].
           simpl. lia.
        -- rewrite link_conflicts, Cf. exists []. rewrite app_nil_r. simpl.
           split; [reflexivity | lia].
      * intros src' ext' N.
        rewrite links_of_flagConflict, (link_other_links _ _ _ _ _ _ _ _ N).
        unfold links_of. now rewrite Cs.
Qed.

(** X22.  A row whose email is that of a customer of the organisation is
    given to that customer: unless its external id is already linked, the
    call returns the customer's id, matched by email, creates no customer
    and records the link. *)
Theorem stitchIdentity_known_email_reuses_customer
    s src externalId em n c :
  wf_store s -> In c (customers s) -> in_org c = true ->
  email c = Some em -> em <> "" ->
  externalId = "" \/ links_of s src externalId = [] ->
  stitchIdentity s src externalId (Some em) n
  = Ok ({| customerId := id c; isNew := false; matchedBy := ByEmail |},
        linkSourceToCustomer s (id c) src externalId (Some em) n)
  /\ customers (linkSourceToCustomer s (id c) src externalId (Some em) n)
     = customers s
  /\ In {| customer_id := id c; source := src; external_id := externalId;
           external_email := Some em; external_name := n |}
        (customer_sources
           (linkSourceToCustomer s (id c) src externalId (Some em) n)).
Proof.
  intros WF Hc Org Em Ne Ext.
  assert (B1 : byExternalId s src externalId = None).
  { unfold byExternalId. destruct Ext as [->|L]; [reflexivity|].
    destruct (truthy externalId); [|reflexivity].
    unfold findSourceByExternalId. unfold links_of in L. now rewrite L. }
  assert (F : findCustomerByEmail s em = Some c).
  { unfold findCustomerByEmail.
    assert (I : In c (filter (fun c0 => in_org c0 && col_eq (email c0) em)
                        (customers s))).
    { apply filter_In. split; [assumption|]. rewrite Org, Em. simpl.
      apply String.eqb_refl. }
    destruct (NoDup_all_equal
                (filter (fun c0 => in_org c0 && col_eq (email c0) em)
                   (customers s))) as [E|(x & E)].
    - apply NoDup_filter.
      pose proof (wf_ids s WF) as ND. now apply NoDup_map_inv in ND.
    - intros x y Hx Hy. apply filter_In in Hx, Hy.
      destruct Hx as [Hx Px], Hy as [Hy Py].
      apply andb_true_iff in Px, Py. destruct Px as [Ox Ex], Py as [Oy Ey].
      unfold in_org in Ox, Oy. apply String.eqb_eq in Ox, Oy.
      unfold col_eq in Ex, Ey.
      destruct (email x) as [ex|] eqn:Eqx; [|discriminate].
      destruct (email y) as [ey|] eqn:Eqy; [|discriminate].
      apply String.eqb_eq in Ex, Ey. subst ex ey.
      apply (wf_emails s WF x y em); congruence.
    - rewrite E in I. contradiction.
    - rewrite E in *. destruct I as [->|[]]. reflexivity. }
  split; [|split].
  - unfold stitchIdentity. rewrite B1. unfold byEmail.
    apply truthy_true in Ne. now rewrite Ne, F.
  - apply link_customers.
  - unfold linkSourceToCustomer. rewrite (has_customer_In s c Hc). simpl.
    clear. induction (customer_sources s) as [|r' rows IH]; simpl.
    + now left.
    + destruct (same_key src externalId r'); [now left | now right].
Qed.

End StitchingEffects.

(** ** The post-import scan *)

Section PostImportFacts.
Import JsString Stitching PostImport PostImportSpec.
Local Open Scope nat_scope.

Lemma set_add_In ids i j : In j (set_add ids i) <-> In j ids \/ j = i.
Proof.
  unfold set_add. destruct (existsb (Nat.eqb i) ids) eqn:E.
  - split; [now left|]. intros [H| ->]; [assumption|].
    apply existsb_exists in E. destruct E as (x & Hx & Ex).
    apply Nat.eqb_eq in Ex. now subst.
  - rewrite in_app_iff. simpl. intuition.
Qed.

Lemma add_rows_In rows : forall ids j,
  In j (add_rows ids rows)
  <-> In j ids \/ exists r, In r rows /\ linked_customer_id r = Some j.
Proof.
  unfold add_rows.
  induction rows as [|r rows IH]; intros ids j; simpl.
  - split; [now left | intros [H|(r & [] & _)]; assumption].
  - rewrite IH. destruct (linked_customer_id r) as [i|] eqn:E.
    + rewrite set_add_In. split.
      * intros [[H| ->]|(x & Hx & Ex)]; [now left | |].
        -- right. exists r. split; [now left | assumption].
        -- right. exists x. split; [now right | assumption].
      * intros [H|(x & [<-|Hx] & Ex)].
        -- left. now left.
        -- left. right. congruence.
        -- right. now exists x.
    + split.
      * intros [H|(x & Hx & Ex)]; [now left|].
        right. exists x. split; [now right | assumption].
      * intros [H|(x & [<-|Hx] & Ex)]; [now left | congruence |].
        right. now exists x.
Qed.

Lemma import_rows_In importId table r :
  In r (import_rows importId table) ->
  In r table
  /\ exists j, r = {| linked_customer_id := Some j;
                      linked_import_id := Some importId |}.
Proof.
  unfold import_rows. intros H. apply filter_In in H.
  destruct H as [H E]. split; [assumption|].
  destruct r as [[j|] [i|]]; simpl in E; try discriminate.
  apply Nat.eqb_eq in E. subst. now exists j.
Qed.

Lemma importCustomerIds_In db importId j :
  In j (importCustomerIds db importId) ->
  In {| linked_customer_id := Some j; linked_import_id := Some importId |}
     (payments db ++ bookings db ++ attendance db).
Proof.
  unfold importCustomerIds. simpl. rewrite !add_rows_In.
  intros [[[[]|(r & Hr & E)]|(r & Hr & E)]|(r & Hr & E)];
    apply import_rows_In in Hr; destruct Hr as [Hr (i & ->)];
    simpl in E; injection E as ->; rewrite !in_app_iff; auto.
Qed.

Lemma filter_opt_In {A} (p : A -> option bool) l : forall r x,
  filter_opt p l = Some r -> In x r -> In x l /\ p x = Some true.
Proof.
  induction l as [|a l IH]; simpl; intros r x.
  - intros [= <-] [].
  - destruct (p a) as [b|] eqn:Pa; [|discriminate].
    destruct (filter_opt p l) as [r'|]; [|discriminate].
    intros [= <-] H. destruct b.
    + destruct H as [<-|H]; [split; [now left | assumption]|].
      destruct (IH r' x eq_refl H). split; [now right | assumption].
    + destruct (IH r' x eq_refl H). split; [now right | assumption].
Qed.

Lemma nameMatches_In s c nm matches m :
  nameMatches s c nm = Some matches -> In m matches ->
  In m (customers s) /\ in_org m = true /\ ilike (name m) nm = Some true
  /\ id m <> id c.
Proof.
  unfold nameMatches.
  destruct (filter_opt _ (filter in_org (customers s))) as [r|] eqn:F;
    [|discriminate].
  simpl. intros [= <-] H. apply filter_In in H. destruct H as [H N].
  destruct (filter_opt_In _ _ _ _ F H) as [I L].
  apply filter_In in I. destruct I as [I O].
  apply negb_true_iff, Nat.eqb_neq in N. auto.
Qed.

Lemma nameMatches_same s s' c nm :
  customers s' = customers s -> nameMatches s' c nm = nameMatches s c nm.
Proof. unfold nameMatches. now intros ->. Qed.

Lemma check_match_customers importId c nm st m :
  customers (fst (check_match importId c nm st m)) = customers (fst st).
Proof.
  unfold check_match. destruct (emails_differ _ _); [|reflexivity].
  destruct (existingConflict _ _ _); [reflexivity|]. simpl.
  apply flag_customers.
Qed.

Lemma fold_check_match_customers importId c nm ms : forall st,
  customers (fst (fold_left (check_match importId c nm) ms st))
  = customers (fst st).
Proof.
  induction ms as [|m ms IH]; intros st; simpl; [reflexivity|].
  now rewrite IH, check_match_customers.
Qed.

Lemma fold_check_pair_map importId c nm ms : forall st,
  fold_left (check_pair importId) (map (fun m => (c, nm, m)) ms) st
  = fold_left (check_match importId c nm) ms st.
Proof.
  induction ms as [|m ms IH]; intros st; simpl; [reflexivity|]. apply IH.
Qed.

(** The two nested loops visit the pairs of [pairs_of] in order. *)
Lemma scan_as_pairs importId s cs : forall st,
  customers (fst st) = customers s ->
  fold_left (check_customer importId) cs st
  = fold_left (check_pair importId) (pairs_of s cs) st.
Proof.
  induction cs as [|c cs IH]; intros st E; [reflexivity|].
  unfold pairs_of. simpl flat_map. rewrite fold_left_app.
  fold (pairs_of s cs). simpl fold_left at 1.
  assert (S1 : check_customer importId st c
               = fold_left (check_pair importId)
                   match name c with
                   | Some nm =>
                       if truthy nm then
                         match nameMatches s c nm with
                         | Some matches => map (fun m => (c, nm, m)) matches
                         | None => []
                         end
                       else []
                   | None => []
                   end st).
  { unfold check_customer. destruct (name c) as [nm|]; [|reflexivity].
    destruct (truthy nm); [|reflexivity].
    rewrite (nameMatches_same s (fst st) c nm E).
    destruct (nameMatches s c nm) as [ms|]; [|reflexivity].
    now rewrite fold_check_pair_map. }
  rewrite <- S1. apply IH.
  unfold check_customer. destruct (name c) as [nm|]; [|assumption].
  destruct (truthy nm); [|assumption].
  destruct (nameMatches (fst st) c nm) as [ms|]; [|assumption].
  now rewrite fold_check_match_customers.
Qed.

Lemma pairs_of_In s cs c nm m :
  In (c, nm, m) (pairs_of s cs) ->
  In c cs /\ name c = Some nm /\ nm <> ""
  /\ In m (customers s) /\ in_org m = true
  /\ ilike (name m) nm = Some true /\ id m <> id c.
Proof.
  unfold pairs_of. intros H. apply in_flat_map in H.
  destruct H as (c' & Hc & H).
  destruct (name c') as [nm'|] eqn:N; [|contradiction].
  destruct (truthy nm') eqn:T; [|contradiction].
  destruct (nameMatches s c' nm') as [ms|] eqn:M; [|contradiction].
  apply in_map_iff in H. destruct H as (m' & [= -> -> ->] & Hm).
  destruct (nameMatches_In _ _ _ _ _ M Hm) as (A & B & C & D).
  apply truthy_true in T. auto 10.
Qed.

Lemma flagConflict_appends s a b f v q i :
  has_customer s a = true -> has_customer s b = true ->
  flagConflict s a b f v q i
  = {| customers := customers s;
       customer_sources := customer_sources s;
       stitching_conflicts :=
         stitching_conflicts s
         ++ [{| conflict_org_id := DEFAULT_ORG_ID; customer_a_id := a;
                customer_b_id := b; match_field := f; match_value := v;
                confidence := q; status := Db.Pending; import_id := i |}] |}.
Proof. unfold flagConflict. now intros -> ->. Qed.

Lemma has_customer_of s s' c :
  customers s' = customers s -> In c (customers s) ->
  has_customer s' (id c) = true.
Proof.
  intros E H. rewrite (has_customer_same s s' _ E). now apply has_customer_In.
Qed.

Lemma check_pair_extends (P : StitchingConflict -> Prop) importId s0 st c nm m :
  extends P s0 st ->
  In c (customers s0) -> In m (customers s0) ->
  (differ (c, nm, m) = true ->
   P {| conflict_org_id := DEFAULT_ORG_ID; customer_a_id := id c;
        customer_b_id := id m; match_field := "name";
        match_value := Some nm; confidence := 5 # 10;
        status := Db.Pending; import_id := Some importId |}) ->
  extends P s0 (check_pair importId st (c, nm, m)).
Proof.
  intros (Ec & Es & added & Ef & Ek & FP) Hc Hm HP.
  unfold check_pair, check_match, differ in *. simpl in *.
  destruct (emails_differ (email m) (email c));
    [|now repeat split; try assumption; exists added].
  destruct (existingConflict (fst st) (id c) (id m));
    [now repeat split; try assumption; exists added|].
  rewrite flagConflict_appends by (eapply has_customer_of; eauto).
  simpl. repeat split; try assumption.
  eexists (added ++ [_]). rewrite Ef, <- app_assoc. split; [reflexivity|].
  split; [rewrite length_app; simpl; lia|].
  apply Forall_app. split; [assumption|]. constructor; [|constructor].
  now apply HP.
Qed.

Lemma fold_check_pair_extends (P : StitchingConflict -> Prop) importId s0 ps :
  (forall c nm m,
     In (c, nm, m) ps ->
     In c (customers s0) /\ In m (customers s0)
     /\ (differ (c, nm, m) = true ->
         P {| conflict_org_id := DEFAULT_ORG_ID; customer_a_id := id c;
              customer_b_id := id m; match_field := "name";
              match_value := Some nm; confidence := 5 # 10;
              status := Db.Pending; import_id := Some importId |})) ->
  forall st, extends P s0 st ->
             extends P s0 (fold_left (check_pair importId) ps st).
Proof.
  induction ps as [|[[c nm] m] ps IH]; intros H st E; [assumption|].
  simpl. apply IH; [intros; apply H; now right|].
  destruct (H c nm m (or_introl eq_refl)) as (A & B & C).
  now apply check_pair_extends.
Qed.

Lemma extends_start (P : StitchingConflict -> Prop) s0 : extends P s0 (s0, 0).
Proof.
  repeat split. exists []. rewrite app_nil_r. repeat split. constructor.
Qed.

Lemma importCustomers_In s ids c :
  In c (importCustomers s ids) -> In c (customers s) /\ In (id c) ids.
Proof.
  unfold importCustomers. intros H. apply filter_In in H.
  destruct H as [H E]. split; [assumption|].
  apply existsb_exists in E. destruct E as (x & Hx & Ex).
  apply Nat.eqb_eq in Ex. now subst.
Qed.

(** X24.  The scan changes neither the customers nor the links; it appends
    conflicts and returns their number; each one is a pending conflict on
    the name, of confidence 0.5 and marked with the import, between a
    customer linked to a row of the import and another customer of the
    organisation whose name matches, the two having non-empty emails that
    differ. *)
Theorem detectPostImportConflicts_flags_name_collisions
    (db : Database) (importId : Id) :
  customers (fst (detectPostImportConflicts db importId))
  = customers (store db)
  /\ customer_sources (fst (detectPostImportConflicts db importId))
     = customer_sources (store db)
  /\ exists added,
       stitching_conflicts (fst (detectPostImportConflicts db importId))
       = stitching_conflicts (store db) ++ added
       /\ snd (detectPostImportConflicts db importId) = List.length added
       /\ Forall (flagged_by db importId) added.
Proof.
  change (extends (flagged_by db importId) (store db)
            (detectPostImportConflicts db importId)).
  unfold detectPostImportConflicts.
  destruct (customer_sources (store db)) as [|row rows];
    [apply extends_start|].
  destruct (importCustomerIds db importId) as [|i ids] eqn:I;
    [apply extends_start|].
  rewrite (scan_as_pairs importId (store db)) by reflexivity.
  apply fold_check_pair_extends; [|apply extends_start].
  intros c nm m H. apply pairs_of_In in H.
  destruct H as (Hc & N & T & Hm & O & L & D).
  apply importCustomers_In in Hc. destruct Hc as [Hc Hi].
  split; [assumption|]. split; [assumption|].
  intros Df. exists c, m, nm. unfold import_conflict. rewrite N.
  repeat split; try assumption.
  apply importCustomerIds_In. now rewrite I.
Qed.

End PostImportFacts.

(** ** Scanning twice *)

Section PostImportIdempotence.
Import JsString Stitching PostImport PostImportSpec.
Local Open Scope nat_scope.

Lemma same_pair_sym x y f : same_pair x y f = same_pair y x f.
Proof. unfold same_pair. apply orb_comm. Qed.

Lemma same_pair_cases x y a b f :
  customer_a_id f = a -> customer_b_id f = b ->
  same_pair x y f = true -> (x = a /\ y = b) \/ (x = b /\ y = a).
Proof.
  unfold same_pair. intros <- <- H. apply orb_true_iff in H.
  destruct H as [H|H]; apply andb_true_iff in H; destruct H as [A B];
    apply Nat.eqb_eq in A, B; auto.
Qed.

Lemma recorded_grows s s' p added :
  stitching_conflicts s' = stitching_conflicts s ++ added ->
  recorded s p -> recorded s' p.
Proof.
  unfold recorded. intros -> H. rewrite filter_app. intros E.
  apply app_eq_nil in E. now destruct E.
Qed.

Lemma check_pair_keeps importId s0 st c nm m :
  one_conflict_per_pair (fst st) ->
  customers (fst st) = customers s0 ->
  In c (customers s0) -> In m (customers s0) ->
  one_conflict_per_pair (fst (check_pair importId st (c, nm, m)))
  /\ customers (fst (check_pair importId st (c, nm, m))) = customers s0
  /\ (exists added,
        stitching_conflicts (fst (check_pair importId st (c, nm, m)))
        = stitching_conflicts (fst st) ++ added)
  /\ (differ (c, nm, m) = true ->
      recorded (fst (check_pair importId st (c, nm, m))) (c, nm, m)).
Proof.
  intros J E Hc Hm. unfold check_pair, check_match, differ, recorded.
  simpl.
  destruct (emails_differ (email m) (email c)).
  2:{ repeat split; try assumption; [|discriminate].
      exists []. now rewrite app_nil_r. }
  unfold existingConflict.
  destruct (filter (same_pair (id c) (id m)) (stitching_conflicts (fst st)))
    as [|x [|y l]] eqn:F; simpl.
  - rewrite flagConflict_appends by (eapply has_customer_of; eauto).
    simpl. split; [|split; [assumption|split]].
    + intros a b. simpl. rewrite filter_app, length_app. simpl.
      destruct (same_pair a b _) eqn:S; simpl; [|specialize (J a b); lia].
      apply (same_pair_cases a b (id c) (id m)) in S; try reflexivity.
      destruct S as [[-> ->]|[-> ->]].
      * now rewrite F.
      * rewrite (filter_ext _ _ (same_pair_sym (id m) (id c))), F.
        reflexivity.
    + eexists. reflexivity.
    + intros _. rewrite filter_app, F. simpl.
      unfold same_pair. simpl. rewrite !Nat.eqb_refl. simpl. discriminate.
  - rewrite F. repeat split; try assumption; [|discriminate].
    exists []. now rewrite app_nil_r.
  - exfalso. specialize (J (id c) (id m)). rewrite F in J. simpl in J. lia.
Qed.

Lemma fold_check_pair_keeps importId s0 ps :
  (forall c nm m, In (c, nm, m) ps ->
                  In c (customers s0) /\ In m (customers s0)) ->
  forall st,
    one_conflict_per_pair (fst st) ->
    customers (fst st) = customers s0 ->
    one_conflict_per_pair (fst (fold_left (check_pair importId) ps st))
    /\ customers (fst (fold_left (check_pair importId) ps st))
       = customers s0
    /\ (exists added,
          stitching_conflicts (fst (fold_left (check_pair importId) ps st))
          = stitching_conflicts (fst st) ++ added)
    /\ (forall p, In p ps -> differ p = true ->
                  recorded (fst (fold_left (check_pair importId) ps st)) p).
Proof.
  induction ps as [|[[c nm] m] ps IH]; intros H st J E.
  - simpl. repeat split; try assumption; [|intros p []].
    exists []. now rewrite app_nil_r.
  - destruct (H c nm m (or_introl eq_refl)) as [Hc Hm].
    destruct (check_pair_keeps importId s0 st c nm m J E Hc Hm)
      as (J1 & E1 & (a1 & A1) & R1).
    destruct (IH (fun c' nm' m' I => H c' nm' m' (or_intror I)) _ J1 E1)
      as (J2 & E2 & (a2 & A2) & R2).
    simpl. repeat split; try assumption.
    + exists (a1 ++ a2). now rewrite A2, A1, app_assoc.
    + intros p [<-|Hp] D; [|now apply R2].
      eapply recorded_grows; [exact A2 | now apply R1].
Qed.

Lemma fold_check_pair_settled importId s ps :
  one_conflict_per_pair s ->
  (forall p, In p ps -> differ p = true -> recorded s p) ->
  forall k, fold_left (check_pair importId) ps (s, k) = (s, k).
Proof.
  intros J. induction ps as [|[[c nm] m] ps IH]; intros R k; [reflexivity|].
  simpl.
  assert (E : check_pair importId (s, k) (c, nm, m) = (s, k)).
  { unfold check_pair, check_match. simpl.
    destruct (emails_differ (email m) (email c)) eqn:D; [|reflexivity].
    specialize (R (c, nm, m) (or_introl eq_refl) D).
    unfold recorded in R. simpl in R. unfold existingConflict. simpl.
    specialize (J (id c) (id m)).
    destruct (filter (same_pair (id c) (id m)) (stitching_conflicts s))
      as [|x [|y l]]; [contradiction | reflexivity | simpl in J; lia]. }
  rewrite E. apply IH. intros p Hp. apply R. now right.
Qed.

(** X25.  When no pair of customers has more than one conflict row, the
    scan keeps it so, and a second scan of the same import finds nothing:
    it returns 0 and leaves the store as the first scan left it. *)
Theorem detectPostImportConflicts_second_scan_finds_nothing
    (db : Database) (importId : Id) :
  one_conflict_per_pair (store db) ->
  one_conflict_per_pair (fst (detectPostImportConflicts db importId))
  /\ detectPostImportConflicts
       (with_store db (fst (detectPostImportConflicts db importId)))
       importId
     = (fst (detectPostImportConflicts db importId), 0).
Proof.
  intros J.
  destruct (customer_sources (store db)) as [|row rows] eqn:Src.
  { assert (E : detectPostImportConflicts db importId = (store db, 0))
      by (unfold detectPostImportConflicts; now rewrite Src).
    rewrite E. simpl fst. split; [assumption|].
    unfold detectPostImportConflicts. simpl store. now rewrite Src. }
  destruct (importCustomerIds db importId) as [|i ids] eqn:Ids.
  { assert (E : detectPostImportConflicts db importId = (store db, 0))
      by (unfold detectPostImportConflicts; now rewrite Src, Ids).
    rewrite E. simpl fst. split; [assumption|].
    unfold detectPostImportConflicts. simpl store. rewrite Src.
    change (importCustomerIds (with_store db (store db)) importId)
      with (importCustomerIds db importId).
    now rewrite Ids. }
  set (ps := pairs_of (store db) (importCustomers (store db) (i :: ids))).
  assert (E : detectPostImportConflicts db importId
              = fold_left (check_pair importId) ps (store db, 0)).
  { unfold detectPostImportConflicts. rewrite Src, Ids.
    now apply scan_as_pairs. }
  rewrite E.
  assert (V : forall c nm m, In (c, nm, m) ps ->
                In c (customers (store db)) /\ In m (customers (store db))).
  { intros c nm m H. apply pairs_of_In in H.
    destruct H as (Hc & _ & _ & Hm & _).
    apply importCustomers_In in Hc. now destruct Hc. }
  destruct (fold_check_pair_keeps importId (store db) ps V (store db, 0) J
              eq_refl) as (J1 & E1 & _ & R1).
  destruct (fold_check_pair_extends (fun _ => True) importId (store db) ps)
    with (st := (store db, 0)) as (_ & S1 & _).
  { intros c nm m H. destruct (V c nm m H). auto. }
  { apply extends_start. }
  set (s1 := fst (fold_left (check_pair importId) ps (store db, 0))) in *.
  split; [assumption|].
  unfold detectPostImportConflicts. simpl store. rewrite S1, Src.
  change (importCustomerIds (with_store db s1) importId)
    with (importCustomerIds db importId).
  rewrite Ids.
  assert (C : importCustomers s1 (i :: ids)
              = importCustomers (store db) (i :: ids)).
  { unfold importCustomers. now rewrite E1. }
  rewrite C, (scan_as_pairs importId (store db)) by exact E1.
  fold ps. now apply fold_check_pair_settled.
Qed.

End PostImportIdempotence.

(** ** Saved mappings *)

Section SavedMappingFacts.
Import JsString Mappings.

Lemma query_order_total a b :
  query_order a b = true \/ query_order b a = true.
Proof.
  unfold query_order.
  destruct (is_default a), (is_default b); simpl; auto;
    rewrite !Nat.leb_le; lia.
Qed.

Lemma query_order_trans a b c :
  query_order a b = true -> query_order b c = true ->
  query_order a c = true.
Proof.
  unfold query_order.
  destruct (is_default a), (is_default b), (is_default c); simpl;
    rewrite ?Nat.leb_le; try discriminate; auto; lia.
Qed.

Lemma ratio_reaches (o d : nat) :
  (0 < d)%nat ->
  Qle_bool (7 # 10) (Mapper.Qnat o / Mapper.Qnat d) = true
  <-> (7 * d <= 10 * o)%nat.
Proof.
  intros Hd. rewrite Qle_bool_iff.
  pose proof (Qnat_pos d Hd) as P.
  assert (E : (7 # 10) * Mapper.Qnat d <= Mapper.Qnat o
              <-> (7 * d <= 10 * o)%nat).
  { unfold Mapper.Qnat, Qle. cbn [Qmult Qnum Qden inject_Z]. lia. }
  rewrite <- E. split; intros H.
  - apply (Qmult_le_compat_r _ _ (Mapper.Qnat d)) in H; [|lra].
    assert (D : Mapper.Qnat o / Mapper.Qnat d * Mapper.Qnat d
                == Mapper.Qnat o) by (field; lra).
    now rewrite D in H.
  - apply Qle_shift_div_l; assumption.
Qed.

Lemma qualifies_covers headers m sh :
  sample_headers m = Some sh ->
  Qle_bool (7 # 10)
    (overlapRatio (map normalized headers) (map normalized sh)) = true
  <-> covers headers m.
Proof.
  intros S. unfold overlapRatio, covers.
  rewrite ratio_reaches by lia. rewrite length_map. split.
  - intros H. exists sh. split; [assumption|].
    destruct sh as [|x l]; [simpl in H; unfold overlap in H; simpl in H; lia|].
    split; [discriminate|]. simpl in *. lia.
  - intros (sh' & S' & N & H). rewrite S in S'. injection S' as <-.
    destruct sh as [|x l]; [congruence|]. simpl in *. lia.
Qed.

Lemma first_match_Some headers l m :
  first_match (map normalized headers) l = Some m ->
  In m l /\ covers headers m.
Proof.
  induction l as [|x l IH]; simpl; [discriminate|].
  destruct (sample_headers x) as [sh|] eqn:S.
  - destruct (Qle_bool _ _) eqn:Q.
    + intros [= <-]. split; [now left|].
      now apply (qualifies_covers headers x sh S).
    + intros H. destruct (IH H). split; [now right | assumption].
  - intros H. destruct (IH H). split; [now right | assumption].
Qed.

Lemma first_match_None headers l :
  first_match (map normalized headers) l = None ->
  forall x, In x l -> ~ covers headers x.
Proof.
  induction l as [|y l IH]; simpl; [intros _ x []|].
  destruct (sample_headers y) as [sh|] eqn:S.
  - destruct (Qle_bool _ _) eqn:Q; [discriminate|].
    intros H x [<-|Hx]; [|now apply IH].
    intros C. apply (qualifies_covers headers y sh S) in C. congruence.
  - intros H x [<-|Hx]; [|now apply IH].
    intros (sh & S' & _). congruence.
Qed.

Lemma first_match_sorted (R : SavedMapping -> SavedMapping -> Prop)
    headers l m :
  StronglySorted R l ->
  first_match (map normalized headers) l = Some m ->
  forall x, In x l -> covers headers x -> x = m \/ R m x.
Proof.
  induction 1 as [|y l S IH F]; simpl; [discriminate|].
  rewrite Forall_forall in F.
  destruct (sample_headers y) as [sh|] eqn:Sy.
  - destruct (Qle_bool _ _) eqn:Q.
    + intros [= <-] x [<-|Hx] _; [now left | right; now apply F].
    + intros H x [<-|Hx] C; [|now apply IH].
      apply (qualifies_covers headers y sh Sy) in C. congruence.
  - intros H x [<-|Hx] C; [|now apply IH].
    destruct C as (sh & S' & _). congruence.
Qed.

Lemma findMatchingSavedMapping_loop table source headers :
  findMatchingSavedMapping table source headers
  = first_match (map normalized headers) (mappings_of table source).
Proof.
  unfold findMatchingSavedMapping.
  now destruct (mappings_of table source).
Qed.

Lemma mappings_of_In table source m :
  In m (mappings_of table source)
  <-> In m table /\ mapping_source m = source.
Proof.
  unfold mappings_of. split.
  - intros H.
    apply (Permutation_in _ (Permutation_sym (sort_perm _ _))) in H.
    apply filter_In in H. destruct H as [H E].
    now apply source_eqb_eq in E.
  - intros [H E]. apply (Permutation_in _ (sort_perm _ _)).
    apply filter_In. split; [assumption | now apply source_eqb_eq].
Qed.

Lemma query_order_prefers m m' :
  query_order m m' = true ->
  (is_default m' = true -> is_default m = true)
  /\ (is_default m' = is_default m -> (created_at m' <= created_at m)%nat).
Proof.
  unfold query_order.
  destruct (is_default m), (is_default m'); simpl;
    rewrite ?Nat.leb_le; intros H; split; intros; congruence || lia.
Qed.

(** X26.  The mapping returned is a saved mapping of the source that covers
    at least 70% of its own sample headers with the headers of the file; no
    other such mapping is a default when it is not, or is more recent with
    the same default flag. Nothing is returned exactly when no saved
    mapping of the source covers the file. *)
Theorem findMatchingSavedMapping_returns_preferred_match
    (table : list SavedMapping) (source : Db.SourceType)
    (headers : list string) :
  match findMatchingSavedMapping table source headers with
  | Some m =>
      In m table /\ mapping_source m = source /\ covers headers m
      /\ forall m',
           In m' table -> mapping_source m' = source -> covers headers m' ->
           (is_default m' = true -> is_default m = true)
           /\ (is_default m' = is_default m ->
               (created_at m' <= created_at m)%nat)
  | None =>
      forall m',
        In m' table -> mapping_source m' = source -> ~ covers headers m'
  end.
Proof.
  rewrite findMatchingSavedMapping_loop.
  destruct (first_match (map normalized headers) (mappings_of table source))
    as [m|] eqn:F.
  - destruct (first_match_Some _ _ _ F) as [I C].
    apply mappings_of_In in I. destruct I as [I E].
    split; [assumption|]. split; [assumption|]. split; [assumption|].
    intros m' I' E' C'.
    destruct (first_match_sorted (fun a b => query_order a b = true)
                headers (mappings_of table source) m) with (x := m')
      as [->|Q]; try assumption.
    + apply sort_sorted; [exact query_order_total | exact query_order_trans].
    + apply mappings_of_In. now split.
    + split; [auto | lia].
    + now apply query_order_prefers.
  - intros m' I E. apply (first_match_None _ _ F).
    apply mappings_of_In. now split.
Qed.

(** X27.  A file that has every sample header of a saved mapping of its
    source, up to case and surrounding white space, is given a saved
    mapping. *)
Theorem file_with_the_sample_headers_gets_a_saved_mapping
    (table : list SavedMapping) (source : Db.SourceType)
    (headers : list string) (m : SavedMapping) (sh : list string) :
  In m table -> mapping_source m = source ->
  sample_headers m = Some sh -> sh <> [] ->
  (forall h, In h sh ->
             exists x, In x headers /\ normalized x = normalized h) ->
  exists m',
    findMatchingSavedMapping table source headers = Some m'
    /\ covers headers m'.
Proof.
  intros I E S N H.
  assert (C : covers headers m).
  { exists sh. split; [assumption|]. split; [assumption|].
    unfold overlap. rewrite filter_all, length_map; [lia|].
    intros h Hh. apply in_map_iff in Hh. destruct Hh as (h0 & <- & Hh).
    destruct (H h0 Hh) as (x & Hx & Ex).
    apply existsb_exists. exists (normalized x).
    split; [now apply in_map|]. rewrite Ex. apply String.eqb_refl. }
  rewrite findMatchingSavedMapping_loop.
  destruct (first_match (map normalized headers) (mappings_of table source))
    as [m'|] eqn:F.
  - exists m'. split; [reflexivity|]. now apply first_match_Some in F.
  - exfalso. apply (first_match_None _ _ F m); [|assumption].
    apply mappings_of_In. now split.
Qed.

End SavedMappingFacts.

(** ** Editing the mapping *)

Section UploadMapperFacts.
Import JsString UploadMapper.

Lemma keys_delete {V} k (m : JsMap.t V) :
  JsMap.keys (JsMap.delete k m)
  = filter (fun x => negb (x =? k)) (JsMap.keys m).
Proof.
  induction m as [|[k' v] m IH]; simpl; [reflexivity|].
  destruct (k' =? k); simpl; [exact IH | now rewrite IH].
Qed.

Lemma NoDup_delete {V} k (m : JsMap.t V) :
  NoDup (JsMap.keys m) -> NoDup (JsMap.keys (JsMap.delete k m)).
Proof. intros H. rewrite keys_delete. now apply NoDup_filter. Qed.

Lemma fold_delete_keys (P : string * string -> bool) l :
  forall acc : JsMap.t string,
    NoDup (JsMap.keys acc) ->
    NoDup
      (JsMap.keys
         (fold_left
            (fun nm e => if P e then JsMap.delete (fst e) nm else nm) l acc)).
Proof.
  induction l as [|e l IH]; intros acc H; simpl; [assumption|].
  apply IH. destruct (P e); [now apply NoDup_delete | assumption].
Qed.

Lemma fold_delete_get (P : string * string -> bool) l :
  forall (acc : JsMap.t string) k,
    JsMap.get k
      (fold_left
         (fun nm e => if P e then JsMap.delete (fst e) nm else nm) l acc)
    = if existsb (fun e => P e && (fst e =? k)) l then None
      else JsMap.get k acc.
Proof.
  induction l as [|e l IH]; intros acc k; simpl; [reflexivity|].
  rewrite IH. destruct (P e) eqn:Pe; simpl; [|reflexivity].
  destruct (fst e =? k) eqn:E; simpl.
  - apply String.eqb_eq in E. rewrite <- E, get_delete_eq.
    now destruct (existsb _ l).
  - apply String.eqb_neq in E. now rewrite (get_delete_neq _ _ _ E).
Qed.

Lemma holds_field (mapping : JsMap.t string) h f k :
  NoDup (JsMap.keys mapping) ->
  existsb (fun e => (snd e =? f) && negb (fst e =? h) && (fst e =? k)) mapping
  = (negb (k =? h)
     && match JsMap.get k mapping with
        | Some g => g =? f
        | None => false
        end).
Proof.
  intros ND.
  destruct (existsb _ mapping) eqn:E.
  - apply existsb_exists in E. destruct E as ([k' g] & I & E). simpl in E.
    apply andb_true_iff in E. destruct E as [E Ek].
    apply andb_true_iff in E. destruct E as [Eg Eh].
    apply String.eqb_eq in Ek, Eg. subst k' g.
    rewrite (In_get _ _ _ ND I), String.eqb_refl, Eh. reflexivity.
  - destruct (k =? h) eqn:Kh; [reflexivity|]. simpl.
    destruct (JsMap.get k mapping) as [g|] eqn:G; [|reflexivity].
    destruct (g =? f) eqn:Gf; [|reflexivity].
    apply String.eqb_eq in Gf. subst g. apply get_In in G.
    assert (X : existsb
                  (fun e => (snd e =? f) && negb (fst e =? h) && (fst e =? k))
                  mapping = true).
    { apply existsb_exists. exists (k, f). split; [assumption|]. simpl.
      now rewrite !String.eqb_refl, Kh. }
    congruence.
Qed.

(** X28.  Choosing a field for a header gives the field to that header and
    takes it from every other header; the other headers keep what they had.
    Clearing a header removes its entry only. Either way a mapping in which
    no two headers hold the same field stays so. *)
Theorem handleFieldSelect_keeps_one_header_per_field
    (mapping : JsMap.t string) (csvHeader f : string) :
  NoDup (JsMap.keys mapping) -> f <> "" ->
  (JsMap.get csvHeader (handleFieldSelect mapping csvHeader (Some f))
   = Some f
   /\ (forall h,
         h <> csvHeader ->
         JsMap.get h (handleFieldSelect mapping csvHeader (Some f))
         = if match JsMap.get h mapping with
              | Some g => g =? f
              | None => false
              end
           then None else JsMap.get h mapping)
   /\ (forall h,
         JsMap.get h (handleFieldSelect mapping csvHeader (Some f)) = Some f ->
         h = csvHeader))
  /\ (JsMap.get csvHeader (handleFieldSelect mapping csvHeader None) = None
      /\ forall h,
           h <> csvHeader ->
           JsMap.get h (handleFieldSelect mapping csvHeader None)
           = JsMap.get h mapping)
  /\ (one_header_per_field mapping ->
      one_header_per_field (handleFieldSelect mapping csvHeader (Some f))
      /\ one_header_per_field (handleFieldSelect mapping csvHeader None))
  /\ NoDup (JsMap.keys (handleFieldSelect mapping csvHeader (Some f)))
  /\ NoDup (JsMap.keys (handleFieldSelect mapping csvHeader None)).
Proof.
  intros ND Nf. apply truthy_true in Nf.
  assert (Other : forall h,
            h <> csvHeader ->
            JsMap.get h (handleFieldSelect mapping csvHeader (Some f))
            = if match JsMap.get h mapping with
                 | Some g => g =? f
                 | None => false
                 end
              then None else JsMap.get h mapping).
  { intros h Hh. unfold handleFieldSelect. rewrite Nf.
    rewrite get_set_neq by congruence.
    rewrite (fold_delete_get
               (fun e => (snd e =? f) && negb (fst e =? csvHeader))).
    rewrite (holds_field mapping csvHeader f h ND).
    apply String.eqb_neq in Hh. now rewrite Hh. }
  assert (Own : JsMap.get csvHeader
                  (handleFieldSelect mapping csvHeader (Some f)) = Some f).
  { unfold handleFieldSelect. rewrite Nf. apply get_set_eq. }
  assert (Only : forall h,
            JsMap.get h (handleFieldSelect mapping csvHeader (Some f))
            = Some f -> h = csvHeader).
  { intros h G. destruct (string_dec h csvHeader) as [E|N]; [assumption|].
    rewrite (Other h N) in G.
    destruct (JsMap.get h mapping) as [g|]; [|discriminate].
    destruct (g =? f) eqn:Gf; [discriminate|].
    injection G as ->. now rewrite String.eqb_refl in Gf. }
  assert (Clear : forall h,
            h <> csvHeader ->
            JsMap.get h (handleFieldSelect mapping csvHeader None)
            = JsMap.get h mapping).
  { intros h Hh. simpl. apply get_delete_neq. congruence. }
  split; [auto|]. split; [split; [apply get_delete_eq | exact Clear]|].
  split; [|split].
  - intros Inj. split.
    + intros h1 h2 k G1 G2.
      destruct (string_dec k f) as [->|Nk].
      { now rewrite (Only h1 G1), (Only h2 G2). }
      assert (Old : forall h,
                JsMap.get h (handleFieldSelect mapping csvHeader (Some f))
                = Some k -> JsMap.get h mapping = Some k).
      { intros h G. destruct (string_dec h csvHeader) as [->|N].
        - rewrite Own in G. congruence.
        - rewrite (Other h N) in G.
          now destruct (match JsMap.get h mapping with
                        | Some g => g =? f
                        | None => false
                        end). }
      exact (Inj h1 h2 k (Old h1 G1) (Old h2 G2)).
    + intros h1 h2 k G1 G2.
      assert (Old : forall h,
                JsMap.get h (handleFieldSelect mapping csvHeader None)
                = Some k -> JsMap.get h mapping = Some k).
      { intros h G. destruct (string_dec h csvHeader) as [->|N].
        - simpl in G. rewrite get_delete_eq in G. discriminate.
        - now rewrite (Clear h N) in G. }
      exact (Inj h1 h2 k (Old h1 G1) (Old h2 G2)).
  - unfold handleFieldSelect. rewrite Nf.
    apply NoDup_set.
    apply (fold_delete_keys
             (fun e => (snd e =? f) && negb (fst e =? csvHeader))).
    assumption.
  - simpl. now apply NoDup_delete.
Qed.

End UploadMapperFacts.

(** ** The preview of an import *)

Section PreviewFacts.
Import JsString Validators Preview.

Variable Date_parse : string -> option string.
Variable Date_local : Z -> Z -> Z -> option string.
Variable match_date : string -> option (string * string * string).

Local Open Scope nat_scope.

Lemma preview_step_accounted source schema mapping st rawRow :
  accounted st ->
  accounted
    (preview_step Date_parse Date_local match_date source schema mapping st
       rawRow).
Proof.
  intros (C & L & Z & R). unfold accounted, preview_step.
  set (mapped := normalizeStatusField source (applyMapping rawRow mapping)).
  set (rowErrors :=
         validateMappedRow Date_parse Date_local match_date mapped schema
           (i st + 1)).
  cbv beta iota zeta delta [i allErrors shownRows validCount errorCount].
  fold (i st) (allErrors st) (shownRows st) (validCount st) (errorCount st).
  assert (Rows : forall e, In e rowErrors -> row e = i st + 1).
  { intros e He. unfold rowErrors, validateMappedRow in He.
    apply in_flat_map in He. destruct He as (f & _ & He).
    now apply (validateField_In Date_parse Date_local match_date) in He. }
  assert (Shown : List.length
                    (if i st <? previewLimit then shownRows st ++ [mapped]
                     else shownRows st)
                  = Nat.min previewLimit (S (i st))).
  { unfold previewLimit in *. destruct (i st <? 10) eqn:P.
    - apply Nat.ltb_lt in P. rewrite length_app.
      change (List.length [mapped]) with 1. lia.
    - apply Nat.ltb_ge in P. lia. }
  split; [|split; [exact Shown|split]].
  - destruct (0 <? List.length rowErrors); lia.
  - destruct (0 <? List.length rowErrors) eqn:F; [|exact Z].
    apply Nat.ltb_lt in F. split; [discriminate|].
    intros E. apply app_eq_nil in E. destruct E as [_ E].
    rewrite E in F. simpl in F. lia.
  - intros e He.
    assert (In e (allErrors st) \/ In e rowErrors) as [H|H].
    { destruct (0 <? List.length rowErrors); [|now left].
      now apply in_app_or. }
    + apply R in H. lia.
    + apply Rows in H. lia.
Qed.

Lemma preview_loop_accounted source schema mapping data : forall st,
  accounted st ->
  accounted
    (fold_left
       (preview_step Date_parse Date_local match_date source schema mapping)
       data st)
  /\ i (fold_left
          (preview_step Date_parse Date_local match_date source schema
             mapping) data st)
     = i st + List.length data.
Proof.
  induction data as [|rawRow data IH]; intros st A; simpl.
  - split; [assumption | lia].
  - destruct (IH _ (preview_step_accounted source schema mapping st rawRow A))
      as [A' I'].
    split; [assumption|]. rewrite I'. simpl. lia.
Qed.

Lemma firstn_In_of {A} n (l : list A) x : In x (firstn n l) -> In x l.
Proof.
  revert l. induction n as [|n IH]; intros [|y l]; simpl; try tauto.
  intros [H|H]; [now left | right; now apply IH].
Qed.

(** X29.  The preview accounts for every row of the file: each row is
    counted as valid or as in error, at most ten mapped rows and fifty
    errors are shown, an error is shown exactly when some row is in error,
    and every error shown names a row of the file, counted from 1. *)
Theorem previewCSV_accounts_for_every_row
    (saved : list Mappings.SavedMapping) (source : Db.SourceType)
    (schema : SourceSchema) (fields : list string) (data : list Row)
    (provided : option (JsMap.t string)) :
  let out :=
    preview
      (previewCSV Date_parse Date_local match_date saved source schema
         (Parser.parseResult fields data) provided) in
  totalRows out = List.length data
  /\ validRows out + errorRows out = totalRows out
  /\ List.length (mappedRows out) = Nat.min 10 (List.length data)
  /\ List.length (validationErrors out) <= 50
  /\ (errorRows out = 0 <-> validationErrors out = [])
  /\ forall e, In e (validationErrors out) ->
               1 <= row e <= List.length data.
Proof.
  unfold previewCSV.
  destruct (chooseMapping saved source schema
              (Parser.parseResult fields data) provided) as [mapping sugg].
  cbv zeta.
  cbn [preview mappedRows validationErrors totalRows validRows errorRows
       Parser.rows Parser.totalRows Parser.parseResult].
  destruct (preview_loop_accounted source schema mapping data
              {| i := 0; allErrors := []; shownRows := []; validCount := 0;
                 errorCount := 0 |}) as [(C & L & Z & R) I].
  { unfold accounted. simpl.
    repeat split; try reflexivity; try lia; try contradiction. }
  set (st := fold_left
               (preview_step Date_parse Date_local match_date source schema
                  mapping) data
               {| i := 0; allErrors := []; shownRows := []; validCount := 0;
                  errorCount := 0 |}) in *.
  change (i st = List.length data) in I. rewrite I in *.
  split; [reflexivity|]. split; [assumption|]. split; [assumption|].
  split; [rewrite length_firstn; lia|]. split.
  - rewrite Z. split; [now intros -> |].
    destruct (allErrors st) as [|x l]; [reflexivity | discriminate].
  - intros x Hx. apply R. now apply firstn_In_of in Hx.
Qed.

End PreviewFacts.

(** ** Alias matches *)

Section AliasFacts.
Import JsString Mapper Spec SuggestionSpec.

Lemma cands_alias rows h f c :
  In c (cands rows h f) -> mmatchType c = MAlias ->
  alias_for h f = true
  /\ c = {| field := key f; mconfidence := 95 # 100; mmatchType := MAlias |}.
Proof.
  unfold cands, alias_for.
  destruct ((normalizeHeader h =? normalizeHeader (key f))
            || (normalizeHeader h =? normalizeHeader (label f))).
  { intros [<-|[]]; discriminate. }
  destruct (existsb (fun alias => normalizeHeader alias =? normalizeHeader h)
              (aliases f)).
  { intros [<-|[]] _. auto. }
  intros H T. exfalso. apply in_app_or in H. destruct H as [H|H].
  - destruct (Qltb _ _); [|contradiction].
    destruct H as [<-|[]]. discriminate.
  - destruct (samplePattern f); [|contradiction].
    destruct (Qltb _ _); [|contradiction].
    destruct H as [<-|[]]. discriminate.
Qed.

Lemma alias_cand rows h f :
  exact_for h f = false -> alias_for h f = true ->
  cands rows h f
  = [{| field := key f; mconfidence := 95 # 100; mmatchType := MAlias |}].
Proof.
  unfold cands, exact_for, alias_for. now intros -> ->.
Qed.

Lemma bestMatchFor_alias fs rows h f :
  In f fs -> alias_for h f = true ->
  (forall g, In g fs -> exact_for h g = false) ->
  exists f',
    In f' fs /\ alias_for h f' = true
    /\ bestMatchFor fs rows h
       = Some {| field := key f'; mconfidence := 95 # 100;
                 mmatchType := MAlias |}.
Proof.
  intros Hf A NE.
  pose proof (alias_cand rows h f (NE f Hf) A) as Cf.
  destruct (bestMatchFor fs rows h) as [m|] eqn:B.
  - destruct (bestMatchFor_Some _ _ _ _ B) as (_ & (g & Hg & Hc) & Max).
    assert (L : 95 # 100 <= mconfidence m).
    { apply (Max f {| field := key f; mconfidence := 95 # 100;
                      mmatchType := MAlias |} Hf).
      rewrite Cf. now left. }
    destruct (cands_band _ _ _ _ Hc) as [_ Bd].
    destruct (mmatchType m) eqn:T; simpl in Bd.
    + exfalso. destruct (cands_exact _ _ _ _ Hc T) as [E _].
      rewrite (NE g Hg) in E. discriminate.
    + destruct (cands_alias _ _ _ _ Hc T) as [Ag ->]. now exists g.
    + exfalso. destruct Bd as [_ U]. lra.
    + exfalso. destruct Bd as [_ U]. lra.
    + contradiction.
  - exfalso. rewrite bestMatchFor_cands in B.
    pose proof (pick_fold_spec (flat_map (cands rows h) fs) None) as P.
    rewrite B in P. destruct P as [_ P].
    assert (I : In {| field := key f; mconfidence := 95 # 100;
                      mmatchType := MAlias |}
                   (flat_map (cands rows h) fs)).
    { apply in_flat_map. exists f. split; [assumption|]. rewrite Cf.
      now left. }
    rewrite P in I. contradiction.
Qed.

(** X7.  A header that normalizes to an alias of a field, and to the key or
    label of none, is matched as an alias with confidence 0.95, whatever
    the similarity and pattern scores; in the returned list it carries such
    a field, or it is unmapped and another header carries that field with a
    confidence of at least 0.95. *)
Theorem alias_header_is_alias_or_displaced
    (csvHeaders : list string) (schema : SourceSchema)
    (sampleRows : list Row) (h : string) (f : SchemaField) :
  In h csvHeaders -> In f (fields schema) -> alias_for h f = true ->
  (forall g, In g (fields schema) -> exact_for h g = false) ->
  exists f',
    In f' (fields schema) /\ alias_for h f' = true
    /\ (In {| csvHeader := h; schemaField := Some (key f');
              confidence := 95 # 100; matchType := MAlias |}
           (generateMappingSuggestions csvHeaders schema sampleRows)
        \/ (In {| csvHeader := h; schemaField := None; confidence := 0;
                  matchType := MNone |}
               (generateMappingSuggestions csvHeaders schema sampleRows)
            /\ exists s,
                 In s (generateMappingSuggestions csvHeaders schema
                         sampleRows)
                 /\ csvHeader s <> h
                 /\ schemaField s = Some (key f')
                 /\ 95 # 100 <= confidence s)).
Proof.
  intros Hh Hf A NE. unfold generateMappingSuggestions.
  set (fs := sortFields (fields schema)).
  assert (Back : forall g, In g fs -> In g (fields schema)).
  { intros g. apply (Permutation_in _ (Permutation_sym (sortFields_perm _))). }
  destruct (bestMatchFor_alias fs sampleRows h f) as (f' & Hf' & A' & B).
  { now apply (Permutation_in _ (sortFields_perm _)). }
  { assumption. }
  { intros g Hg. apply NE. now apply Back. }
  exists f'. split; [now apply Back|]. split; [assumption|].
  destruct (field_has_winner _ _ _ _ _ Hh B)
    as (h' & m' & Hh' & B' & F & L & W).
  simpl in F, L, W.
  assert (S : forall x, In x csvHeaders ->
              In (suggestionFor
                    (fold_left resolve_step
                       (groupByField (firstPass fs sampleRows csvHeaders))
                       (firstPass fs sampleRows csvHeaders)) x)
                 (suggestWith fs csvHeaders sampleRows)).
  { intros x Hx. unfold suggestWith. now apply in_map. }
  pose proof (S h Hh) as Sh. pose proof (S h' Hh') as Sh'.
  unfold suggestionFor in Sh, Sh'. rewrite suggest_get in Sh, Sh'.
  rewrite (proj2 (existsb_eqb_In h csvHeaders) Hh), B in Sh.
  rewrite (proj2 (existsb_eqb_In h' csvHeaders) Hh'), B', F, W in Sh'.
  simpl in Sh.
  destruct (winner_is (firstPass fs sampleRows csvHeaders) (key f') h) eqn:Wh.
  - left. exact Sh.
  - right. split; [exact Sh|]. eexists. split; [exact Sh'|]. simpl.
    split; [|split; [now rewrite F | assumption]].
    intros ->. congruence.
Qed.

End AliasFacts.

(** ** Detection and the generated mapping *)

Section DetectionAndMapping.
Import JsString Mapper SuggestionSpec.

Lemma set_In {V} (m : JsMap.t V) h v x :
  In x (JsMap.set h v m) -> x = (h, v) \/ In x m.
Proof.
  induction m as [|[k w] m IH]; simpl.
  - intros [<-|[]]. now left.
  - destruct (k =? h) eqn:E; simpl.
    + apply String.eqb_eq in E. subst k. intros [<-|H]; auto.
    + intros [<-|H]; [auto|]. destruct (IH H); auto.
Qed.

Lemma suggestionsToMapping_In l : forall acc h k,
  In (h, k)
    (fold_left
       (fun mapping s =>
          match schemaField s with
          | Some f => if truthy f then JsMap.set (csvHeader s) f mapping
                      else mapping
          | None => mapping
          end) l acc) ->
  In (h, k) acc \/ exists s, In s l /\ schemaField s = Some k.
Proof.
  induction l as [|s l IH]; intros acc h k; simpl; [now left|].
  intros H. apply IH in H. destruct H as [H|(x & Hx & E)].
  - destruct (schemaField s) as [f|] eqn:S; [|now left].
    destruct (truthy f); [|now left].
    apply set_In in H. destruct H as [[= -> ->]|H]; [|now left].
    right. exists s. split; [now left | assumption].
  - right. exists x. split; [now right | assumption].
Qed.

Lemma used_iff_mapped csvHeaders schema sampleRows k :
  k <> "" ->
  existsb (String.eqb k)
    (UploadMapper.usedFields
       (suggestionsToMapping
          (generateMappingSuggestions csvHeaders schema sampleRows)))
  = existsb (fun s => Detect.field_is s k)
      (filter Detect.is_mapped
         (generateMappingSuggestions csvHeaders schema sampleRows)).
Proof.
  intros Nk. apply eq_true_iff_eq. rewrite !existsb_exists. split.
  - intros (x & Hx & E). apply String.eqb_eq in E. subst x.
    unfold UploadMapper.usedFields in Hx. apply in_map_iff in Hx.
    destruct Hx as ([h k'] & E & Hx). simpl in E. subst k'.
    unfold suggestionsToMapping in Hx. apply suggestionsToMapping_In in Hx.
    destruct Hx as [[]|(s & Hs & E)]. exists s. split.
    + apply filter_In. split; [assumption|].
      unfold Detect.is_mapped. now rewrite E.
    + unfold Detect.field_is. rewrite E. apply String.eqb_refl.
  - intros (s & Hs & E). apply filter_In in Hs. destruct Hs as [Hs _].
    unfold Detect.field_is in E.
    destruct (schemaField s) as [f|] eqn:S; [|discriminate].
    apply String.eqb_eq in E. subst f.
    exists k. split; [|apply String.eqb_refl].
    unfold UploadMapper.usedFields. apply in_map_iff.
    exists (csvHeader s, k). split; [reflexivity|]. apply get_In.
    unfold generateMappingSuggestions in *.
    unfold suggestWith in Hs. apply in_map_iff in Hs.
    destruct Hs as (h & <- & Hh).
    rewrite suggestionFor_header, mapping_of_suggestions_get.
    rewrite (proj2 (existsb_eqb_In h csvHeaders) Hh).
    unfold mapping_entry. rewrite S.
    apply truthy_true in Nk. now rewrite Nk.
Qed.

Lemma filter_none_iff_all {A} (p : A -> bool) l :
  filter (fun x => negb (p x)) l = []
  <-> List.length (filter p l) = List.length l.
Proof.
  induction l as [|x l IH]; simpl; [tauto|].
  pose proof (filter_length_le p l) as B.
  destruct (p x); simpl.
  - rewrite IH. split; intros H; lia.
  - split; [discriminate | intros H; lia].
Qed.

(** X12.  For a schema whose keys are not empty, the mapping generated from
    the suggestions leaves no required field missing exactly when detection
    counts every required field of the schema as mapped. *)
Theorem generated_mapping_covers_required_fields_iff_detection_does
    (headers : list string) (sampleRows : list Row)
    (k : Db.SourceType) (schema : SourceSchema) :
  (forall f, In f (fields schema) -> key f <> "") ->
  UploadMapper.missingRequired schema
    (suggestionsToMapping
       (generateMappingSuggestions headers schema sampleRows)) = []
  <-> Detect.requiredMapped (Detect.detect_one headers sampleRows (k, schema))
      = Detect.requiredTotal (Detect.detect_one headers sampleRows (k, schema)).
Proof.
  intros NE. unfold UploadMapper.missingRequired. simpl.
  rewrite filter_none_iff_all.
  assert (E : filter
                (fun f =>
                   existsb (String.eqb (key f))
                     (UploadMapper.usedFields
                        (suggestionsToMapping
                           (generateMappingSuggestions headers schema
                              sampleRows))))
                (filter required (fields schema))
              = filter
                  (fun f =>
                     existsb (fun s => Detect.field_is s (key f))
                       (filter Detect.is_mapped
                          (generateMappingSuggestions headers schema
                             sampleRows)))
                  (filter required (fields schema))).
  { apply filter_ext_in. intros f Hf. apply filter_In in Hf.
    apply used_iff_mapped, NE, Hf. }
  rewrite E. reflexivity.
Qed.

End DetectionAndMapping.


(** ** Conflicts recorded while stitching *)

Section StitchingConflicts.
Import JsString Stitching PostImport PostImportSpec.
Local Open Scope nat_scope.

Lemma has_customer_fresh s : has_customer s (fresh_id (customers s)) = false.
Proof.
  destruct (has_customer s (fresh_id (customers s))) eqn:E; [|reflexivity].
  exfalso. unfold has_customer in E. apply existsb_exists in E.
  destruct E as (c & Hc & E). apply Nat.eqb_eq in E.
  apply (fresh_id_new (customers s)). rewrite <- E. now apply in_map.
Qed.

Lemma has_customer_grows s s' added i :
  customers s' = customers s ++ added ->
  has_customer s i = true -> has_customer s' i = true.
Proof.
  unfold has_customer. intros -> H. rewrite existsb_app, H. reflexivity.
Qed.

Lemma no_conflict_with_fresh s x y :
  conflicts_reference_customers s ->
  x = fresh_id (customers s) \/ y = fresh_id (customers s) ->
  filter (same_pair x y) (stitching_conflicts s) = [].
Proof.
  intros FK H. apply filter_nil_iff. intros f Hf.
  destruct (same_pair x y f) eqn:S; [|reflexivity]. exfalso.
  destruct (FK f Hf) as [A B].
  apply (same_pair_cases x y (customer_a_id f) (customer_b_id f)) in S;
    try reflexivity.
  pose proof (has_customer_fresh s) as N.
  destruct H as [-> | ->], S as [[E1 E2]|[E1 E2]]; congruence.
Qed.

(** X23.  Stitching keeps the foreign keys of the conflicts and never
    records a second conflict for a pair of customers: the conflict that a
    call adds involves the customer that the call has just created. *)
Theorem stitchIdentity_keeps_one_conflict_per_pair
    s src externalId e n r s1 :
  conflicts_reference_customers s -> one_conflict_per_pair s ->
  stitchIdentity s src externalId e n = Ok (r, s1) ->
  conflicts_reference_customers s1 /\ one_conflict_per_pair s1.
Proof.
  intros FK J H. apply stitchIdentity_cases in H.
  destruct H as [[_ ->]|[(cid & _ & -> & _)|(i & s' & ex & by_ & C & _ & S)]].
  - now split.
  - split.
    + intros f Hf. rewrite link_conflicts in Hf.
      rewrite !(has_customer_same s _ _ (link_customers _ _ _ _ _ _)).
      now apply FK.
    + intros x y. rewrite link_conflicts. apply J.
  - apply createCustomer_Ok in C. destruct C as (Ei & Cc & _ & Cf & _).
    set (s2 := linkSourceToCustomer s' i src externalId e n) in *.
    assert (C2 : customers s2 = customers s ++ [_])
      by (unfold s2; rewrite link_customers; exact Cc).
    assert (F2 : stitching_conflicts s2 = stitching_conflicts s)
      by (unfold s2; rewrite link_conflicts; exact Cf).
    assert (FK2 : conflicts_reference_customers s2).
    { intros f Hf. rewrite F2 in Hf. destruct (FK f Hf) as [A B].
      split; eapply has_customer_grows; eauto. }
    assert (J2 : one_conflict_per_pair s2)
      by (intros x y; rewrite F2; apply J).
    destruct S as [->| ->]; [now split|].
    unfold flagConflict.
    destruct (has_customer s2 ex && has_customer s2 i) eqn:G;
      [|now split].
    apply andb_true_iff in G. destruct G as [Ga Gb]. split.
    + intros f Hf. simpl in *. apply in_app_or in Hf.
      destruct Hf as [Hf|[<-|[]]]; simpl; [|now split].
      destruct (FK2 f Hf). now split.
    + intros x y. simpl. rewrite filter_app, length_app, F2. simpl.
      destruct (same_pair x y _) eqn:P; simpl;
        [|specialize (J x y); lia].
      apply (same_pair_cases x y ex i) in P; try reflexivity.
      rewrite (no_conflict_with_fresh s x y FK); [simpl; lia|].
      destruct P as [[_ ->]|[-> _]]; auto.
Qed.

End StitchingConflicts.

(** ** The extremes of the Dice coefficient *)

Section DiceExtremes.
Import Mapper Spec.
Local Open Scope nat_scope.

Lemma length_as_sum (l L : list string) :
  NoDup L -> incl l L ->
  List.length l = list_sum (map (count_occ string_dec l) L).
Proof.
  intros ND. induction l as [|x l IH]; intros I.
  - simpl. induction L as [|g L IHL]; simpl; [reflexivity|].
    inversion ND; subst. now rewrite <- IHL.
  - simpl List.length.
    rewrite (sum_change_one (count_occ string_dec (x :: l))
               (count_occ string_dec l) x L ND).
    + f_equal. apply IH. intros g Hg. apply I. now right.
    + apply I. now left.
    + intros g Hg. simpl. destruct (string_dec x g); congruence.
    + simpl. destruct (string_dec x x); congruence.
Qed.

Lemma list_sum_zero (f : string -> nat) L :
  list_sum (map f L) = 0 <-> forall g, In g L -> f g = 0.
Proof.
  induction L as [|x L IH]; simpl.
  - split; [intros _ g [] | reflexivity].
  - split.
    + intros H g [<-|Hg]; [lia | apply IH; [lia | assumption]].
    + intros H. rewrite (H x (or_introl eq_refl)).
      apply IH. intros g Hg. apply H. now right.
Qed.

Lemma list_sum_le (m f : string -> nat) L :
  (forall g, In g L -> m g <= f g) ->
  list_sum (map m L) <= list_sum (map f L).
Proof.
  induction L as [|x L IH]; simpl; intros H; [lia|].
  pose proof (H x (or_introl eq_refl)).
  pose proof (IH (fun g Hg => H g (or_intror Hg))). lia.
Qed.

Lemma list_sum_eq_pointwise (m f : string -> nat) L :
  (forall g, In g L -> m g <= f g) ->
  list_sum (map m L) = list_sum (map f L) ->
  forall g, In g L -> m g = f g.
Proof.
  induction L as [|x L IH]; simpl; intros H E g; [intros []|].
  pose proof (H x (or_introl eq_refl)) as Hx.
  pose proof (list_sum_le m f L (fun g Hg => H g (or_intror Hg))) as Le.
  intros [<-|Hg]; [lia|].
  apply IH; [intros; apply H; now right | lia | assumption].
Qed.

Lemma length_bigrams a : List.length (bigrams a) = String.length a - 1.
Proof. unfold bigrams. now rewrite length_map, length_seq. Qed.

Lemma Qnat_ratio_zero n d :
  0 < d -> (Qnat n / Qnat d == 0)%Q <-> n = 0.
Proof.
  intros Hd. pose proof (Qnat_pos d Hd) as P. split.
  - intros H.
    assert (E : (Qnat n == Qnat n / Qnat d * Qnat d)%Q) by (field; lra).
    rewrite H in E.
    assert (E0 : (Qnat n == 0)%Q) by (rewrite E; ring).
    unfold Qnat, Qeq in E0. simpl in E0. lia.
  - intros ->. unfold Qdiv. change (Qnat 0) with 0%Q. ring.
Qed.

Lemma Qnat_ratio_one n d :
  0 < d -> (Qnat n / Qnat d == 1)%Q <-> n = d.
Proof.
  intros Hd. pose proof (Qnat_pos d Hd) as P. split.
  - intros H.
    assert (E : (Qnat n == Qnat n / Qnat d * Qnat d)%Q) by (field; lra).
    rewrite H in E.
    assert (E0 : (Qnat n == Qnat d)%Q) by (rewrite E; ring).
    unfold Qnat, Qeq in E0. simpl in E0. lia.
  - intros ->. field. lra.
Qed.

Lemma intersection_as_sum a b :
  let L := nodup string_dec (bigrams a ++ bigrams b) in
  NoDup L /\ incl (bigrams a) L /\ incl (bigrams b) L
  /\ (forall g, ~ In g L ->
                count_occ string_dec (bigrams a) g = 0
                /\ count_occ string_dec (bigrams b) g = 0)
  /\ intersection a b
     = list_sum
         (map (fun g => Nat.min (count_occ string_dec (bigrams a) g)
                                (count_occ string_dec (bigrams b) g)) L)
  /\ String.length a - 1
     = list_sum (map (count_occ string_dec (bigrams a)) L)
  /\ String.length b - 1
     = list_sum (map (count_occ string_dec (bigrams b)) L).
Proof.
  intros L.
  assert (ND : NoDup L) by apply NoDup_nodup.
  assert (Ia : incl (bigrams a) L)
    by (intros g Hg; apply nodup_In, in_or_app; now left).
  assert (Ib : incl (bigrams b) L)
    by (intros g Hg; apply nodup_In, in_or_app; now right).
  split; [assumption|]. split; [assumption|]. split; [assumption|].
  split; [|split; [|split]].
  - intros g Hg. split; apply count_occ_not_In; intros I; apply Hg; auto.
  - now rewrite (intersection_min_sum a b L ND Ib).
  - rewrite <- length_bigrams. now apply length_as_sum.
  - rewrite <- length_bigrams. now apply length_as_sum.
Qed.

(** X3.  For two different strings the coefficient is 0 when one of them
    has fewer than two characters; otherwise it is 0 exactly when they
    share no bigram, and 1 exactly when every bigram occurs as often in the
    one as in the other. *)
Theorem diceCoefficient_extremes (a b : string) :
  a <> b ->
  (String.length a < 2 \/ String.length b < 2 -> diceCoefficient a b = 0%Q)
  /\ (2 <= String.length a -> 2 <= String.length b ->
      ((diceCoefficient a b == 0)%Q
       <-> forall g, In g (bigrams a) -> ~ In g (bigrams b))
      /\ ((diceCoefficient a b == 1)%Q
          <-> forall g, count_occ string_dec (bigrams a) g
                        = count_occ string_dec (bigrams b) g)).
Proof.
  intros N. apply String.eqb_neq in N. unfold diceCoefficient. rewrite N.
  split.
  - intros H.
    assert (E : (String.length a <? 2) || (String.length b <? 2) = true).
    { apply orb_true_iff. rewrite !Nat.ltb_lt. exact H. }
    now rewrite E.
  - intros La Lb.
    assert (E : (String.length a <? 2) || (String.length b <? 2) = false).
    { apply orb_false_iff. rewrite !Nat.ltb_ge. auto. }
    rewrite E.
    destruct (intersection_as_sum a b) as (ND & Ia & Ib & Out & I & Sa & Sb).
    set (L := nodup string_dec (bigrams a ++ bigrams b)) in *.
    set (ca := count_occ string_dec (bigrams a)) in *.
    set (cb := count_occ string_dec (bigrams b)) in *.
    assert (Ma : forall g, In g L -> Nat.min (ca g) (cb g) <= ca g)
      by (intros; lia).
    assert (Mb : forall g, In g L -> Nat.min (ca g) (cb g) <= cb g)
      by (intros; lia).
    pose proof (list_sum_le _ _ L Ma) as LEa.
    pose proof (list_sum_le _ _ L Mb) as LEb.
    split.
    + rewrite Qnat_ratio_zero by lia.
      assert (Z : 2 * intersection a b = 0 <-> intersection a b = 0) by lia.
      rewrite Z, I, list_sum_zero. split.
      * intros H g Ha Hb. specialize (H g (Ia g Ha)).
        apply (count_occ_In string_dec) in Ha, Hb.
        fold (ca g) in Ha. fold (cb g) in Hb. lia.
      * intros H g Hg.
        destruct (Nat.eq_dec (Nat.min (ca g) (cb g)) 0) as [E0|E0];
          [assumption|].
        exfalso. apply (H g); apply (count_occ_In string_dec).
        -- fold (ca g). lia.
        -- fold (cb g). lia.
    + rewrite Qnat_ratio_one by lia. split.
      * intros H g. destruct (in_dec string_dec g L) as [Hg|Hg].
        -- assert (Ea : list_sum (map (fun g => Nat.min (ca g) (cb g)) L)
                         = list_sum (map ca L)) by lia.
           assert (Eb : list_sum (map (fun g => Nat.min (ca g) (cb g)) L)
                         = list_sum (map cb L)) by lia.
           pose proof (list_sum_eq_pointwise _ _ L Ma Ea g Hg).
           pose proof (list_sum_eq_pointwise _ _ L Mb Eb g Hg).
           simpl in *. lia.
        -- destruct (Out g Hg) as [A B]. fold (ca g) in A. fold (cb g) in B.
           lia.
      * intros H.
        assert (Ea : list_sum (map (fun g => Nat.min (ca g) (cb g)) L)
                     = list_sum (map ca L)).
        { f_equal. apply map_ext. intros g. rewrite (H g). lia. }
        assert (Eb : list_sum (map ca L) = list_sum (map cb L)).
        { f_equal. apply map_ext. exact H. }
        lia.
Qed.

End DiceExtremes.

(** ** Instances *)

Section MoreInstances.
Import JsString Examples MoreExamples.

Lemma matched_field_stays_mapped_witness :
  exists s,
    In s (Mapper.generateMappingSuggestions ["Email"; "email"] email_schema [])
    /\ schemaField s = Some "email"
    /\ 1 <= confidence s.
Proof.
  apply (matched_field_stays_mapped ["Email"; "email"] email_schema []
           "email"
           {| Mapper.field := "email"; Mapper.mconfidence := 1;
              Mapper.mmatchType := MExact |}).
  - right. now left.
  - vm_compute. reflexivity.
Defined.

Lemma detection_confidence_in_unit_interval_witness :
  0 <= Detect.confidence
         (Detect.detect_one ["Email"; "Name"] [] (Db.Stripe, two_field_schema))
  /\ Detect.confidence
       (Detect.detect_one ["Email"; "Name"] [] (Db.Stripe, two_field_schema))
     <= 1
  /\ (Detect.mappedCount
        (Detect.detect_one ["Email"; "Name"] [] (Db.Stripe, two_field_schema))
      <= 2)%nat.
Proof.
  apply (detection_confidence_in_unit_interval ["Email"; "Name"] []
           (Db.Stripe, two_field_schema)).
  - repeat constructor; simpl; intuition discriminate.
  - discriminate.
Defined.

Lemma validation_reads_the_mapped_cell_witness :
  Validators.field_value
    (Validators.applyMapping [("E-mail", " jane@a.com ")]
       [("E-mail", "email")]) email_field
  = "jane@a.com".
Proof.
  apply (validation_reads_the_mapped_cell [("E-mail", " jane@a.com ")]
           [("E-mail", "email")] "E-mail" email_field).
  - repeat constructor. intros [].
  - now left.
Defined.

Lemma missing_required_field_fails_every_row_witness :
  In (RowSpec.required_error 3%nat email_field)
     (Validators.validateMappedRow no_date no_local_date no_date_match
        (Validators.applyMapping [("Name", "Jane")] [("Name", "name")])
        email_schema 3%nat).
Proof.
  apply (missing_required_field_fails_every_row no_date no_local_date
           no_date_match [("Name", "Jane")] [("Name", "name")] email_schema
           3%nat email_field).
  now left.
Defined.

Lemma stitchIdentity_returns_an_existing_customer_witness :
  Stitching.wf_store store_jane_stitched
  /\ Stitching.has_customer store_jane_stitched 2%nat = true.
Proof.
  apply (stitchIdentity_returns_an_existing_customer store_jane Db.Stripe
           "cus_1" (Some "jane@b.com") (Some "Jane Doe")
           {| Stitching.customerId := 2%nat; Stitching.isNew := true;
              Stitching.matchedBy := Stitching.ByName |}
           store_jane_stitched).
  - exact wf_store_jane.
  - reflexivity.
Defined.

Lemma stitchIdentity_only_appends_witness :
  Stitching.customers store_jane_stitched
  = Stitching.customers store_jane
    ++ [{| Stitching.id := 2%nat;
           Stitching.org_id := Stitching.DEFAULT_ORG_ID;
           Stitching.name := Some "Jane Doe";
           Stitching.email := Some "jane@b.com" |}]
  /\ (exists added,
        Stitching.stitching_conflicts store_jane_stitched
        = Stitching.stitching_conflicts store_jane ++ added
        /\ (List.length added <= 1)%nat)
  /\ (forall src' ext',
        (src', ext') <> (Db.Stripe, "cus_1") ->
        Stitching.links_of store_jane_stitched src' ext'
        = Stitching.links_of store_jane src' ext').
Proof.
  apply (stitchIdentity_only_appends store_jane Db.Stripe "cus_1"
           (Some "jane@b.com") (Some "Jane Doe")
           {| Stitching.customerId := 2%nat; Stitching.isNew := true;
              Stitching.matchedBy := Stitching.ByName |}
           store_jane_stitched).
  reflexivity.
Defined.

Lemma stitchIdentity_known_email_reuses_customer_witness :
  Stitching.stitchIdentity store_jane Db.Calendly "evt_9" (Some "jane@a.com")
    (Some "J. Doe")
  = Stitching.Ok
      ({| Stitching.customerId := 1%nat; Stitching.isNew := false;
          Stitching.matchedBy := Stitching.ByEmail |},
       Stitching.linkSourceToCustomer store_jane 1%nat Db.Calendly "evt_9"
         (Some "jane@a.com") (Some "J. Doe")).
Proof.
  apply (stitchIdentity_known_email_reuses_customer store_jane Db.Calendly
           "evt_9" "jane@a.com" (Some "J. Doe") jane).
  - exact wf_store_jane.
  - now left.
  - reflexivity.
  - reflexivity.
  - discriminate.
  - right. reflexivity.
Defined.

Lemma detectPostImportConflicts_second_scan_witness :
  snd (PostImport.detectPostImportConflicts db_twins 7%nat) = 1%nat
  /\ PostImport.detectPostImportConflicts
       (PostImport.with_store db_twins
          (fst (PostImport.detectPostImportConflicts db_twins 7%nat))) 7%nat
     = (fst (PostImport.detectPostImportConflicts db_twins 7%nat), 0%nat).
Proof.
  split; [reflexivity|].
  apply (detectPostImportConflicts_second_scan_finds_nothing db_twins 7%nat).
  intros x y. simpl. apply Nat.le_0_l.
Defined.

Lemma file_with_the_sample_headers_witness :
  exists m',
    Mappings.findMatchingSavedMapping [saved_stripe] Db.Stripe
      [" email"; "AMOUNT"; "Notes"] = Some m'
    /\ Mappings.covers [" email"; "AMOUNT"; "Notes"] m'.
Proof.
  apply (file_with_the_sample_headers_gets_a_saved_mapping [saved_stripe]
           Db.Stripe [" email"; "AMOUNT"; "Notes"] saved_stripe
           ["Email"; "Amount"]).
  - now left.
  - reflexivity.
  - reflexivity.
  - discriminate.
  - intros h [<-|[<-|[]]].
    + exists " email". split; [now left | reflexivity].
    + exists "AMOUNT". split; [right; now left | reflexivity].
Defined.

Lemma handleFieldSelect_witness :
  JsMap.get "Contact"
    (UploadMapper.handleFieldSelect
       [("Mail", "email"); ("Who", "name")] "Contact" (Some "email"))
  = Some "email"
  /\ JsMap.get "Mail"
       (UploadMapper.handleFieldSelect
          [("Mail", "email"); ("Who", "name")] "Contact" (Some "email"))
     = None
  /\ JsMap.get "Who"
       (UploadMapper.handleFieldSelect
          [("Mail", "email"); ("Who", "name")] "Contact" (Some "email"))
     = Some "name".
Proof.
  destruct (handleFieldSelect_keeps_one_header_per_field
              [("Mail", "email"); ("Who", "name")] "Contact" "email")
    as ((Own & Other & _) & _).
  - repeat constructor; simpl; intuition discriminate.
  - discriminate.
  - split; [exact Own|]. split.
    + now rewrite Other by discriminate.
    + now rewrite Other by discriminate.
Defined.

Lemma alias_header_is_alias_or_displaced_witness :
  exists f',
    In f' (fields payment_schema)
    /\ SuggestionSpec.alias_for "Email Address" f' = true
    /\ (In {| csvHeader := "Email Address"; schemaField := Some (key f');
              confidence := 95 # 100; matchType := MAlias |}
           (Mapper.generateMappingSuggestions ["Email Address"; "Amount"]
              payment_schema [])
        \/ (In {| csvHeader := "Email Address"; schemaField := None;
                  confidence := 0; matchType := MNone |}
               (Mapper.generateMappingSuggestions ["Email Address"; "Amount"]
                  payment_schema [])
            /\ exists s,
                 In s (Mapper.generateMappingSuggestions
                         ["Email Address"; "Amount"] payment_schema [])
                 /\ csvHeader s <> "Email Address"
                 /\ schemaField s = Some (key f')
                 /\ 95 # 100 <= confidence s)).
Proof.
  apply (alias_header_is_alias_or_displaced ["Email Address"; "Amount"]
           payment_schema [] "Email Address" payment_email_field).
  - now left.
  - now left.
  - reflexivity.
  - intros g [<-|[<-|[<-|[]]]]; vm_compute; reflexivity.
Defined.

Lemma generated_mapping_covers_required_fields_witness :
  UploadMapper.missingRequired two_field_schema
    (Mapper.suggestionsToMapping
       (Mapper.generateMappingSuggestions ["Email"] two_field_schema [])) = []
  <-> Detect.requiredMapped
        (Detect.detect_one ["Email"] [] (Db.Stripe, two_field_schema))
      = Detect.requiredTotal
          (Detect.detect_one ["Email"] [] (Db.Stripe, two_field_schema)).
Proof.
  apply (generated_mapping_covers_required_fields_iff_detection_does
           ["Email"] [] Db.Stripe two_field_schema).
  intros f [<-|[<-|[]]]; discriminate.
Defined.

Lemma stitchIdentity_keeps_one_conflict_per_pair_witness :
  PostImportSpec.conflicts_reference_customers store_jane_stitched
  /\ PostImport.one_conflict_per_pair store_jane_stitched.
Proof.
  apply (stitchIdentity_keeps_one_conflict_per_pair store_jane Db.Stripe
           "cus_1" (Some "jane@b.com") (Some "Jane Doe")
           {| Stitching.customerId := 2%nat; Stitching.isNew := true;
              Stitching.matchedBy := Stitching.ByName |}
           store_jane_stitched).
  - intros f [].
  - intros x y. simpl. apply Nat.le_0_l.
  - reflexivity.
Defined.

Lemma diceCoefficient_extremes_witness :
  "abaab" <> "aabab" /\ Mapper.diceCoefficient "abaab" "aabab" == 1.
Proof.
  assert (N : "abaab" <> "aabab") by discriminate.
  split; [exact N|].
  destruct (diceCoefficient_extremes "abaab" "aabab" N) as [_ H].
  apply H.
  - simpl. repeat constructor.
  - simpl. repeat constructor.
  - intros g.
    assert (Ea : Mapper.bigrams "abaab" = ["ab"; "ba"; "aa"; "ab"])
      by reflexivity.
    assert (Eb : Mapper.bigrams "aabab" = ["aa"; "ab"; "ba"; "ab"])
      by reflexivity.
    rewrite Ea, Eb. cbn [count_occ].
    destruct (string_dec "ab" g), (string_dec "ba" g), (string_dec "aa" g);
      reflexivity.
Defined.

Lemma isConfidentDetection_iff_all_required_mapped_witness :
  Detect.isConfidentDetection
    (Detect.detectSource
       [(Db.Stripe, two_field_schema); (Db.Calendly, amount_schema)]
       ["Email"; "Name"] []) = true
  /\ Detect.isConfidentDetection
       (Detect.detectSource
          [(Db.Stripe, two_field_schema); (Db.Calendly, amount_schema)]
          ["Name"] []) = false.
Proof.
  split.
  - apply (isConfidentDetection_iff_all_required_mapped
             (Detect.detectSource
                [(Db.Stripe, two_field_schema); (Db.Calendly, amount_schema)]
                ["Email"; "Name"] [])).
    + intros r H. vm_compute in H.
      destruct H as [<-|[<-|[]]]; vm_compute; lia.
    + vm_compute. repeat split; discriminate.
  - assert (Hle : forall r,
              In r (Detect.detectSource
                      [(Db.Stripe, two_field_schema);
                       (Db.Calendly, amount_schema)] ["Name"] []) ->
              (Detect.requiredMapped r <= Detect.requiredTotal r)%nat).
    { intros r H. vm_compute in H.
      destruct H as [<-|[<-|[]]]; vm_compute; lia. }
    destruct (isConfidentDetection_iff_all_required_mapped _ Hle)
      as (_ & U & _).
    eapply U; [vm_compute; reflexivity|]. vm_compute. lia.
Defined.

End MoreInstances.
